(** * Windowed ingestion engine of the TRREB/RESO sync backend

    A shallow embedding of [lib/utils/fetchFeed.js], [lib/utils/db.js],
    [lib/sync/propertySync.js], [lib/sync/mediaSync.js] and [sync.js],
    together with the properties of the ingestion engine that were checked
    against them.

    Conventions of the embedding.
    - An [async] function is a computation in the monad [M S]: it threads a
      state [S] (the outside world, the module-level variables, and the log
      of what the process did) and either resolves with a value ([Ok]) or
      rejects with a thrown error ([Throw]).
    - Everything the process does not own (the network and the upstream
      server, the Supabase client, the wall clock) is an oracle in an
      environment record; every oracle may change the world.
    - Instants ([Date] objects and the strings [toISOString] produces) are
      [Z] milliseconds since the epoch; on the strings of [toISOString] the
      string order used by the JavaScript and the order of the instants
      coincide.  A time stamp of the feed keeps the string received beside
      its instant, the engine comparing such strings as they come.  A
      missing, [null] or empty field is [None].
    - [Date.prototype.setDate] and [setHours] work in the time zone of the
      process, taken to be UTC (no daylight-saving shifts). *)

From Stdlib Require Import ZArith String Ascii List Bool Lia DecimalString OrderedTypeEx.
From stdpp Require Import base option list gmap strings.

Set Warnings "-register-all,-clear-no-such-hyp".
Local Open Scope string_scope.
Local Open Scope Z_scope.

(** ** Thrown values and the effect monad *)

(** A thrown [Error] (or a Supabase error object): the code only ever reads
    [message] and [code]. *)
Record js_error := JsError { message : string; code : string }.

Inductive result (A : Type) : Type :=
| Ok (a : A)
| Throw (e : js_error).
Arguments Ok {A} a.
Arguments Throw {A} e.

Definition M (S A : Type) : Type := S -> result A * S.

Definition ret {S A} (a : A) : M S A := fun s => (Ok a, s).

Definition throw {S A} (e : js_error) : M S A := fun s => (Throw e, s).

Definition bind {S A B} (c : M S A) (k : A -> M S B) : M S B :=
  fun s => match c s with
           | (Ok a, s') => k a s'
           | (Throw e, s') => (Throw e, s')
           end.

(** [try { c } catch (error) { h error }] *)
Definition try_catch {S A} (c : M S A) (h : js_error -> M S A) : M S A :=
  fun s => match c s with
           | (Ok a, s') => (Ok a, s')
           | (Throw e, s') => h e s'
           end.

Definition get {S} : M S S := fun s => (Ok s, s).
Definition modify {S} (f : S -> S) : M S unit := fun s => (Ok tt, f s).

Notation "'let!' x ':=' c1 'in' c2" := (bind c1 (fun x => c2))
  (at level 10, x name, c1 at level 100, c2 at level 200).
Notation "'run!' c1 'in' c2" := (bind c1 (fun _ => c2))
  (at level 10, c1 at level 100, c2 at level 200).

(** [haystack.includes(needle)] *)
Fixpoint includes (haystack needle : string) : bool :=
  String.prefix needle haystack ||
  match haystack with
  | EmptyString => false
  | String _ rest => includes rest needle
  end.

(** Template-literal rendering of an integer. *)
Definition string_of_Z (z : Z) : string := NilZero.string_of_int (Z.to_int z).

(** ** lib/utils/fetchFeed.js *)
Module FetchFeed.

(** Parsed JSON, as [response.json()] resolves it.  Numbers are restricted
    to integers: the only number the page fetcher looks at is the record
    count. *)
Inductive json :=
| JNull
| JBool (b : bool)
| JNum (n : Z)
| JStr (s : string)
| JArr (items : list json)
| JObj (fields : list (string * json)).

(** JavaScript truthiness of a parsed JSON value. *)
Definition truthy (v : json) : bool :=
  match v with
  | JNull => false
  | JBool b => b
  | JNum n => negb (n =? 0)
  | JStr s => negb (String.eqb s "")
  | JArr _ => true
  | JObj _ => true
  end.

Fixpoint assoc (k : string) (fields : list (string * json)) : option json :=
  match fields with
  | [] => None
  | (k', v) :: rest => if String.eqb k k' then Some v else assoc k rest
  end.

(** [data?.[k]] for the three keys the fetcher reads ([value],
    [@odata.nextLink], [@odata.count]); [None] is [undefined].  Only a JSON
    object has properties by these names. *)
Definition opt_get (data : json) (k : string) : option json :=
  match data with
  | JObj fields => assoc k fields
  | _ => None
  end.

(** [x || dflt] *)
Definition js_or (x : option json) (dflt : json) : json :=
  match x with
  | Some v => if truthy v then v else dflt
  | None => dflt
  end.

Definition is_array (v : json) : bool :=
  match v with JArr _ => true | _ => false end.

(** What [fetch(url, { headers })] settles to. *)
Record response := {
  status : Z;
  statusText : string;
  body_text : option string;          (* [None]: [response.text()] rejects *)
  body_json : result json             (* what [response.json()] settles to *)
}.

Inductive fetch_outcome :=
| Rejected (e : js_error)             (* network failure, timeout *)
| Responded (r : response).

Definition response_ok (r : response) : bool :=
  (200 <=? status r) && (status r <=? 299).

Record http_request := {
  req_url : string;
  req_headers : list (string * string)
}.

Inductive net_event :=
| EvRequest (rq : http_request)
| EvSleep (ms : Z).

Section Client.
Context {W : Type}.

(** The network and the upstream server. *)
Record net_env := {
  net_fetch : http_request -> W -> fetch_outcome * W;
  net_elapse : Z -> W -> W          (* the world while the process sleeps *)
}.

Variable env : net_env.

Record net_state := { net_world : W; net_log : list net_event }.

Definition emit (e : net_event) : M net_state unit :=
  modify (fun s => {| net_world := net_world s; net_log := (net_log s ++ [e])%list |}).

Definition do_fetch (rq : http_request) : M net_state fetch_outcome :=
  fun s => let '(o, w) := net_fetch env rq (net_world s) in
           (Ok o, {| net_world := w; net_log := (net_log s ++ [EvRequest rq])%list |}).

(** [sleep(ms)] *)
Definition sleep (ms : Z) : M net_state unit :=
  fun s => (Ok tt, {| net_world := net_elapse env ms (net_world s);
                      net_log := (net_log s ++ [EvSleep ms])%list |}).

(** class ApiClient *)
Record ApiClient := {
  token : string;
  retryAttempts : Z;
  retryDelay : Z
}.

Definition new_ApiClient (tok : string) : ApiClient :=
  {| token := tok; retryAttempts := 3; retryDelay := 500 |}.

Definition headers_of (c : ApiClient) : list (string * string) :=
  [("Authorization", "Bearer " +:+ token c);
   ("Accept", "application/json");
   ("User-Agent", "TRREB-Sync/1.0")].

(** The body of the [try] of one attempt, after [fetch] has settled. *)
Definition settle (url : string) (o : fetch_outcome) : result json :=
  match o with
  | Rejected e => Throw e
  | Responded r =>
      if response_ok r then body_json r
      else
        let errorText := default "" (body_text r) in
        let errMsg := "HTTP " +:+ string_of_Z (status r) +:+ " " +:+
                      statusText r +:+ " for " +:+ url in
        Throw {| message := errMsg +:+
                   (if String.eqb errorText "" then "" else " - " +:+ errorText);
                 code := "" |}
  end.

(** What [throw lastError] throws when the loop never ran. *)
Definition thrown_undefined : js_error := {| message := ""; code := "" |}.

(** The [for (attempt = 1; attempt <= retryAttempts; attempt++)] loop of
    [fetchWithRetry]; [n] counts the iterations left. *)
Fixpoint retry_loop (c : ApiClient) (url : string) (n : nat) (attempt : Z)
    (lastError : option js_error) : M net_state json :=
  match n with
  | O => throw (default thrown_undefined lastError)
  | S n' =>
      let! o := do_fetch {| req_url := url; req_headers := headers_of c |} in
      match settle url o with
      | Ok data => ret data
      | Throw error =>
          run! (if attempt <? retryAttempts c
                then sleep (retryDelay c * 2 ^ (attempt - 1))
                else ret tt) in
          retry_loop c url n' (attempt + 1) (Some error)
      end
  end.

Definition fetchWithRetry (c : ApiClient) (url : string) : M net_state json :=
  retry_loop c url (Z.to_nat (retryAttempts c)) 1 None.

(** Arguments of [fetchODataPage]; [top] has its default filled in by the
    caller of the model. *)
Record page_args := {
  baseUrl : string;
  page_token : string;
  top : Z;
  next : option string;
  skip : option Z;
  filter : option string;
  orderby : option string
}.

Definition nonempty (s : option string) : option string :=
  match s with
  | Some x => if String.eqb x "" then None else Some x
  | None => None
  end.

Fixpoint join (sep : string) (l : list string) : string :=
  match l with
  | [] => ""
  | [x] => x
  | x :: rest => x +:+ sep +:+ join sep rest
  end.

(** [enable_orderby] is [process.env.ENABLE_ORDERBY !== 'false']. *)
Definition final_url (enable_orderby : bool) (a : page_args) : string :=
  match nonempty (next a) with
  | Some n => n
  | None =>
      let params :=
        ((match nonempty (filter a) with Some f => ["$filter=" +:+ f] | None => [] end) ++
         (match nonempty (orderby a) with
          | Some o => if enable_orderby then ["$orderby=" +:+ o] else []
          | None => [] end) ++
         (if top a =? 0 then [] else ["$top=" +:+ string_of_Z (top a)]) ++
         (match skip a with
          | Some k => if k =? 0 then [] else ["$skip=" +:+ string_of_Z k]
          | None => [] end))%list in
      let queryString := join "&" params in
      if String.eqb queryString "" then baseUrl a
      else baseUrl a +:+ "?" +:+ queryString
  end.

Record page := { value : json; page_next : json; count : json }.

(** [Object.keys(null)] *)
Definition type_error_keys : js_error :=
  {| message := "Cannot convert undefined or null to object"; code := "" |}.

(** [debug] is [process.env.DEBUG === 'true']; the logging itself leaves no
    trace here, but [Object.keys(data)] throws on [null]. *)
Definition fetchODataPage (enable_orderby debug : bool) (a : page_args)
    : M net_state page :=
  let! data := fetchWithRetry (new_ApiClient (page_token a))
                              (final_url enable_orderby a) in
  run! (if debug
        then match data with JNull => throw type_error_keys | _ => ret tt end
        else ret tt) in
  ret {| value := js_or (opt_get data "value") (JArr []);
         page_next := js_or (opt_get data "@odata.nextLink") JNull;
         count := js_or (opt_get data "@odata.count") JNull |}.

(** The request of a client built by [new ApiClient(token)]. *)
Definition request_of (tok url : string) : http_request :=
  {| req_url := url; req_headers := headers_of (new_ApiClient tok) |}.

(** The state once the world is [w] and the events [l] have been added. *)
Definition logged (s : net_state) (w : W) (l : list net_event) : net_state :=
  {| net_world := w; net_log := (net_log s ++ l)%list |}.

Definition requests (l : list net_event) : list http_request :=
  omap (fun e => match e with EvRequest rq => Some rq | _ => None end) l.

Definition sleeps (l : list net_event) : list Z :=
  omap (fun e => match e with EvSleep ms => Some ms | _ => None end) l.

End Client.

End FetchFeed.

(** ** Upstream records and database rows *)

(** A time stamp of the feed: the string received, and the instant
    [new Date(string)] reads from it. *)
Record feed_time := { instant : Z; text : string }.

(** A record of the feed: the fields the engine reads.  One type serves the
    Property and the Media endpoints, a JavaScript object being a bag of
    optional fields. *)
Record raw := {
  ListingKey : option string;
  ResourceRecordKey : option string;
  MediaKey : option string;
  ModificationTimestamp : option feed_time;
  MediaModificationTimestamp : option feed_time;
  ModifiedOn : option feed_time;
  CreatedAt : option Z
}.

(** Truthiness of a string-valued field. *)
Definition truthy_str (o : option string) : bool :=
  match o with
  | Some s => negb (String.eqb s "")
  | None => false
  end.

(** [a || b] on optional values. *)
Definition or_else {A} (a b : option A) : option A :=
  match a with Some _ => a | None => b end.

(** Rows written by [mapProperty] and [mapMedia] (key and time columns), and
    the row of [sync_log]. *)
Record property_row := {
  p_ListingKey : option string;
  p_ModificationTimestamp : option Z;
  p_CreatedAt : Z;
  p_UpdatedAt : Z
}.

Record media_row := {
  m_ResourceRecordKey : option string;
  m_MediaKey : option string;
  m_MediaModificationTimestamp : option Z;
  m_ModificationTimestamp : option Z;
  m_CreatedAt : Z;
  m_UpdatedAt : Z
}.

Record sync_log_row := {
  resourcetype : string;
  lastprocessedtimestamp : option Z;
  updatedat : Z
}.

Inductive row :=
| PropertyRow (r : property_row)
| MediaRow (r : media_row)
| SyncLogRow (r : sync_log_row).

(** [safeDate]: [new Date(value).toISOString()], the instant the string
    denotes; [null] for a falsy value. *)
Definition safeDate (v : option feed_time) : option Z := option_map instant v.

(** [mapProperty(raw)] and [mapMedia(raw)], [now] being [new Date()]. *)
Definition mapProperty (now : Z) (r : raw) : row :=
  PropertyRow {| p_ListingKey := ListingKey r;
                 p_ModificationTimestamp := safeDate (ModificationTimestamp r);
                 p_CreatedAt := default now (CreatedAt r);
                 p_UpdatedAt := now |}.

Definition mapMedia (now : Z) (r : raw) : row :=
  MediaRow {| m_ResourceRecordKey := ResourceRecordKey r;
              m_MediaKey := MediaKey r;
              m_MediaModificationTimestamp := safeDate (MediaModificationTimestamp r);
              m_ModificationTimestamp := safeDate (ModificationTimestamp r);
              m_CreatedAt := default now (CreatedAt r);
              m_UpdatedAt := now |}.

(** [record[field]] on a mapped row, for the time columns. *)
Definition row_get (rec : row) (field : string) : option Z :=
  match rec with
  | PropertyRow p =>
      if String.eqb field "ModificationTimestamp" then p_ModificationTimestamp p
      else if String.eqb field "UpdatedAt" then Some (p_UpdatedAt p)
      else if String.eqb field "CreatedAt" then Some (p_CreatedAt p)
      else None
  | MediaRow m =>
      if String.eqb field "MediaModificationTimestamp" then m_MediaModificationTimestamp m
      else if String.eqb field "ModificationTimestamp" then m_ModificationTimestamp m
      else if String.eqb field "UpdatedAt" then Some (m_UpdatedAt m)
      else if String.eqb field "CreatedAt" then Some (m_CreatedAt m)
      else None
  | SyncLogRow _ => None
  end.

(** The inner [for (const field of timestampFields)] with its [break]. *)
Fixpoint first_truthy (fields : list string) (rec : row) : option Z :=
  match fields with
  | [] => None
  | f :: rest =>
      match row_get rec f with
      | Some t => Some t
      | None => first_truthy rest rec
      end
  end.

Definition latest_step (fields : list string) (latestTimestamp : option Z)
    (rec : row) : option Z :=
  match first_truthy fields rec with
  | Some t =>
      match latestTimestamp with
      | None => Some t
      | Some l => if t >? l then Some t else latestTimestamp
      end
  | None => latestTimestamp
  end.

(** The two resources of the engine: [propertySync.js] and [mediaSync.js]
    hold one copy each of the slice executor and of [findLatestTimestamp];
    the copies differ where [kind] is inspected. *)
Inductive kind := Listing | Media.

Definition timestampFields (k : kind) : list string :=
  match k with
  | Listing => ["ModificationTimestamp"; "ModifiedOn"; "UpdatedAt"; "LastModified"]
  | Media => ["MediaModificationTimestamp"; "ModificationTimestamp"; "ModifiedOn"; "UpdatedAt"]
  end.

Definition findLatestTimestamp (k : kind) (records : list row) : option Z :=
  fold_left (latest_step (timestampFields k)) records None.

(** ** The engine: state, oracles, events *)

Inductive filter :=
| FilterGt (field : string) (t : Z)               (* [field gt t] *)
| FilterRange (field : string) (lo hi : Z).       (* [field ge lo and field lt hi] *)

Record page_request := {
  rq_baseUrl : string;
  rq_token : string;
  rq_top : Z;
  rq_skip : Z;
  rq_filter : option filter
}.

Record sb_reply := { sb_data : option (list row); sb_error : option js_error }.
Record sb_single := { sel_data : option sync_log_row; sel_error : option js_error }.

Record slice_result := {
  totalFetched : Z;
  totalUpserted : Z;
  totalUnique : Z;
  latestTimestamp : option Z;
  oldestTimestamp : option feed_time;
  hitLimit : bool
}.

(** What the process did, in order.  [EvSlice] marks the return of a slice
    executor and carries what it returned. *)
Inductive event :=
| EvPage (rq : page_request) (reply : result (list raw))
| EvUpsert (table : string) (rows : list row)
| EvSlice (k : kind) (f : option filter) (r : slice_result).

Record config := {
  BATCH_SIZE : Z;                     (* [parseInt(process.env.BATCH_SIZE || 5000)] *)
  MEDIA_SYNC_START_DATE : Z;
  IDX_TOKEN : option string;
  VOW_TOKEN : option string;
  IDX_BASE_URL : string;
  VOW_BASE_URL : string;
  MEDIA_BASE_URL : string;
  flag_incremental : bool;
  flag_failFast : bool
}.

(** [if (!token)] on an environment variable. *)
Definition nonempty_token (v : option string) : option string :=
  match v with
  | Some t => if String.eqb t "" then None else Some t
  | None => None
  end.

Definition day : Z := 86400000.
Definition hour_ms : Z := 3600000.

(** [d.setDate(d.getDate() + n)] *)
Definition addDays (d n : Z) : Z := d + n * day.

(** [d.setHours(h, 0, 0, 0)] *)
Definition atHour (d h : Z) : Z := (d / day) * day + h * hour_ms.

Definition apiLimit : Z := 100000.
Definition cap_marker : string := "total exceeds 100000".

Definition len {A} (l : list A) : Z := Z.of_nat (length l).

(** The [if (!latestTimestamp || (r && r > latestTimestamp))] merge of the
    schedulers. *)
Definition merge_latest (latest r : option Z) : option Z :=
  match latest with
  | None => r
  | Some l =>
      match r with
      | Some x => if x >? l then Some x else latest
      | None => latest
      end
  end.

Record totals := { t_fetched : Z; t_upserted : Z; t_latest : option Z }.

Definition no_totals : totals := {| t_fetched := 0; t_upserted := 0; t_latest := None |}.

Definition add_counts (t : totals) (fetched upserted : Z) (latest : option Z) : totals :=
  {| t_fetched := t_fetched t + fetched;
     t_upserted := t_upserted t + upserted;
     t_latest := merge_latest (t_latest t) latest |}.

Definition add_slice (t : totals) (r : slice_result) : totals :=
  add_counts t (totalFetched r) (totalUpserted r) (latestTimestamp r).

Record run_result := {
  r_fetched : Z;
  r_upserted : Z;
  r_unique : Z;
  r_latest : option Z
}.

Section Engine.
Context {W : Type}.

(** The collaborators of the engine. *)
Record env := {
  odata_page : page_request -> W -> result (list raw) * W;   (* [fetchODataPage] *)
  sb_upsert : string -> list row -> list string -> W -> sb_reply * W;
  sb_select_sync_log : string -> W -> sb_single * W;
  clock : W -> Z;                                            (* [new Date()] *)
  toISOString : Z -> string
}.

Variable E : env.
Variable cfg : config.

(** [supabase] is the module variable of [db.js]; [sets] is the store of
    the [Set] objects allocated so far, a reference being an index. *)
Record state := {
  world : W;
  supabase : bool;
  sets : list (gset string);
  log : list event
}.

Definition with_world (s : state) (w : W) : state :=
  {| world := w; supabase := supabase s; sets := sets s; log := log s |}.

Definition emit (e : event) : M state unit :=
  modify (fun s => {| world := world s; supabase := supabase s; sets := sets s;
                      log := (log s ++ [e])%list |}).

Definition reify {A} (c : M state A) : M state (result A) :=
  fun s => let '(r, s') := c s in (Ok r, s').

Definition now : M state Z := fun s => (Ok (clock E (world s)), s).

(** [new Set()] *)
Definition new_Set : M state nat :=
  fun s => (Ok (length (sets s)),
            {| world := world s; supabase := supabase s;
               sets := (sets s ++ [∅])%list; log := log s |}).

Definition set_of (ref : nat) (s : state) : gset string := default ∅ (sets s !! ref).

Definition read_set (ref : nat) : M state (gset string) :=
  fun s => (Ok (set_of ref s), s).

Definition write_set (ref : nat) (v : gset string) : M state unit :=
  modify (fun s => {| world := world s; supabase := supabase s;
                      sets := <[ref := v]> (sets s); log := log s |}).

(** [set.size] *)
Definition set_size (ref : nat) : M state Z :=
  fun s => (Ok (Z.of_nat (size (set_of ref s))), s).

Definition fetch_page (rq : page_request) : M state (list raw) :=
  fun s => let '(r, w) := odata_page E rq (world s) in
           (r, {| world := w; supabase := supabase s; sets := sets s;
                  log := (log s ++ [EvPage rq r])%list |}).

(** *** lib/utils/db.js *)

Definition not_initialized : js_error :=
  {| message := "Database not initialized. Call initializeDatabase() first.";
     code := "" |}.

Definition upsertBatch (tableName : string) (records : list row)
    (conflictColumns : list string) : M state Z :=
  if len records =? 0 then ret 0
  else
    let! s := get in
    if negb (supabase s) then throw not_initialized
    else
      let! reply :=
        (fun s => let '(r, w) := sb_upsert E tableName records conflictColumns (world s) in
                  (Ok r, {| world := w; supabase := supabase s; sets := sets s;
                            log := (log s ++ [EvUpsert tableName records])%list |})) in
      match sb_error reply with
      | Some error => throw error
      | None =>
          let n := match sb_data reply with Some d => len d | None => 0 end in
          ret (if n =? 0 then len records else n)
      end.

Definition getSyncLog (resourceType : string) : M state (option Z) :=
  let! s := get in
  if negb (supabase s) then throw not_initialized
  else
    let! reply :=
      (fun s => let '(r, w) := sb_select_sync_log E resourceType (world s) in
                (Ok r, with_world s w)) in
    match sel_error reply with
    | Some error =>
        if negb (String.eqb (code error) "PGRST116") then throw error
        else ret (from_option lastprocessedtimestamp None (sel_data reply))
    | None => ret (from_option lastprocessedtimestamp None (sel_data reply))
    end.

Definition updateSyncLog (resourceType : string) (timestamp : option Z)
    : M state unit :=
  let! s := get in
  if negb (supabase s) then throw not_initialized
  else
    match timestamp with
    | None => ret tt
    | Some t =>
        let! n := now in
        let r := SyncLogRow {| resourcetype := resourceType;
                               lastprocessedtimestamp := Some t;
                               updatedat := n |} in
        let! reply :=
          (fun s => let '(r', w) := sb_upsert E "sync_log" [r] ["resourcetype"] (world s) in
                    (Ok r', {| world := w; supabase := supabase s; sets := sets s;
                               log := (log s ++ [EvUpsert "sync_log" [r]])%list |})) in
        match sb_error reply with
        | Some error => throw error
        | None => ret tt
        end
    end.

(** *** The slice executor
    ([fetchAndUpsertBatchesInternal], [fetchAndUpsertMediaBatchesInternal]) *)

(** The identity under which a record enters the [Set]; [None] when the
    guard [record.ListingKey && ...] (resp. [record.ResourceRecordKey &&
    record.MediaKey && ...]) fails on the key fields. *)
Definition record_key (k : kind) (r : raw) : option string :=
  match k with
  | Listing =>
      if truthy_str (ListingKey r) then ListingKey r else None
  | Media =>
      if truthy_str (ResourceRecordKey r) && truthy_str (MediaKey r)
      then Some (default "" (ResourceRecordKey r) +:+ "_" +:+ default "" (MediaKey r))
      else None
  end.

(** One turn of the [for (const record of value)] that removes
    duplicates: the [Set], [uniqueRecords] and [duplicatesInBatch]. *)
Definition dedupe_step (k : kind) (st : gset string * list raw * Z) (record : raw)
    : gset string * list raw * Z :=
  let '(seen, uniqueRecords, duplicatesInBatch) := st in
  match record_key k record with
  | Some key =>
      if bool_decide (key ∈ seen)
      then (seen, uniqueRecords, duplicatesInBatch + 1)
      else ({[key]} ∪ seen, (uniqueRecords ++ [record])%list, duplicatesInBatch)
  | None => (seen, uniqueRecords, duplicatesInBatch + 1)
  end.

Definition dedupe (k : kind) (value : list raw) (seen : gset string)
    : gset string * list raw * Z :=
  fold_left (dedupe_step k) value (seen, [], 0).

(** [record.ModificationTimestamp || record.ModifiedOn], resp.
    [record.MediaModificationTimestamp || record.ModificationTimestamp]. *)
Definition raw_timestamp (k : kind) (r : raw) : option feed_time :=
  match k with
  | Listing => or_else (ModificationTimestamp r) (ModifiedOn r)
  | Media => or_else (MediaModificationTimestamp r) (ModificationTimestamp r)
  end.

(** One turn of the loop that tracks the oldest time stamp;
    [timestamp < oldestTimestamp] compares the two strings. *)
Definition oldest_step (k : kind) (oldest : option feed_time) (r : raw)
    : option feed_time :=
  match raw_timestamp k r with
  | Some t =>
      match oldest with
      | None => Some t
      | Some o => if String.ltb (text t) (text o) then Some t else oldest
      end
  | None => oldest
  end.

Definition table_of (k : kind) : string :=
  match k with Listing => "property" | Media => "media" end.

Definition conflict_of (k : kind) : list string :=
  match k with
  | Listing => ["ListingKey"]
  | Media => ["ResourceRecordKey"; "MediaKey"]
  end.

Definition map_row (k : kind) (n : Z) (r : raw) : row :=
  match k with Listing => mapProperty n r | Media => mapMedia n r end.

Definition filter_text (f : option filter) : string :=
  match f with
  | None => "null"
  | Some (FilterGt fld t) => fld +:+ " gt " +:+ toISOString E t
  | Some (FilterRange fld lo hi) =>
      fld +:+ " ge " +:+ toISOString E lo +:+ " and " +:+ fld +:+ " lt " +:+
      toISOString E hi
  end.

(** The local variables of the executor. *)
Record locals := {
  l_fetched : Z;
  l_upserted : Z;
  l_skip : Z;
  l_latest : option Z;
  l_oldest : option feed_time;
  l_hit : bool
}.

Definition locals0 : locals :=
  {| l_fetched := 0; l_upserted := 0; l_skip := 0;
     l_latest := None; l_oldest := None; l_hit := false |}.

Definition set_hit (l : locals) : locals :=
  {| l_fetched := l_fetched l; l_upserted := l_upserted l; l_skip := l_skip l;
     l_latest := l_latest l; l_oldest := l_oldest l; l_hit := true |}.

(** The [catch (error)] of the page loop, run with the locals as they are
    when the error is thrown.  It yields the locals and [hasMoreData]. *)
Definition on_error (k : kind) (f : option filter) (failOnLimit : bool)
    (l : locals) (error : js_error) : M state (locals * bool) :=
  if includes (message error) cap_marker then
    match k with
    | Listing =>
        if failOnLimit
        then throw {| message := "API limit hit unexpectedly in date chunk: " +:+
                                 filter_text f;
                      code := "" |}
        else ret (set_hit l, false)
    | Media => ret (set_hit l, false)       (* [failOnLimit] only logs *)
    end
  else throw error.

(** The end of the [try]: "Check if we should continue". *)
Definition advance (l : locals) (n : Z) : locals * bool :=
  if n <? BATCH_SIZE cfg then (l, false)
  else
    let skip' := l_skip l + n in
    let l' := {| l_fetched := l_fetched l; l_upserted := l_upserted l;
                 l_skip := skip'; l_latest := l_latest l; l_oldest := l_oldest l;
                 l_hit := l_hit l |} in
    if skip' >=? apiLimit then (set_hit l', false) else (l', true).

(** The [try { ... } catch (error) { ... }] of one turn of the page loop. *)
Definition page_step (k : kind) (baseUrl token : string) (f : option filter)
    (seen : nat) (failOnLimit : bool) (l : locals) : M state (locals * bool) :=
  let! fetched := reify (fetch_page {| rq_baseUrl := baseUrl; rq_token := token;
                                       rq_top := BATCH_SIZE cfg; rq_skip := l_skip l;
                                       rq_filter := f |}) in
  match fetched with
  | Throw error => on_error k f failOnLimit l error
  | Ok value =>
      if len value =? 0 then ret (l, false)
      else
        let l1 := {| l_fetched := l_fetched l; l_upserted := l_upserted l;
                     l_skip := l_skip l; l_latest := l_latest l;
                     l_oldest := fold_left (oldest_step k) value (l_oldest l);
                     l_hit := l_hit l |} in
        let! before := read_set seen in
        let '(after, uniqueRecords, _) := dedupe k value before in
        run! write_set seen after in
        if len uniqueRecords >? 0 then
          let! n := now in
          let mapped := map (map_row k n) uniqueRecords in
          let! upserted := reify (upsertBatch (table_of k) mapped (conflict_of k)) in
          match upserted with
          | Throw error => on_error k f failOnLimit l1 error
          | Ok upsertedCount =>
              let batchLatestTimestamp := findLatestTimestamp k mapped in
              let latest' :=
                match batchLatestTimestamp with
                | Some b =>
                    match l_latest l1 with
                    | None => Some b
                    | Some cur => if b >? cur then Some b else l_latest l1
                    end
                | None => l_latest l1
                end in
              ret (advance {| l_fetched := l_fetched l1 + len value;
                              l_upserted := l_upserted l1 + upsertedCount;
                              l_skip := l_skip l1; l_latest := latest';
                              l_oldest := l_oldest l1; l_hit := l_hit l1 |}
                           (len value))
          end
        else ret (advance l1 (len value))
  end.

Definition out_of_fuel : js_error := {| message := "out of fuel"; code := "" |}.

(** [while (hasMoreData)]; the loop leaves after at most [apiLimit + 1]
    turns (see [slice_loop_fuel]), [fuel] bounds them. *)
Fixpoint slice_loop (fuel : nat) (k : kind) (baseUrl token : string)
    (f : option filter) (seen : nat) (failOnLimit : bool) (l : locals)
    : M state locals :=
  match fuel with
  | O => throw out_of_fuel
  | S fuel' =>
      if (l_skip l + BATCH_SIZE cfg >? apiLimit) && (apiLimit - l_skip l <=? 0)
      then ret (set_hit l)
      else
        let! r := page_step k baseUrl token f seen failOnLimit l in
        if snd r then slice_loop fuel' k baseUrl token f seen failOnLimit (fst r)
        else ret (fst r)
  end.

Definition slice_fuel : nat := Z.to_nat (apiLimit + 1).

Definition run_slice (k : kind) (baseUrl token : string) (f : option filter)
    (seen : nat) (failOnLimit : bool) : M state slice_result :=
  let! l := slice_loop slice_fuel k baseUrl token f seen failOnLimit locals0 in
  let! size := set_size seen in
  let r := {| totalFetched := l_fetched l; totalUpserted := l_upserted l;
              totalUnique := size; latestTimestamp := l_latest l;
              oldestTimestamp := l_oldest l; hitLimit := l_hit l |} in
  run! emit (EvSlice k f r) in
  ret r.

Definition fetchAndUpsertBatchesInternal := run_slice Listing.
Definition fetchAndUpsertMediaBatchesInternal := run_slice Media.

(** *** lib/sync/mediaSync.js: the schedulers *)

Definition media_field : string := "MediaModificationTimestamp".

Definition media_slice (token : string) (lo hi : Z) (seen : nat)
    : M state slice_result :=
  fetchAndUpsertMediaBatchesInternal (MEDIA_BASE_URL cfg) token
    (Some (FilterRange media_field lo hi)) seen false.

(** [for (let hour = 0; hour < 24; hour++)] of [fetchMediaDailyInRange];
    [n] counts the turns left. *)
Fixpoint hours_loop (n : nat) (token : string) (dayStart hour : Z) (seen : nat)
    (t : totals) : M state totals :=
  match n with
  | O => ret t
  | S n' =>
      let hourStart := atHour dayStart hour in
      let hourEnd := atHour dayStart (hour + 1) in
      let! hourResult := media_slice token hourStart hourEnd seen in
      hours_loop n' token dayStart (hour + 1) seen (add_slice t hourResult)
  end.

(** [while (currentDate < rangeEnd)] of [fetchMediaDailyInRange]; [n]
    bounds the days. *)
Fixpoint days_loop (n : nat) (token : string) (currentDate rangeEnd : Z)
    (seen : nat) (t : totals) : M state totals :=
  match n with
  | O => ret t
  | S n' =>
      if currentDate <? rangeEnd then
        let dayStart := currentDate in
        let dayEnd := addDays currentDate 1 in
        let! result := media_slice token dayStart dayEnd seen in
        let! t' :=
          (if hitLimit result
           then hours_loop 24 token dayStart 0 seen t
           else ret (add_slice t result)) in
        days_loop n' token (addDays currentDate 1) rangeEnd seen t'
      else ret t
  end.

Definition days_between (rangeStart rangeEnd : Z) : nat :=
  Z.to_nat ((rangeEnd - rangeStart) / day + 1).

Definition fetchMediaDailyInRange (token : string) (rangeStart rangeEnd : Z)
    (seen : nat) : M state totals :=
  days_loop (days_between rangeStart rangeEnd) token rangeStart rangeEnd seen
    no_totals.

(** [while (currentEnd > startDate && rangeChunkCount < 100)] of
    [fetchMediaInDateRange]; [n] is [100 - rangeChunkCount]. *)
Fixpoint range_loop (n : nat) (token : string) (startDate currentStart currentEnd : Z)
    (seen : nat) (t : totals) : M state totals :=
  match n with
  | O => ret t
  | S n' =>
      if currentEnd >? startDate then
        let currentStart := if currentStart <? startDate then startDate
                            else currentStart in
        let! result := media_slice token currentStart currentEnd seen in
        let! t' :=
          (if hitLimit result then
             let! dailyResults :=
               fetchMediaDailyInRange token currentStart currentEnd seen in
             ret (add_counts t (t_fetched dailyResults) (t_upserted dailyResults)
                             (t_latest dailyResults))
           else ret (add_slice t result)) in
        let currentEnd' := currentStart in
        range_loop n' token startDate (addDays currentEnd' (-7)) currentEnd' seen t'
      else ret t
  end.

Definition fetchMediaInDateRange (token : string) (startDate endDate : Z)
    (seen : nat) : M state totals :=
  range_loop 100 token startDate (addDays endDate (-7)) endDate seen no_totals.

(** The variables of the backward walk of [fetchMediaInDateChunks]. *)
Record walk := {
  w_totals : totals;
  w_startDate : Z;
  w_endDate : Z;
  w_chunkCount : Z;
  w_emptyChunks : Z;
  w_skippedWeeks : list (Z * Z * Z)       (* startDate, endDate, recordsFound *)
}.

(** "Move to next chunk" and the test on the target start date; the
    boolean tells whether the [while] goes on. *)
Definition next_chunk (w : walk) : walk * bool :=
  let endDate := w_startDate w in
  let startDate := addDays endDate (-7) in
  let w' := {| w_totals := w_totals w; w_startDate := startDate;
               w_endDate := endDate; w_chunkCount := w_chunkCount w;
               w_emptyChunks := w_emptyChunks w;
               w_skippedWeeks := w_skippedWeeks w |} in
  (w', negb (startDate <=? MEDIA_SYNC_START_DATE cfg)).

(** The body of [while (chunkCount < maxChunks)]. *)
Definition chunk_step (token : string) (seen : nat) (w : walk)
    : M state (walk * bool) :=
  let chunkCount := w_chunkCount w + 1 in
  let! result := media_slice token (w_startDate w) (w_endDate w) seen in
  let t1 := add_slice (w_totals w) result in
  if totalFetched result =? 0 then
    let emptyChunks := w_emptyChunks w + 1 in
    let w1 := {| w_totals := t1; w_startDate := w_startDate w;
                 w_endDate := w_endDate w; w_chunkCount := chunkCount;
                 w_emptyChunks := emptyChunks;
                 w_skippedWeeks := w_skippedWeeks w |} in
    if emptyChunks >=? 10 then ret (w1, false) else ret (next_chunk w1)
  else
    let w1 :=
      if hitLimit result then
        {| w_totals := add_slice t1 result;    (* "Still count the records we did fetch" *)
           w_startDate := w_startDate w; w_endDate := w_endDate w;
           w_chunkCount := chunkCount; w_emptyChunks := 0;
           w_skippedWeeks := (w_skippedWeeks w ++
                              [(w_startDate w, w_endDate w, totalFetched result)])%list |}
      else
        {| w_totals := t1; w_startDate := w_startDate w; w_endDate := w_endDate w;
           w_chunkCount := chunkCount; w_emptyChunks := 0;
           w_skippedWeeks := w_skippedWeeks w |} in
    ret (next_chunk w1).

(** [n] is [maxChunks - chunkCount]. *)
Fixpoint chunks_loop (n : nat) (token : string) (seen : nat) (w : walk)
    : M state walk :=
  match n with
  | O => ret w
  | S n' =>
      let! r := chunk_step token seen w in
      if snd r then chunks_loop n' token seen (fst r) else ret (fst r)
  end.

(** "Process skipped weeks if any": a failing week is logged and left. *)
Fixpoint skipped_loop (weeks : list (Z * Z * Z)) (token : string) (seen : nat)
    (t : totals) : M state totals :=
  match weeks with
  | [] => ret t
  | (startDate, endDate, _) :: rest =>
      let! t' :=
        try_catch
          (let! dailyResults := fetchMediaDailyInRange token startDate endDate seen in
           ret (add_counts t (t_fetched dailyResults) (t_upserted dailyResults)
                           (t_latest dailyResults)))
          (fun _ => ret t) in
      skipped_loop rest token seen t'
  end.

Definition maxChunks : nat := 500.

Definition walk0 (n : Z) : walk :=
  let endDate := addDays n 1 in
  {| w_totals := no_totals; w_startDate := addDays endDate (-7);
     w_endDate := endDate; w_chunkCount := 0; w_emptyChunks := 0;
     w_skippedWeeks := [] |}.

Definition fetchMediaInDateChunks (token : string) (seen : nat) : M state run_result :=
  let! n := now in
  let! w := chunks_loop maxChunks token seen (walk0 n) in
  let! t := skipped_loop (w_skippedWeeks w) token seen (w_totals w) in
  let! size := set_size seen in
  ret {| r_fetched := t_fetched t; r_upserted := t_upserted t;
         r_unique := size; r_latest := t_latest t |}.

Definition fetchMediaWithSmartPagination (token : string) (baseFilter : option filter)
    (incremental : bool) : M state run_result :=
  let! seenMediaKeys := new_Set in
  if negb incremental then fetchMediaInDateChunks token seenMediaKeys
  else
    let! result := fetchAndUpsertMediaBatchesInternal (MEDIA_BASE_URL cfg) token
                     baseFilter seenMediaKeys false in
    let t := {| t_fetched := totalFetched result; t_upserted := totalUpserted result;
                t_latest := latestTimestamp result |} in
    let! t' :=
      (if hitLimit result then
         let! n := now in
         let oldestFetched := default n (option_map instant (oldestTimestamp result)) in
         let! lastSync := getSyncLog "MEDIA" in
         let startFrom := default 1262304000000 lastSync in     (* 2010-01-01 *)
         if oldestFetched >? startFrom then
           let! remainingResult :=
             fetchMediaInDateRange token startFrom oldestFetched seenMediaKeys in
           ret (add_counts t (t_fetched remainingResult) (t_upserted remainingResult)
                           (t_latest remainingResult))
         else ret t
       else ret t) in
    let! size := set_size seenMediaKeys in
    ret {| r_fetched := t_fetched t'; r_upserted := t_upserted t';
           r_unique := size; r_latest := t_latest t' |}.

Definition token_missing : js_error :=
  {| message := "IDX_TOKEN not set in environment"; code := "" |}.

Definition fetchMediaRecords (incremental : bool) : M state run_result :=
  match IDX_TOKEN cfg with
  | None => throw token_missing
  | Some token =>
      if String.eqb token "" then throw token_missing
      else
        let! fi :=
          (if incremental then
             let! lastSync := getSyncLog "MEDIA" in
             match lastSync with
             | Some t => ret (Some (FilterGt media_field t), true)
             | None => ret (None, false)
             end
           else ret (None, false)) in
        fetchMediaWithSmartPagination token (fst fi) (snd fi)
  end.

(** *** sync.js *)

(** The body shared by [processProperties] and [processMedia]. *)
Definition process (label : string) (fetchFn : bool -> M state run_result)
    : M state unit :=
  try_catch
    (let! result := fetchFn (flag_incremental cfg) in
     match r_latest result with
     | Some t => try_catch (updateSyncLog label (Some t)) (fun _ => ret tt)
     | None => ret tt
     end)
    (fun err => if flag_failFast cfg then throw err else ret tt).

Definition processMedia : M state unit := process "MEDIA" fetchMediaRecords.

Definition processProperties (label : string) (fetchFn : bool -> M state run_result)
    : M state unit := process label fetchFn.

(** *** lib/sync/propertySync.js *)

Definition listing_field : string := "ModificationTimestamp".

(** The variables of the loop of [fetchOlderRecordsInChunks]. *)
Record older := {
  o_totals : totals;
  o_startDate : Z;
  o_endDate : Z;
  o_daysPerChunk : Z
}.

Definition year2000 : Z := 946684800000.

(** The body of [while (chunkCount < maxChunks)]; [expectedRecords * 1.2]
    is compared exactly ([5 * size >= 6 * expectedRecords]). *)
Definition older_step (baseUrl token : string) (seen : nat) (expectedRecords : Z)
    (o : older) : M state (older * bool) :=
  let! result := fetchAndUpsertBatchesInternal baseUrl token
                   (Some (FilterRange listing_field (o_startDate o) (o_endDate o)))
                   seen true in
  let t := add_slice (o_totals o) result in
  if totalFetched result =? 0 then
    let endDate := o_startDate o in
    let startDate := addDays endDate (- o_daysPerChunk o) in
    let o' := {| o_totals := t; o_startDate := startDate; o_endDate := endDate;
                 o_daysPerChunk := o_daysPerChunk o |} in
    ret (o', negb (startDate <? year2000))
  else
    let daysPerChunk :=
      if hitLimit result then Z.max 1 (o_daysPerChunk o / 2) else o_daysPerChunk o in
    let endDate := o_startDate o in
    let startDate := addDays endDate (- daysPerChunk) in
    let o' := {| o_totals := t; o_startDate := startDate; o_endDate := endDate;
                 o_daysPerChunk := daysPerChunk |} in
    let! size := set_size seen in
    ret (o', negb (5 * size >=? 6 * expectedRecords)).

Fixpoint older_loop (n : nat) (baseUrl token : string) (seen : nat)
    (expectedRecords : Z) (o : older) : M state older :=
  match n with
  | O => ret o
  | S n' =>
      let! r := older_step baseUrl token seen expectedRecords o in
      if snd r then older_loop n' baseUrl token seen expectedRecords (fst r)
      else ret (fst r)
  end.

Definition fetchOlderRecordsInChunks (baseUrl token : string) (beforeDate : Z)
    (seen : nat) (expectedRecords : Z) : M state totals :=
  let daysPerChunk := if expectedRecords >? 1000000 then 7
                      else if expectedRecords >? 100000 then 30 else 90 in
  let! o := older_loop 50 baseUrl token seen expectedRecords
              {| o_totals := no_totals;
                 o_startDate := addDays beforeDate (- daysPerChunk);
                 o_endDate := beforeDate; o_daysPerChunk := daysPerChunk |} in
  ret (o_totals o).

Definition fetchWithSmartPagination (baseUrl token : string)
    (baseFilter : option filter) (expectedRecords : Z) : M state run_result :=
  let! seenListingKeys := new_Set in
  let! firstResult := fetchAndUpsertBatchesInternal baseUrl token baseFilter
                        seenListingKeys false in
  let t := {| t_fetched := totalFetched firstResult;
              t_upserted := totalUpserted firstResult;
              t_latest := latestTimestamp firstResult |} in
  let! t' :=
    (if hitLimit firstResult || (t_fetched t >=? 99000) then
       let! n := now in
       let oldestDate := default n (option_map instant (oldestTimestamp firstResult)) in
       let! olderResults :=
         fetchOlderRecordsInChunks baseUrl token oldestDate seenListingKeys
           expectedRecords in
       ret (add_counts t (t_fetched olderResults) (t_upserted olderResults)
                       (t_latest olderResults))
     else ret t) in
  let! size := set_size seenListingKeys in
  ret {| r_fetched := t_fetched t'; r_upserted := t_upserted t';
         r_unique := size; r_latest := t_latest t' |}.

Definition fetchProperties (label : string) (tokenVar : option string)
    (baseUrl : string) (expectedRecords : Z) (incremental : bool)
    : M state run_result :=
  match nonempty_token tokenVar with
  | None => throw {| message := label +:+ "_TOKEN not set in environment"; code := "" |}
  | Some token =>
      let! f :=
        (if incremental then
           let! lastSync := getSyncLog label in
           ret (from_option (fun t => Some (FilterGt listing_field t)) None lastSync)
         else ret None) in
      fetchWithSmartPagination baseUrl token f expectedRecords
  end.

Definition fetchIDXProperties : bool -> M state run_result :=
  fetchProperties "IDX" (IDX_TOKEN cfg) (IDX_BASE_URL cfg) 100000.

Definition fetchVOWProperties : bool -> M state run_result :=
  fetchProperties "VOW" (VOW_TOKEN cfg) (VOW_BASE_URL cfg) 250000.

End Engine.

(** ** Predicates on records, rows and events *)

(** The conflict key of a record is complete: [ListingKey] for a listing,
    [ResourceRecordKey] and [MediaKey] for media, present and not empty. *)
Definition has_key (k : kind) (r : raw) : bool :=
  match k with
  | Listing => truthy_str (ListingKey r)
  | Media => truthy_str (ResourceRecordKey r) && truthy_str (MediaKey r)
  end.

Definition row_keyed (r : row) : Prop :=
  match r with
  | PropertyRow p => truthy_str (p_ListingKey p) = true
  | MediaRow m => truthy_str (m_ResourceRecordKey m) = true /\
                  truthy_str (m_MediaKey m) = true
  | SyncLogRow _ => True
  end.

(** Every row handed to the upserter carries its key. *)
Definition upserts_keyed (e : event) : Prop :=
  match e with
  | EvUpsert _ rows => Forall row_keyed rows
  | _ => True
  end.



(** The number of records of a page whose key is incomplete. *)
Definition count_keyless (k : kind) (value : list raw) : Z :=
  len (List.filter (fun r => negb (has_key k r)) value).

(** ** A scripted upstream and database

    A small world to run the engine in.  The upstream ([mock]) holds a list
    of records, honours the [$filter], [$top] and [$skip] of a request and
    refuses to page past its cap; the wall clock stands still.  The world
    that changes is the [sync_log] table; the database answers an upsert
    with the rows written. *)
Module Mock.

Record mock := {
  feed : list raw;
  feed_cap : Z;                       (* stands for the 100,000 of the upstream *)
  time : Z
}.

Definition field_of (fld : string) (r : raw) : option Z :=
  if String.eqb fld "MediaModificationTimestamp"
  then option_map instant (MediaModificationTimestamp r)
  else if String.eqb fld "ModificationTimestamp"
  then option_map instant (ModificationTimestamp r)
  else None.

Definition matches (f : option filter) (r : raw) : bool :=
  match f with
  | None => true
  | Some (FilterGt fld t) =>
      match field_of fld r with Some x => t <? x | None => false end
  | Some (FilterRange fld lo hi) =>
      match field_of fld r with Some x => (lo <=? x) && (x <? hi) | None => false end
  end.

Definition cap_error : js_error :=
  {| message := "HTTP 400 Bad Request for https://query.ampre.ca/odata/Media" +:+
                " - The requested page is out of range: total exceeds 100000";
     code := "" |}.

Definition page (m : mock) (rq : page_request) (w : gmap string Z)
    : result (list raw) * gmap string Z :=
  if rq_skip rq + rq_top rq >? feed_cap m then (Throw cap_error, w)
  else (Ok (take (Z.to_nat (rq_top rq))
                 (drop (Z.to_nat (rq_skip rq))
                       (List.filter (matches (rq_filter rq)) (feed m)))),
        w).

Definition store (w : gmap string Z) (r : row) : gmap string Z :=
  match r with
  | SyncLogRow l =>
      match lastprocessedtimestamp l with
      | Some t => <[resourcetype l := t]> w
      | None => w
      end
  | _ => w
  end.

Definition upsert (table : string) (rows : list row) (conflict : list string)
    (w : gmap string Z) : sb_reply * gmap string Z :=
  ({| sb_data := Some rows; sb_error := None |}, fold_left store rows w).

Definition no_rows : js_error :=
  {| message := "JSON object requested, multiple (or no) rows returned";
     code := "PGRST116" |}.

Definition select (resourceType : string) (w : gmap string Z)
    : sb_single * gmap string Z :=
  match w !! resourceType with
  | Some t => ({| sel_data := Some {| resourcetype := resourceType;
                                      lastprocessedtimestamp := Some t;
                                      updatedat := 0 |};
                  sel_error := None |}, w)
  | None => ({| sel_data := None; sel_error := Some no_rows |}, w)
  end.

Definition E (m : mock) : @env (gmap string Z) :=
  {| odata_page := page m; sb_upsert := upsert; sb_select_sync_log := select;
     clock := fun _ => time m; toISOString := string_of_Z |}.

(** The process after [initializeDatabase], [sync_log] holding [w]. *)
Definition start (w : gmap string Z) : @state (gmap string Z) :=
  {| world := w; supabase := true; sets := []; log := [] |}.

(** The same, inside a run that has allocated its [Set]. *)
Definition started (w : gmap string Z) : @state (gmap string Z) :=
  {| world := w; supabase := true; sets := [∅]; log := [] |}.

(** [2024-01-01T00:00:00Z], the default of [MEDIA_SYNC_START_DATE]. *)
Definition jan1_2024 : Z := 1704067200000.

Definition cfg (batch : Z) (incremental : bool) : config :=
  {| BATCH_SIZE := batch; MEDIA_SYNC_START_DATE := jan1_2024;
     IDX_TOKEN := Some "idx-token"; VOW_TOKEN := Some "vow-token";
     IDX_BASE_URL := "https://query.ampre.ca/odata/Property";
     VOW_BASE_URL := "https://query.ampre.ca/odata/Property";
     MEDIA_BASE_URL := "https://query.ampre.ca/odata/Media";
     flag_incremental := incremental; flag_failFast := false |}.

(** The scripted upstream writes an instant as [toISOString] of [E] does,
    one text for one instant; the instants of a scenario all have the same
    number of digits, so that their texts are ordered as their instants are,
    like ISO strings of one precision. *)
Definition written (t : Z) : feed_time := {| instant := t; text := string_of_Z t |}.

Definition media (rrk mk : string) (t : Z) : raw :=
  {| ListingKey := None; ResourceRecordKey := Some rrk; MediaKey := Some mk;
     ModificationTimestamp := None; MediaModificationTimestamp := Some (written t);
     ModifiedOn := None; CreatedAt := None |}.

(** A media record that arrives without its [MediaKey]. *)
Definition keyless (rrk : string) (t : Z) : raw :=
  {| ListingKey := None; ResourceRecordKey := Some rrk; MediaKey := None;
     ModificationTimestamp := None; MediaModificationTimestamp := Some (written t);
     ModifiedOn := None; CreatedAt := None |}.

(** The windows asked of the upstream, in order. *)
Definition windows (l : list event) : list (Z * Z) :=
  omap (fun e => match e with
                 | EvPage rq _ =>
                     match rq_filter rq with
                     | Some (FilterRange _ lo hi) => Some (lo, hi)
                     | _ => None
                     end
                 | _ => None
                 end) l.

Definition slices (l : list event) : list slice_result :=
  omap (fun e => match e with EvSlice _ _ r => Some r | _ => None end) l.

Definition rows_sent (table : string) (l : list event) : list row :=
  concat (omap (fun e => match e with
                         | EvUpsert t rows => if String.eqb t table then Some rows else None
                         | _ => None
                         end) l).

(** The records of the pages the upstream returned. *)
Definition returned (l : list event) : list raw :=
  concat (omap (fun e => match e with EvPage _ (Ok v) => Some v | _ => None end) l).

Definition sumZ (l : list Z) : Z := fold_right Z.add 0 l.

Definition covered (t : Z) (ws : list (Z * Z)) : bool :=
  existsb (fun w => (fst w <=? t) && (t <? snd w)) ws.

End Mock.

(** ** Scenarios *)
Module Scenario.
Import FetchFeed Mock.

(** An endpoint that answers every request with [404 Not Found]. *)
Definition not_found : response :=
  {| status := 404; statusText := "Not Found";
     body_text := Some "Resource not found";
     body_json := Throw {| message := "Unexpected token R in JSON at position 0";
                           code := "" |} |}.

Definition always_404 : @net_env unit :=
  {| net_fetch := fun _ w => (Responded not_found, w);
     net_elapse := fun _ w => w |}.

Definition fresh : @net_state unit := {| net_world := tt; net_log := [] |}.

Definition run_404 : result json * @net_state unit :=
  fetchWithRetry always_404 (new_ApiClient "token") "https://query.ampre.ca/odata/Media" fresh.

(** An endpoint whose body has a [value] member that is not an array. *)
Definition odd_body : json := JObj [("value", JStr "unavailable")].

Definition odd_endpoint : @net_env unit :=
  {| net_fetch := fun _ w =>
       (Responded {| status := 200; statusText := "OK"; body_text := None;
                     body_json := Ok odd_body |}, w);
     net_elapse := fun _ w => w |}.

Definition media_args : page_args :=
  {| baseUrl := "https://query.ampre.ca/odata/Media"; page_token := "token";
     top := 5000; next := None; skip := Some 0; filter := None; orderby := None |}.

Definition run_odd : result FetchFeed.page * @net_state unit :=
  fetchODataPage odd_endpoint true false media_args fresh.

(** [updateSyncLog] before [initializeDatabase]. *)
Definition idle : mock := {| feed := []; feed_cap := 100000; time := jan1_2024 |}.

Definition uninitialized : @state (gmap string Z) :=
  {| world := ∅; supabase := false; sets := []; log := [] |}.

(** A full media run on the 9th of January 2024: the upstream holds one
    record, stamped on the 2nd. *)
Definition early_record : raw := media "W100" "M1" (jan1_2024 + 1 * day).

Definition short_feed : mock :=
  {| feed := [early_record]; feed_cap := 100000; time := jan1_2024 + 8 * day |}.

Definition run_short : result run_result * @state (gmap string Z) :=
  fetchMediaRecords (E short_feed) (cfg 5000 false) false (start ∅).

(** A full media run on the 7th of January 2024 with pages of two records
    against an upstream that refuses to page past three: the week holds
    three records, one on each of its first three days. *)
Definition hot_week : mock :=
  {| feed := [media "W100" "M1" (jan1_2024 + hour_ms);
              media "W200" "M1" (jan1_2024 + 1 * day + hour_ms);
              media "W300" "M1" (jan1_2024 + 2 * day + hour_ms)];
     feed_cap := 3; time := jan1_2024 + 6 * day |}.

Definition run_hot : result run_result * @state (gmap string Z) :=
  fetchMediaRecords (E hot_week) (cfg 2 false) false (start ∅).

(** A full media run two hundred days after the floor: each of the ten most
    recent weeks holds one record that lacks its [MediaKey], the eleventh
    holds a complete record. *)
Definition clock_200 : Z := jan1_2024 + 200 * day.

Definition eleventh : raw := media "W200" "M1" (clock_200 + day - 77 * day + day).

Definition keyless_weeks : mock :=
  {| feed := (map (fun k => keyless "W100" (clock_200 + day - 7 * k * day + day))
                  [1; 2; 3; 4; 5; 6; 7; 8; 9; 10] ++ [eleventh])%list;
     feed_cap := 100000; time := clock_200 |}.

Definition run_keyless : result run_result * @state (gmap string Z) :=
  fetchMediaRecords (E keyless_weeks) (cfg 5000 false) false (start ∅).

Definition first_chunk : result (walk * bool) * @state (gmap string Z) :=
  chunk_step (E keyless_weeks) (cfg 5000 false) "idx-token" 0%nat (walk0 clock_200)
    (started ∅).




(** A slice run with [failOnLimit = true] whose first page is refused. *)
Definition capped : mock :=
  {| feed := [media "W100" "M1" (jan1_2024 + 3 * day)];
     feed_cap := 1; time := jan1_2024 + 6 * day |}.

Definition run_capped_media : result slice_result * @state (gmap string Z) :=
  fetchAndUpsertMediaBatchesInternal (E capped) (cfg 2 false)
    "https://query.ampre.ca/odata/Media" "idx-token" None 0%nat true (started ∅).

Definition run_capped_listing : result slice_result * @state (gmap string Z) :=
  fetchAndUpsertBatchesInternal (E capped) (cfg 2 false)
    "https://query.ampre.ca/odata/Property" "idx-token" None 0%nat true (started ∅).

(** An incremental media run from a checkpoint on the 3rd of January that
    finds three newer records, one of them without its [MediaKey]. *)
Definition fresh_feed : mock :=
  {| feed := [media "W100" "M1" (jan1_2024 + 3 * day);
              keyless "W200" (jan1_2024 + 4 * day);
              media "W300" "M1" (jan1_2024 + 5 * day)];
     feed_cap := 100000; time := jan1_2024 + 6 * day |}.

Definition fresh_log : gmap string Z := {[ "MEDIA" := jan1_2024 + 2 * day ]}.


(** An endpoint that refuses every request because [$top + $skip] is over
    the cap. *)
Definition over_cap : response :=
  {| status := 400; statusText := "Bad Request";
     body_text := Some "The sum of top and skip total exceeds 100000";
     body_json := Throw {| message := "Unexpected token T in JSON at position 0";
                           code := "" |} |}.

Definition always_over_cap : @net_env unit :=
  {| net_fetch := fun _ w => (Responded over_cap, w);
     net_elapse := fun _ w => w |}.

(** A listing. *)
Definition home (key : string) (t : Z) : raw :=
  {| ListingKey := Some key; ResourceRecordKey := None; MediaKey := None;
     ModificationTimestamp := Some (written t); MediaModificationTimestamp := None;
     ModifiedOn := None; CreatedAt := None |}.

(** A full IDX run over three records, the third a later version of the
    first. *)
Definition listings : mock :=
  {| feed := [home "X100" (jan1_2024 + 1 * day); home "X200" (jan1_2024 + 2 * day);
              home "X100" (jan1_2024 + 3 * day)];
     feed_cap := 100000; time := jan1_2024 + 6 * day |}.

Definition run_listings : result run_result * @state (gmap string Z) :=
  fetchIDXProperties (E listings) (cfg 5000 false) false (start ∅).

(** Older listings asked for from two hundred days after the year 2000:
    two listings in the ninety days before, one in the ninety days before
    those. *)
Definition old_listings : mock :=
  {| feed := [home "X100" (year2000 + 150 * day); home "X200" (year2000 + 50 * day);
              home "X300" (year2000 + 160 * day)];
     feed_cap := 100000; time := jan1_2024 |}.

Definition run_older : result totals * @state (gmap string Z) :=
  fetchOlderRecordsInChunks (E old_listings) (cfg 5000 false)
    "https://query.ampre.ca/odata/Property" "idx-token" (year2000 + 200 * day) 0%nat
    100000 (started ∅).

(** One media slice without a filter. *)
Definition run_one_slice : result slice_result * @state (gmap string Z) :=
  fetchAndUpsertMediaBatchesInternal (E short_feed) (cfg 5000 false)
    "https://query.ampre.ca/odata/Media" "idx-token" None 0%nat false (started ∅).

(** The weekly walk at noon of the 21st of January 2024, the upstream
    holding one record in each of the three weeks before. *)
Definition three_weeks : mock :=
  {| feed := [media "W100" "M1" (jan1_2024 + 1 * day);
              media "W200" "M1" (jan1_2024 + 8 * day);
              media "W300" "M1" (jan1_2024 + 15 * day)];
     feed_cap := 100000; time := jan1_2024 + 20 * day + 12 * hour_ms |}.

Definition run_walk : result run_result * @state (gmap string Z) :=
  fetchMediaInDateChunks (E three_weeks) (cfg 5000 false) "idx-token" 0%nat (started ∅).

(** The first two days of the hot week, day by day, and the hours of a day
    that starts at one o'clock. *)
Definition run_days : result totals * @state (gmap string Z) :=
  fetchMediaDailyInRange (E hot_week) (cfg 2 false) "idx-token" jan1_2024
    (jan1_2024 + 2 * day) 0%nat (started ∅).

Definition run_hours : result totals * @state (gmap string Z) :=
  hours_loop (E hot_week) (cfg 2 false) 24 "idx-token" (jan1_2024 + hour_ms) 0 0%nat
    no_totals (started ∅).

(** The catch-up over the first three days of the hot week. *)
Definition run_catch_up : result totals * @state (gmap string Z) :=
  fetchMediaInDateRange (E hot_week) (cfg 2 false) "idx-token" jan1_2024
    (jan1_2024 + 3 * day) 0%nat (started ∅).

End Scenario.

(** ** Time columns and keys, as the engine reads them *)

(** The time column [findLatestTimestamp] finds on a mapped row before it
    falls back on [UpdatedAt]: [mapProperty] keeps [ModificationTimestamp],
    [mapMedia] keeps [MediaModificationTimestamp] and
    [ModificationTimestamp]; neither writes a [ModifiedOn]. *)
Definition stamp (k : kind) (r : raw) : option Z :=
  match k with
  | Listing => option_map instant (ModificationTimestamp r)
  | Media =>
      option_map instant (or_else (MediaModificationTimestamp r) (ModificationTimestamp r))
  end.

(** The string holds no underscore. *)
Definition no_underscore (s : string) : bool := negb (includes s "_").

(** The greatest of a list of optional instants, as the schedulers merge
    them. *)
Definition latest_of (l : list (option Z)) : option Z := fold_left merge_latest l None.

(** ** The command line ([sync.js]) and the database handshake ([db.js]) *)
Section Main.
Context {W : Type}.
Variable E : @env W.
Variable cfg : config.

(** [SUPABASE_URL], [SUPABASE_SERVICE_ROLE_KEY], and the connection test
    [supabase.from('property').select('*').limit(1)], which rejects, or
    answers with an error or with none. *)
Record db_setup := {
  SUPABASE_URL : option string;
  SUPABASE_SERVICE_ROLE_KEY : option string;
  connection_test : W -> result (option js_error) * W
}.

Definition supabase_env_missing : js_error :=
  {| message := "SUPABASE_URL or SUPABASE_SERVICE_ROLE_KEY not set in environment";
     code := "" |}.

Definition set_supabase (b : bool) : M (@state W) unit :=
  modify (fun s => {| world := world s; supabase := b; sets := sets s; log := log s |}).

(** [initializeDatabase]: the client is created once and kept even when
    the connection test then fails. *)
Definition initializeDatabase (d : db_setup) : M (@state W) unit :=
  let! s := get in
  run! (if supabase s then ret tt
        else
          match nonempty_token (SUPABASE_URL d), nonempty_token (SUPABASE_SERVICE_ROLE_KEY d) with
          | Some _, Some _ => set_supabase true
          | _, _ => throw supabase_env_missing
          end) in
  let! error := (fun s => let '(e, w) := connection_test d (world s) in
                          (e, with_world s w)) in
  match error with
  | Some e =>
      throw {| message := if String.eqb (message e) ""
                          then "Supabase returned an unknown error" else message e;
               code := "" |}
  | None => ret tt
  end.

(** The flags [--idx-only], [--vow-only], [--media-only]; [--incremental]
    and [--fail-fast] are [flag_incremental] and [flag_failFast]. *)
Record only_flags := { idxOnly : bool; vowOnly : bool; mediaOnly : bool }.

Definition getMode (f : only_flags) : string :=
  if idxOnly f then "IDX Only"
  else if vowOnly f then "VOW Only"
  else if mediaOnly f then "Media Only"
  else "Full Sync (IDX + VOW + Media)".

(** [main]; the value is the status [process.exit] is called with, [None]
    when [main] returns and the process ends by itself. *)
Definition main (d : db_setup) (f : only_flags) : M (@state W) (option Z) :=
  try_catch
    (run! initializeDatabase d in
     run! (if negb (vowOnly f) && negb (mediaOnly f)
           then processProperties E cfg "IDX" (fetchIDXProperties E cfg) else ret tt) in
     run! (if negb (idxOnly f) && negb (mediaOnly f)
           then processProperties E cfg "VOW" (fetchVOWProperties E cfg) else ret tt) in
     run! (if negb (idxOnly f) && negb (vowOnly f)
           then processMedia E cfg else ret tt) in
     ret None)
    (fun err => if flag_failFast cfg then ret (Some 1) else ret None).

End Main.

(** ** What a log holds *)

(** The events a run of [c] from [s] adds to the log. *)
Definition during {W A} (c : M (@state W) A) (s : state) : list event :=
  drop (length (log s)) (log (snd (c s))).

(** The page requests made, in order. *)
Definition page_requests (l : list event) : list page_request :=
  omap (fun e => match e with EvPage rq _ => Some rq | _ => None end) l.

(** The slices that returned, in order: kind, filter and result. *)
Definition slice_returns (l : list event) : list (kind * option filter * slice_result) :=
  omap (fun e => match e with EvSlice k f r => Some (k, f, r) | _ => None end) l.

(** The writes to [sync_log], in order. *)
Definition checkpoint_writes (l : list event) : list (list row) :=
  omap (fun e => match e with
                 | EvUpsert t rows => if String.eqb t "sync_log" then Some rows else None
                 | _ => None
                 end) l.

(** The event is no write to [sync_log]. *)
Definition no_checkpoint_write (e : event) : Prop :=
  match e with
  | EvUpsert t _ => t <> "sync_log"
  | _ => True
  end.

(** The window of a range filter. *)
Definition window_of (f : option filter) : option (Z * Z) :=
  match f with
  | Some (FilterRange _ lo hi) => Some (lo, hi)
  | _ => None
  end.

(** [n] windows of [width] going back in time, the first one ending at
    [hi], each one ending where the one before starts. *)
Fixpoint windows_back (n : nat) (width hi : Z) : list (Z * Z) :=
  match n with
  | O => []
  | S n' => (hi - width, hi) :: windows_back n' width (hi - width)
  end.

(** The pages asked for, in order, each with what came back. *)
Definition pages (l : list event) : list (page_request * result (list raw)) :=
  omap (fun e => match e with EvPage rq reply => Some (rq, reply) | _ => None end) l.

(** Consecutive offsets are at least [B] apart. *)
Fixpoint stepped (B : Z) (skips : list Z) : Prop :=
  match skips with
  | x :: rest => match rest with y :: _ => x + B <= y | [] => True end /\ stepped B rest
  | [] => True
  end.

(** The return of a media slice over the window [lo, hi). *)
Definition slot (lo hi : Z) (r : slice_result) : kind * option filter * slice_result :=
  (Media, Some (FilterRange media_field lo hi), r).

(** The windows end where the one before starts, the first one at [hi],
    and none is empty. *)
Fixpoint back_to_back (hi : Z) (ws : list (Z * Z)) : Prop :=
  match ws with
  | [] => True
  | w :: rest => snd w = hi /\ fst w < snd w /\ back_to_back (fst w) rest
  end.

(** [emptyChunks] after the slices [rs], from [e]: the number of slices at
    the end of [rs] that fetched nothing, plus [e] if none fetched
    anything. *)
Definition empty_run (rs : list slice_result) (e : Z) : Z :=
  fold_left (fun e r => if totalFetched r =? 0 then e + 1 else 0) rs e.

(** The week is not put on the list of skipped weeks. *)
Definition unsaturated (r : slice_result) : Prop :=
  totalFetched r = 0 \/ hitLimit r = false.

(** The hourly slices of a day, from [hour] on. *)
Fixpoint hour_slots (dayStart hour : Z) (rs : list slice_result)
    : list (kind * option filter * slice_result) :=
  match rs with
  | [] => []
  | r :: rest =>
      slot (atHour dayStart hour) (atHour dayStart (hour + 1)) r ::
      hour_slots dayStart (hour + 1) rest
  end.

(** The slices of a run of days from [cur] on: each day's own slice, then
    its hourly slices if there are any. *)
Fixpoint day_slots (cur : Z) (ds : list (slice_result * list slice_result))
    : list (kind * option filter * slice_result) :=
  match ds with
  | [] => []
  | d :: rest =>
      (slot cur (addDays cur 1) (fst d) :: hour_slots cur 0 (snd d) ++
       day_slots (addDays cur 1) rest)%list
  end.

(** The slices of a day that enter the totals. *)
Definition day_counted (d : slice_result * list slice_result) : list slice_result :=
  if hitLimit (fst d) then snd d else [fst d].

(** The number of turns of [while (currentDate < rangeEnd)] when
    [currentDate] advances by a day: the days from [cur] needed to reach
    [rangeEnd], a started day counting as one. *)
Definition days_needed (cur rangeEnd : Z) : Z :=
  if cur <? rangeEnd then (rangeEnd - cur - 1) / day + 1 else 0.

(** What a week of [fetchMediaInDateRange] did: its window, the result of
    its slice, and the days of its drill-down. *)
Record week_run := {
  wk_lo : Z;
  wk_hi : Z;
  wk_result : slice_result;
  wk_days : list (slice_result * list slice_result)
}.

Fixpoint week_slots (ws : list week_run) : list (kind * option filter * slice_result) :=
  match ws with
  | [] => []
  | w :: rest =>
      (slot (wk_lo w) (wk_hi w) (wk_result w) :: day_slots (wk_lo w) (wk_days w) ++
       week_slots rest)%list
  end.

(** The slices of a week that enter the totals. *)
Definition week_counted (w : week_run) : list slice_result :=
  if hitLimit (wk_result w) then concat (map day_counted (wk_days w)) else [wk_result w].

(** A week is drilled down, day by day, exactly when its slice hit the
    limit. *)
Definition week_ok (w : week_run) : Prop :=
  if hitLimit (wk_result w)
  then len (wk_days w) = days_needed (wk_lo w) (wk_hi w) /\
       Forall (fun d => length (snd d) = if hitLimit (fst d) then 24%nat else 0%nat)
              (wk_days w)
  else wk_days w = [].

(** The computation only adds to the log. *)
Definition grows {W A} (c : M (@state W) A) : Prop :=
  forall s, exists tr, log (snd (c s)) = (log s ++ tr)%list.

(** * Properties *)

(** ** The page fetcher *)
Section FetchFeedFacts.
Import FetchFeed.
Context {W : Type} (env : @net_env W).

Lemma retry_loop_unfold c url n attempt lastError s :
  retry_loop env c url (S n) attempt lastError s =
  let rq := {| req_url := url; req_headers := headers_of c |} in
  let '(o, w) := net_fetch env rq (net_world s) in
  let s1 := {| net_world := w; net_log := (net_log s ++ [EvRequest rq])%list |} in
  match settle url o with
  | Ok data => (Ok data, s1)
  | Throw error =>
      retry_loop env c url n (attempt + 1) (Some error)
        (if attempt <? retryAttempts c
         then {| net_world := net_elapse env (retryDelay c * 2 ^ (attempt - 1)) w;
                 net_log := (net_log s1 ++ [EvSleep (retryDelay c * 2 ^ (attempt - 1))])%list |}
         else s1)
  end.
Proof.
  cbn [retry_loop]. unfold bind, do_fetch.
  destruct (net_fetch env _ (net_world s)) as [o w]. cbn.
  destruct (settle url o); [reflexivity|].
  destruct (attempt <? retryAttempts c); reflexivity.
Qed.

Lemma non_2xx_fails url r :
  response_ok r = false -> exists e, settle url (Responded r) = Throw e.
Proof. intros H. cbn. rewrite H. eauto. Qed.

(** C3, as the code has it: [fetchWithRetry] makes at most three
    attempts; whenever an attempt fails, whatever the failure (a rejected
    [fetch], a body that is not JSON, a response outside 2xx, the 4xx
    included), it sleeps 500 ms after the first and 1000 ms after the
    second failure and tries again; the first success is returned, and after
    the third failure the last error is thrown. *)
Theorem fetchWithRetry_retries_every_failure :
  (forall tok url s,
     fetchWithRetry env (new_ApiClient tok) url s =
     let rq := request_of tok url in
     let '(o1, w1) := net_fetch env rq (net_world s) in
     match settle url o1 with
     | Ok data => (Ok data, logged s w1 [EvRequest rq])
     | Throw _ =>
         let '(o2, w2) := net_fetch env rq (net_elapse env 500 w1) in
         match settle url o2 with
         | Ok data => (Ok data, logged s w2 [EvRequest rq; EvSleep 500; EvRequest rq])
         | Throw _ =>
             let '(o3, w3) := net_fetch env rq (net_elapse env 1000 w2) in
             (settle url o3,
              logged s w3 [EvRequest rq; EvSleep 500; EvRequest rq;
                           EvSleep 1000; EvRequest rq])
         end
     end) /\
  (forall url r, 400 <= status r <= 499 ->
                 exists e, settle url (Responded r) = Throw e).
Proof.
  split.
  - intros tok url s. unfold fetchWithRetry.
    change (Z.to_nat (retryAttempts (new_ApiClient tok))) with 3%nat.
    rewrite retry_loop_unfold. cbn zeta.
    change {| req_url := url; req_headers := headers_of (new_ApiClient tok) |}
      with (request_of tok url).
    destruct (net_fetch env (request_of tok url) (net_world s)) as [o1 w1].
    destruct (settle url o1) as [d1|e1]; [reflexivity|].
    rewrite retry_loop_unfold. cbn zeta.
    change {| req_url := url; req_headers := headers_of (new_ApiClient tok) |}
      with (request_of tok url).
    change (1 <? retryAttempts (new_ApiClient tok)) with true.
    change (retryDelay (new_ApiClient tok) * 2 ^ (1 - 1)) with 500.
    cbn [net_world net_log].
    destruct (net_fetch env (request_of tok url) (net_elapse env 500 w1)) as [o2 w2].
    destruct (settle url o2) as [d2|e2].
    { unfold logged. rewrite <- !app_assoc. reflexivity. }
    rewrite retry_loop_unfold. cbn zeta.
    change {| req_url := url; req_headers := headers_of (new_ApiClient tok) |}
      with (request_of tok url).
    change (1 + 1 <? retryAttempts (new_ApiClient tok)) with true.
    change (retryDelay (new_ApiClient tok) * 2 ^ (1 + 1 - 1)) with 1000.
    cbn [net_world net_log].
    destruct (net_fetch env (request_of tok url) (net_elapse env 1000 w2)) as [o3 w3].
    destruct (settle url o3) as [d3|e3].
    { unfold logged. rewrite <- !app_assoc. reflexivity. }
    change (1 + 1 + 1 <? retryAttempts (new_ApiClient tok)) with false.
    cbn. unfold logged. rewrite <- !app_assoc. reflexivity.
  - intros url r Hr. apply non_2xx_fails. unfold response_ok. lia.
Qed.

End FetchFeedFacts.

Lemma fetchWithRetry_retries_every_failure_witness :
  400 <= FetchFeed.status Scenario.not_found <= 499 /\
  exists e, FetchFeed.settle "https://query.ampre.ca/odata/Media"
              (FetchFeed.Responded Scenario.not_found) = Throw e.
Proof.
  split; [cbn; lia|].
  apply (proj2 (fetchWithRetry_retries_every_failure Scenario.always_404)).
  cbn. lia.
Defined.

(** C3, as stated, fails: a [404] (a 4xx other than 429) is retried twice,
    after 500 ms and after 1000 ms, before the error is thrown. *)
Lemma not_found_is_retried :
  FetchFeed.status Scenario.not_found = 404 /\
  length (FetchFeed.requests (FetchFeed.net_log (snd Scenario.run_404))) = 3%nat /\
  FetchFeed.sleeps (FetchFeed.net_log (snd Scenario.run_404)) = [500; 1000] /\
  exists e, fst Scenario.run_404 = Throw e.
Proof. repeat split; try reflexivity. eexists. reflexivity. Qed.

Section PageFacts.
Import FetchFeed.
Context {W : Type} (env : @net_env W).

(** C10, as the code has it: on a parsed body the fetcher returns as
    [value] the [value] member of the body when that member is truthy,
    whatever its JSON type (so an array stays the array it is), and the
    empty array when the member is absent or falsy; [next] and [count] are
    [null] when their members are absent, and a count of 0 is returned as
    [null].  The one body it does not return on is [null] with
    [DEBUG=true], where [Object.keys] throws. *)
Theorem fetchODataPage_defaults enable_orderby debug a s data s' :
  fetchWithRetry env (new_ApiClient (page_token a)) (final_url enable_orderby a) s
    = (Ok data, s') ->
  (debug = true /\ data = JNull /\
   fetchODataPage env enable_orderby debug a s = (Throw type_error_keys, s')) \/
  (exists p,
     fetchODataPage env enable_orderby debug a s = (Ok p, s') /\
     (opt_get data "value" = None -> value p = JArr []) /\
     (forall v, opt_get data "value" = Some v -> truthy v = false -> value p = JArr []) /\
     (forall v, opt_get data "value" = Some v -> truthy v = true -> value p = v) /\
     (forall l, opt_get data "value" = Some (JArr l) -> value p = JArr l) /\
     (opt_get data "@odata.nextLink" = None -> page_next p = JNull) /\
     (opt_get data "@odata.count" = None -> count p = JNull) /\
     (opt_get data "@odata.count" = Some (JNum 0) -> count p = JNull)).
Proof.
  intros Hfetch. unfold fetchODataPage, bind. rewrite Hfetch.
  destruct debug, data; cbn;
    try (left; repeat split; reflexivity);
    right; eexists; (split; [reflexivity|]);
    repeat split; intros; unfold js_or; cbn in *; try discriminate;
    repeat match goal with
           | H : assoc ?k ?f = _ |- _ => rewrite H; cbn
           | H : truthy ?v = _ |- _ => rewrite H; cbn
           end; reflexivity.
Qed.

End PageFacts.

Lemma fetchODataPage_defaults_witness :
  exists p, fst (FetchFeed.fetchODataPage Scenario.odd_endpoint true false
                   Scenario.media_args Scenario.fresh) = Ok p /\
            FetchFeed.page_next p = FetchFeed.JNull /\
            FetchFeed.count p = FetchFeed.JNull.
Proof.
  destruct (fetchODataPage_defaults Scenario.odd_endpoint true false
              Scenario.media_args Scenario.fresh Scenario.odd_body
              (FetchFeed.logged Scenario.fresh tt
                 [FetchFeed.EvRequest
                    (FetchFeed.request_of "token"
                       (FetchFeed.final_url true Scenario.media_args))]) eq_refl)
    as [(H & _)|(p & Hp & _ & _ & _ & _ & Hn & Hc & _)].
  - discriminate H.
  - exists p. rewrite Hp. split; [reflexivity|]. split; [apply Hn|apply Hc]; reflexivity.
Defined.

(** C10, as stated, fails: the body [{"value": "unavailable"}] parses, and
    the [value] the fetcher returns for it is that string, not an array. *)
Lemma value_is_not_always_an_array :
  exists p, fst Scenario.run_odd = Ok p /\
            FetchFeed.value p = FetchFeed.JStr "unavailable" /\
            FetchFeed.is_array (FetchFeed.value p) = false.
Proof. eexists. repeat split. Qed.

(** ** The checkpoint store *)

(** C8, as the code has it: with an empty timestamp [updateSyncLog] leaves
    the world, the sets and the log as they are; it returns when the
    database client is initialised and throws "Database not initialized"
    when it is not, the test on the client coming first. *)
Theorem updateSyncLog_empty_timestamp {W : Type} (E : @env W) (resourceType : string)
    (s : state) :
  updateSyncLog E resourceType None s =
  (if supabase s then Ok tt else Throw not_initialized, s).
Proof. unfold updateSyncLog, bind, get. cbn. destruct (supabase s); reflexivity. Qed.

(** C8, as stated, fails: before [initializeDatabase] the call raises. *)
Lemma updateSyncLog_raises_when_uninitialized :
  updateSyncLog (Mock.E Scenario.idle) "MEDIA" None Scenario.uninitialized =
  (Throw not_initialized, Scenario.uninitialized).
Proof. reflexivity. Qed.

(** ** The log only grows *)
Section Growth.
Context {W : Type} (E : @env W) (cfg : config).

Lemma grows_ret {A} (a : A) : grows (W := W) (ret a).
Proof. intros s. exists []. cbn. rewrite app_nil_r. reflexivity. Qed.

Lemma grows_throw {A} e : grows (W := W) (A := A) (throw e).
Proof. intros s. exists []. cbn. rewrite app_nil_r. reflexivity. Qed.

Lemma grows_bind {A B} (c : M (@state W) A) (k : A -> M (@state W) B) :
  grows c -> (forall a, grows (k a)) -> grows (bind c k).
Proof.
  intros Hc Hk s. unfold bind. destruct (Hc s) as (tr & Htr).
  destruct (c s) as [[a|e] s1]; cbn [snd] in *; [|exists tr; exact Htr].
  destruct (Hk a s1) as (tr' & Htr'). exists (tr ++ tr')%list.
  rewrite Htr', Htr, <- app_assoc. reflexivity.
Qed.

Lemma grows_try {A} (c : M (@state W) A) h :
  grows c -> (forall e, grows (h e)) -> grows (try_catch c h).
Proof.
  intros Hc Hh s. unfold try_catch. destruct (Hc s) as (tr & Htr).
  destruct (c s) as [[a|e] s1]; cbn [snd] in *; [exists tr; exact Htr|].
  destruct (Hh e s1) as (tr' & Htr'). exists (tr ++ tr')%list.
  rewrite Htr', Htr, <- app_assoc. reflexivity.
Qed.

Lemma grows_reify {A} (c : M (@state W) A) : grows c -> grows (reify c).
Proof.
  intros Hc s. unfold reify. destruct (Hc s) as (tr & Htr).
  destruct (c s) as [r s1]. exists tr. exact Htr.
Qed.

Lemma grows_same {A} (c : M (@state W) A) :
  (forall s, log (snd (c s)) = log s) -> grows c.
Proof. intros H s. exists []. rewrite H, app_nil_r. reflexivity. Qed.

Lemma grows_get : grows (W := W) get.
Proof. apply grows_same. reflexivity. Qed.

Lemma grows_now : grows (now E).
Proof. apply grows_same. reflexivity. Qed.

Lemma grows_emit e : grows (W := W) (emit e).
Proof. intros s. exists [e]. reflexivity. Qed.

Lemma grows_new_Set : grows (W := W) new_Set.
Proof. apply grows_same. reflexivity. Qed.

Lemma grows_read_set ref : grows (W := W) (read_set ref).
Proof. apply grows_same. reflexivity. Qed.

Lemma grows_write_set ref v : grows (W := W) (write_set ref v).
Proof. apply grows_same. reflexivity. Qed.

Lemma grows_set_size ref : grows (W := W) (set_size ref).
Proof. apply grows_same. reflexivity. Qed.

Lemma grows_fetch_page rq : grows (fetch_page E rq).
Proof.
  intros s. unfold fetch_page. destruct (odata_page E rq (world s)) as [r w].
  exists [EvPage rq r]. reflexivity.
Qed.

Lemma grows_upsertBatch table rows conflict : grows (upsertBatch E table rows conflict).
Proof.
  intros s. unfold upsertBatch. destruct (len rows =? 0); [apply grows_ret|].
  unfold bind, get. destruct (negb (supabase s)); [apply grows_throw|].
  destruct (sb_upsert E table rows conflict (world s)) as [reply w].
  exists [EvUpsert table rows]. destruct (sb_error reply); reflexivity.
Qed.

Lemma grows_getSyncLog r : grows (getSyncLog E r).
Proof.
  apply grows_same. intros s. unfold getSyncLog, bind, get.
  destruct (negb (supabase s)); [reflexivity|].
  destruct (sb_select_sync_log E r (world s)) as [reply w].
  destruct (sel_error reply) as [e|]; [|reflexivity].
  destruct (negb (String.eqb (code e) "PGRST116")); reflexivity.
Qed.

Lemma grows_updateSyncLog label t : grows (updateSyncLog E label t).
Proof.
  intros s. unfold updateSyncLog, bind, get, now.
  destruct (negb (supabase s)); [apply grows_throw|].
  destruct t as [t|]; [|apply grows_ret].
  destruct (sb_upsert E "sync_log" _ _ (world s)) as [reply w].
  eexists [_]. destruct (sb_error reply); reflexivity.
Qed.

End Growth.

Create HintDb grows.
#[export] Hint Resolve grows_get grows_now grows_emit grows_new_Set grows_read_set
  grows_write_set grows_set_size grows_fetch_page grows_upsertBatch grows_getSyncLog
  grows_updateSyncLog : grows.

(** Growth of a computation built from computations that grow. *)
Ltac grows_tac :=
  repeat first
    [ match goal with |- forall _, _ => intro end
    | solve [eauto with grows]
    | apply grows_ret
    | apply grows_throw
    | apply grows_reify
    | apply grows_bind
    | apply grows_try
    | match goal with |- grows (match ?x with _ => _ end) => destruct x end ].

Section GrowthOfTheEngine.
Context {W : Type} (E : @env W) (cfg : config).

Lemma grows_on_error k f failOnLimit l error : grows (on_error E k f failOnLimit l error).
Proof. unfold on_error. grows_tac. Qed.
#[local] Hint Resolve grows_on_error : grows.

Lemma grows_page_step k baseUrl token f seen failOnLimit l :
  grows (page_step E cfg k baseUrl token f seen failOnLimit l).
Proof. unfold page_step. grows_tac. Qed.
#[local] Hint Resolve grows_page_step : grows.

Lemma grows_slice_loop fuel k baseUrl token f seen failOnLimit :
  forall l, grows (slice_loop E cfg fuel k baseUrl token f seen failOnLimit l).
Proof. induction fuel as [|fuel IH]; intros l; cbn [slice_loop]; grows_tac. Qed.
#[local] Hint Resolve grows_slice_loop : grows.

Lemma grows_run_slice k baseUrl token f seen failOnLimit :
  grows (run_slice E cfg k baseUrl token f seen failOnLimit).
Proof. unfold run_slice. grows_tac. Qed.
#[local] Hint Resolve grows_run_slice : grows.

Lemma grows_media_slice token lo hi seen : grows (media_slice E cfg token lo hi seen).
Proof. apply grows_run_slice. Qed.
#[local] Hint Resolve grows_media_slice : grows.

Lemma grows_hours_loop token dayStart seen :
  forall n hour t, grows (hours_loop E cfg n token dayStart hour seen t).
Proof. induction n as [|n IH]; intros hour t; cbn [hours_loop]; grows_tac. Qed.
#[local] Hint Resolve grows_hours_loop : grows.

Lemma grows_days_loop token rangeEnd seen :
  forall n cur t, grows (days_loop E cfg n token cur rangeEnd seen t).
Proof. induction n as [|n IH]; intros cur t; cbn [days_loop]; grows_tac. Qed.
#[local] Hint Resolve grows_days_loop : grows.

Lemma grows_fetchMediaDailyInRange token rangeStart rangeEnd seen :
  grows (fetchMediaDailyInRange E cfg token rangeStart rangeEnd seen).
Proof. apply grows_days_loop. Qed.
#[local] Hint Resolve grows_fetchMediaDailyInRange : grows.

Lemma grows_range_loop token startDate seen :
  forall n currentStart currentEnd t,
    grows (range_loop E cfg n token startDate currentStart currentEnd seen t).
Proof.
  induction n as [|n IH]; intros currentStart currentEnd t; cbn [range_loop]; grows_tac.
Qed.
#[local] Hint Resolve grows_range_loop : grows.

Lemma grows_fetchMediaInDateRange token startDate endDate seen :
  grows (fetchMediaInDateRange E cfg token startDate endDate seen).
Proof. apply grows_range_loop. Qed.
#[local] Hint Resolve grows_fetchMediaInDateRange : grows.

Lemma grows_chunk_step token seen w : grows (chunk_step E cfg token seen w).
Proof. unfold chunk_step. grows_tac. Qed.
#[local] Hint Resolve grows_chunk_step : grows.

Lemma grows_chunks_loop token seen :
  forall n w, grows (chunks_loop E cfg n token seen w).
Proof. induction n as [|n IH]; intros w; cbn [chunks_loop]; grows_tac. Qed.
#[local] Hint Resolve grows_chunks_loop : grows.

Lemma grows_skipped_loop token seen :
  forall weeks t, grows (skipped_loop E cfg weeks token seen t).
Proof.
  induction weeks as [|[[lo hi] n] weeks IH]; intros t; cbn [skipped_loop]; grows_tac.
Qed.
#[local] Hint Resolve grows_skipped_loop : grows.

Lemma grows_fetchMediaInDateChunks token seen :
  grows (fetchMediaInDateChunks E cfg token seen).
Proof. unfold fetchMediaInDateChunks. grows_tac. Qed.
#[local] Hint Resolve grows_fetchMediaInDateChunks : grows.

Lemma grows_fetchMediaWithSmartPagination token baseFilter incremental :
  grows (fetchMediaWithSmartPagination E cfg token baseFilter incremental).
Proof. unfold fetchMediaWithSmartPagination. grows_tac. Qed.
#[local] Hint Resolve grows_fetchMediaWithSmartPagination : grows.

Lemma grows_fetchMediaRecords incremental : grows (fetchMediaRecords E cfg incremental).
Proof. unfold fetchMediaRecords. grows_tac. Qed.

Lemma grows_older_step baseUrl token seen expectedRecords o :
  grows (older_step E cfg baseUrl token seen expectedRecords o).
Proof. unfold older_step, fetchAndUpsertBatchesInternal. grows_tac. Qed.
#[local] Hint Resolve grows_older_step : grows.

Lemma grows_older_loop baseUrl token seen expectedRecords :
  forall n o, grows (older_loop E cfg n baseUrl token seen expectedRecords o).
Proof. induction n as [|n IH]; intros o; cbn [older_loop]; grows_tac. Qed.
#[local] Hint Resolve grows_older_loop : grows.

Lemma grows_fetchOlderRecordsInChunks baseUrl token beforeDate seen expectedRecords :
  grows (fetchOlderRecordsInChunks E cfg baseUrl token beforeDate seen expectedRecords).
Proof. unfold fetchOlderRecordsInChunks. grows_tac. Qed.
#[local] Hint Resolve grows_fetchOlderRecordsInChunks : grows.

Lemma grows_fetchWithSmartPagination baseUrl token baseFilter expectedRecords :
  grows (fetchWithSmartPagination E cfg baseUrl token baseFilter expectedRecords).
Proof. unfold fetchWithSmartPagination, fetchAndUpsertBatchesInternal. grows_tac. Qed.
#[local] Hint Resolve grows_fetchWithSmartPagination : grows.

Lemma grows_fetchProperties label tokenVar baseUrl expectedRecords incremental :
  grows (fetchProperties E cfg label tokenVar baseUrl expectedRecords incremental).
Proof. unfold fetchProperties. grows_tac. Qed.


End GrowthOfTheEngine.

#[export] Hint Resolve grows_on_error grows_page_step grows_slice_loop grows_run_slice
  grows_media_slice grows_hours_loop grows_days_loop grows_fetchMediaDailyInRange
  grows_range_loop grows_fetchMediaInDateRange grows_chunk_step grows_chunks_loop
  grows_skipped_loop grows_fetchMediaInDateChunks grows_fetchMediaWithSmartPagination
  grows_fetchMediaRecords grows_older_step grows_older_loop
  grows_fetchOlderRecordsInChunks grows_fetchWithSmartPagination grows_fetchProperties
  : grows.

(** ** A program logic for the engine

    [hoare c Q]: whenever every page the run of [c] received holds records
    that satisfy [Rec], every event the run adds to the log satisfies
    [okev], whether [c] returns or throws, and a returned value satisfies
    [Q]. *)
Section Hoare.
Context {W : Type} (E : @env W) (cfg : config).
Variable okev : event -> Prop.
Variable Rec : raw -> Prop.
Variable P : Z -> Prop.

Hypothesis Hev_page : forall rq r, okev (EvPage rq r).
Hypothesis Hev_slice : forall k f r, okev (EvSlice k f r).
Hypothesis Hev_rows : forall k n uniq,
  Forall (fun r => record_key k r <> None) uniq ->
  okev (EvUpsert (table_of k) (map (map_row k n) uniq)).
Hypothesis Hev_sync : forall label t n,
  P t ->
  okev (EvUpsert "sync_log" [SyncLogRow {| resourcetype := label;
                                           lastprocessedtimestamp := Some t;
                                           updatedat := n |}]).
Hypothesis H_ts : forall k n r t,
  Rec r -> P n -> first_truthy (timestampFields k) (map_row k n r) = Some t -> P t.
Hypothesis H_clock : forall w, P (clock E w).

(** The records of a page that came back satisfy [Rec]. *)
Definition pageok (e : event) : Prop :=
  match e with
  | EvPage _ (Ok recs) => Forall Rec recs
  | _ => True
  end.

Definition hoare {A} (c : M (@state W) A) (Q : A -> Prop) : Prop :=
  forall s tr,
    log (snd (c s)) = (log s ++ tr)%list ->
    Forall pageok tr ->
    Forall okev tr /\
    match fst (c s) with
    | Ok a => Q a
    | Throw _ => True
    end.

Definition optP (o : option Z) : Prop := forall t, o = Some t -> P t.

Lemma hoare_same {A} (c : M (@state W) A) (Q : A -> Prop) :
  (forall s, log (snd (c s)) = log s) ->
  (forall s a, fst (c s) = Ok a -> Q a) ->
  hoare c Q.
Proof.
  intros Hlog HQ s tr Htr _. rewrite Hlog in Htr.
  rewrite <- (app_nil_r (log s)) in Htr at 1. apply app_inv_head in Htr. subst tr.
  split; [constructor|]. specialize (HQ s). destruct (fst (c s)); auto.
Qed.

Lemma hoare_ret {A} (a : A) (Q : A -> Prop) : Q a -> hoare (ret a) Q.
Proof. intros Ha. apply hoare_same; [reflexivity|]. intros s a' [= <-]. exact Ha. Qed.

Lemma hoare_throw {A} e (Q : A -> Prop) : hoare (throw e) Q.
Proof. apply hoare_same; [reflexivity|]. intros s a [=]. Qed.

Lemma hoare_bind {A B} (c : M state A) (k : A -> M state B) Q1 Q2 :
  grows c -> (forall a, grows (k a)) ->
  hoare c Q1 -> (forall a, Q1 a -> hoare (k a) Q2) -> hoare (bind c k) Q2.
Proof.
  intros Gc Gk Hc Hk s tr. unfold bind.
  destruct (Gc s) as (tr1 & H1). specialize (Hc s tr1 H1).
  destruct (c s) as [[a|e] s1]; cbn [fst snd] in *.
  - destruct (Gk a s1) as (tr2 & H2). intros Htr Hok.
    rewrite H2, H1, <- app_assoc in Htr. apply app_inv_head in Htr. subst tr.
    apply Forall_app in Hok. destruct Hok as [Hok1 Hok2].
    destruct (Hc Hok1) as [He1 Ha]. destruct (Hk a Ha s1 tr2 H2 Hok2) as [He2 Hb].
    split; [apply Forall_app; auto|exact Hb].
  - intros Htr Hok. rewrite H1 in Htr. apply app_inv_head in Htr. subst tr. auto.
Qed.

Lemma hoare_try {A} (c : M state A) h Q :
  grows c -> (forall e, grows (h e)) ->
  hoare c Q -> (forall e, hoare (h e) Q) -> hoare (try_catch c h) Q.
Proof.
  intros Gc Gh Hc Hh s tr. unfold try_catch.
  destruct (Gc s) as (tr1 & H1). specialize (Hc s tr1 H1).
  destruct (c s) as [[a|e] s1]; cbn [fst snd] in *.
  - intros Htr Hok. rewrite H1 in Htr. apply app_inv_head in Htr. subst tr. auto.
  - destruct (Gh e s1) as (tr2 & H2). intros Htr Hok.
    rewrite H2, H1, <- app_assoc in Htr. apply app_inv_head in Htr. subst tr.
    apply Forall_app in Hok. destruct Hok as [Hok1 Hok2].
    destruct (Hc Hok1) as [He1 _]. destruct (Hh e s1 tr2 H2 Hok2) as [He2 Hb].
    split; [apply Forall_app; auto|exact Hb].
Qed.

(** [bind] and [try_catch], the growth of their parts found by
    [grows_tac]. *)
Ltac hbind := eapply hoare_bind; [solve [grows_tac]|solve [grows_tac]| |].
Tactic Notation "hbind" "with" uconstr(Q) :=
  eapply hoare_bind with (Q1 := Q); [solve [grows_tac]|solve [grows_tac]| |].
Ltac htry := apply hoare_try; [solve [grows_tac]|solve [grows_tac]| |].

Lemma hoare_weaken {A} (c : M state A) (Q Q' : A -> Prop) :
  hoare c Q -> (forall a, Q a -> Q' a) -> hoare c Q'.
Proof.
  intros Hc HQ s tr Htr Hok. destruct (Hc s tr Htr Hok) as [He Ha].
  split; [exact He|]. destruct (fst (c s)); auto.
Qed.

Lemma hoare_reify {A} (c : M state A) Q :
  hoare c Q ->
  hoare (reify c) (fun r => match r with Ok a => Q a | Throw _ => True end).
Proof.
  intros Hc s tr. unfold reify. specialize (Hc s tr).
  destruct (c s) as [[a|e] s1]; cbn [fst snd] in *; exact Hc.
Qed.

Lemma hoare_get : hoare get (fun _ => True).
Proof. apply hoare_same; [reflexivity|auto]. Qed.

Lemma hoare_now : hoare (now E) P.
Proof. apply hoare_same; [reflexivity|]. intros s a [= <-]. apply H_clock. Qed.

Lemma hoare_one {A} (c : M (@state W) A) (Q : A -> Prop) :
  (forall s, exists e, log (snd (c s)) = (log s ++ [e])%list /\
                       (pageok e -> okev e /\
                                    match fst (c s) with Ok a => Q a | Throw _ => True end)) ->
  hoare c Q.
Proof.
  intros H s tr Htr Hok. destruct (H s) as (e & Hlog & He).
  rewrite Hlog in Htr. apply app_inv_head in Htr. subst tr.
  apply Forall_cons in Hok. destruct Hok as [Hok _]. destruct (He Hok) as [H1 H2].
  split; [constructor; [exact H1|constructor]|exact H2].
Qed.

Lemma hoare_emit e : okev e -> hoare (emit e) (fun _ => True).
Proof. intros He. apply hoare_one. intros s. exists e. cbn. auto. Qed.

Lemma hoare_new_Set : hoare new_Set (fun _ => True).
Proof. apply hoare_same; [reflexivity|auto]. Qed.

Lemma hoare_read_set ref : hoare (read_set ref) (fun _ => True).
Proof. apply hoare_same; [reflexivity|auto]. Qed.

Lemma hoare_write_set ref v : hoare (write_set ref v) (fun _ => True).
Proof. apply hoare_same; [reflexivity|auto]. Qed.

Lemma hoare_set_size ref : hoare (set_size ref) (fun _ => True).
Proof. apply hoare_same; [reflexivity|auto]. Qed.

Lemma hoare_fetch_page rq : hoare (fetch_page E rq) (Forall Rec).
Proof.
  apply hoare_one. intros s. unfold fetch_page.
  destruct (odata_page E rq (world s)) as [[recs|e] w]; eexists; cbn;
    (split; [reflexivity|]); auto.
Qed.

Lemma hoare_events {A} (c : M (@state W) A) (Q : A -> Prop) :
  (forall s, exists l, log (snd (c s)) = (log s ++ l)%list /\
                       (Forall pageok l ->
                        Forall okev l /\
                        match fst (c s) with Ok a => Q a | Throw _ => True end)) ->
  hoare c Q.
Proof.
  intros H s tr Htr Hok. destruct (H s) as (l & Hlog & Hl).
  rewrite Hlog in Htr. apply app_inv_head in Htr. subst tr. auto.
Qed.

Lemma hoare_upsertBatch table rows conflict :
  okev (EvUpsert table rows) ->
  hoare (upsertBatch E table rows conflict) (fun _ => True).
Proof.
  intros He. apply hoare_events. intros s. unfold upsertBatch.
  destruct (len rows =? 0).
  { exists []. cbn. rewrite app_nil_r. repeat split; constructor. }
  unfold bind, get. destruct (negb (supabase s)).
  { exists []. cbn. rewrite app_nil_r. repeat split; constructor. }
  destruct (sb_upsert E table rows conflict (world s)) as [reply w].
  exists [EvUpsert table rows].
  destruct (sb_error reply); cbn; (split; [reflexivity|]); intros _;
    (split; [constructor; [exact He|constructor]|exact I]).
Qed.

Lemma hoare_getSyncLog r : hoare (getSyncLog E r) (fun _ => True).
Proof.
  apply hoare_same; [|auto]. intros s. unfold getSyncLog, bind, get.
  destruct (negb (supabase s)); [reflexivity|].
  destruct (sb_select_sync_log E r (world s)) as [reply w].
  destruct (sel_error reply) as [e|]; [|reflexivity].
  destruct (negb (String.eqb (code e) "PGRST116")); reflexivity.
Qed.


(** *** The slice executor *)

Lemma dedupe_fold_Forall k (Q : raw -> Prop) value :
  forall st,
    Forall (fun r => record_key k r <> None -> Q r) value ->
    Forall Q (snd (fst st)) ->
    Forall Q (snd (fst (fold_left (dedupe_step k) value st))).
Proof.
  induction value as [|r value IH]; intros [[seen uniq] dups] Hv Hu; [exact Hu|].
  inversion Hv as [|? ? Hr Hv']; subst. cbn [fold_left]. apply IH; [exact Hv'|].
  unfold dedupe_step. destruct (record_key k r) as [key|] eqn:Hk; [|exact Hu].
  destruct (bool_decide (key ∈ seen)); [exact Hu|]. cbn.
  apply Forall_app. split; [exact Hu|]. constructor; [|constructor].
  apply Hr. congruence.
Qed.

Lemma dedupe_unique k value seen :
  Forall Rec value ->
  Forall (fun r => Rec r /\ record_key k r <> None) (snd (fst (dedupe k value seen))).
Proof.
  intros Hv. unfold dedupe. apply dedupe_fold_Forall; [|constructor].
  eapply Forall_impl; [exact Hv|]. cbn. auto.
Qed.

Lemma optP_None : optP None.
Proof. intros t Ht. discriminate. Qed.

Lemma optP_Some t : P t -> optP (Some t).
Proof. intros Ht t' Heq. congruence. Qed.

Lemma latest_fold_optP fields rows :
  Forall (fun rec => forall t, first_truthy fields rec = Some t -> P t) rows ->
  forall acc, optP acc -> optP (fold_left (latest_step fields) rows acc).
Proof.
  induction 1 as [|rec rows Hrec _ IH]; intros acc Hacc; [exact Hacc|].
  cbn [fold_left]. apply IH. unfold latest_step.
  destruct (first_truthy fields rec) as [t|] eqn:Ht; [|exact Hacc].
  destruct acc as [l|]; [|apply optP_Some; auto].
  destruct (t >? l); [apply optP_Some; auto|exact Hacc].
Qed.

Lemma findLatestTimestamp_optP k n uniq :
  P n -> Forall Rec uniq -> optP (findLatestTimestamp k (map (map_row k n) uniq)).
Proof.
  intros Hn Hu. unfold findLatestTimestamp. apply latest_fold_optP; [|apply optP_None].
  apply Forall_map. eapply Forall_impl; [exact Hu|].
  intros r Hr t Ht. eapply H_ts; eauto.
Qed.

Lemma merge_latest_optP a b : optP a -> optP b -> optP (merge_latest a b).
Proof.
  intros Ha Hb. unfold merge_latest. destruct a as [l|]; [|exact Hb].
  destruct b as [x|]; [|exact Ha]. destruct (x >? l); assumption.
Qed.

Lemma hoare_on_error k f failOnLimit l error :
  optP (l_latest l) ->
  hoare (on_error E k f failOnLimit l error) (fun r => optP (l_latest (fst r))).
Proof.
  intros Hl. unfold on_error.
  destruct (includes (message error) cap_marker); [|apply hoare_throw].
  destruct k; [destruct failOnLimit; [apply hoare_throw|]|]; apply hoare_ret; exact Hl.
Qed.

Lemma advance_latest l n : l_latest (fst (advance cfg l n)) = l_latest l.
Proof.
  unfold advance. destruct (n <? BATCH_SIZE cfg); [reflexivity|].
  destruct (_ >=? apiLimit); reflexivity.
Qed.

Lemma hoare_page_step k baseUrl token f seen failOnLimit l :
  optP (l_latest l) ->
  hoare (page_step E cfg k baseUrl token f seen failOnLimit l)
        (fun r => optP (l_latest (fst r))).
Proof.
  intros Hl. unfold page_step.
  hbind; [apply hoare_reify, hoare_fetch_page|].
  intros [value|error] Hvalue; [|apply hoare_on_error; exact Hl].
  destruct (len value =? 0); [apply hoare_ret; exact Hl|].
  hbind; [apply hoare_read_set|]. intros before _.
  pose proof (dedupe_unique k value before Hvalue) as Hu.
  destruct (dedupe k value before) as [[after uniqueRecords] dups]. cbn in Hu.
  hbind; [apply hoare_write_set|]. intros _ _.
  destruct (len uniqueRecords >? 0).
  - hbind; [apply hoare_now|]. intros n Hn.
    hbind.
    { apply hoare_reify, hoare_upsertBatch, Hev_rows.
      eapply Forall_impl; [exact Hu|]. cbn. tauto. }
    intros [upsertedCount|error] _; [|apply hoare_on_error; exact Hl].
    apply hoare_ret. rewrite advance_latest. cbn.
    assert (Hb : optP (findLatestTimestamp k (map (map_row k n) uniqueRecords))).
    { apply findLatestTimestamp_optP; [exact Hn|].
      eapply Forall_impl; [exact Hu|]. cbn. tauto. }
    destruct (findLatestTimestamp k _) as [b|]; [|exact Hl].
    destruct (l_latest l) as [cur|]; [|exact Hb].
    destruct (b >? cur); [exact Hb|exact Hl].
  - apply hoare_ret. rewrite advance_latest. exact Hl.
Qed.

Lemma hoare_slice_loop fuel k baseUrl token f seen failOnLimit :
  forall l, optP (l_latest l) ->
    hoare (slice_loop E cfg fuel k baseUrl token f seen failOnLimit l)
          (fun l' => optP (l_latest l')).
Proof.
  induction fuel as [|fuel IH]; intros l Hl; cbn [slice_loop]; [apply hoare_throw|].
  destruct (_ && _); [apply hoare_ret; exact Hl|].
  hbind; [apply hoare_page_step; exact Hl|].
  intros [l' more] Hl'. cbn [fst snd] in *.
  destruct more; [apply IH; exact Hl'|apply hoare_ret; exact Hl'].
Qed.

Lemma hoare_run_slice k baseUrl token f seen failOnLimit :
  hoare (run_slice E cfg k baseUrl token f seen failOnLimit)
        (fun r => optP (latestTimestamp r)).
Proof.
  unfold run_slice.
  hbind; [apply hoare_slice_loop, optP_None|]. intros l Hl.
  hbind; [apply hoare_set_size|]. intros size _.
  hbind; [apply hoare_emit, Hev_slice|]. intros _ _.
  apply hoare_ret. exact Hl.
Qed.

(** *** The schedulers *)

Lemma add_counts_optP t fetched upserted latest :
  optP (t_latest t) -> optP latest ->
  optP (t_latest (add_counts t fetched upserted latest)).
Proof. intros Ht Hl. cbn. apply merge_latest_optP; assumption. Qed.

Lemma add_slice_optP t r :
  optP (t_latest t) -> optP (latestTimestamp r) -> optP (t_latest (add_slice t r)).
Proof. intros. apply add_counts_optP; assumption. Qed.

Lemma hoare_media_slice token lo hi seen :
  hoare (media_slice E cfg token lo hi seen) (fun r => optP (latestTimestamp r)).
Proof. apply hoare_run_slice. Qed.

Lemma hoare_hours_loop n token dayStart seen :
  forall hour t, optP (t_latest t) ->
    hoare (hours_loop E cfg n token dayStart hour seen t) (fun t' => optP (t_latest t')).
Proof.
  induction n as [|n IH]; intros hour t Ht; cbn [hours_loop]; [apply hoare_ret; exact Ht|].
  hbind; [apply hoare_media_slice|]. intros r Hr.
  apply IH. apply add_slice_optP; assumption.
Qed.

Lemma hoare_days_loop n token rangeEnd seen :
  forall currentDate t, optP (t_latest t) ->
    hoare (days_loop E cfg n token currentDate rangeEnd seen t)
          (fun t' => optP (t_latest t')).
Proof.
  induction n as [|n IH]; intros currentDate t Ht; cbn [days_loop];
    [apply hoare_ret; exact Ht|].
  destruct (currentDate <? rangeEnd); [|apply hoare_ret; exact Ht].
  hbind; [apply hoare_media_slice|]. intros r Hr.
  hbind.
  { destruct (hitLimit r).
    - apply hoare_hours_loop. exact Ht.
    - apply hoare_ret. apply add_slice_optP; eassumption. }
  intros t' Ht'. apply IH. exact Ht'.
Qed.

Lemma hoare_fetchMediaDailyInRange token rangeStart rangeEnd seen :
  hoare (fetchMediaDailyInRange E cfg token rangeStart rangeEnd seen)
        (fun t => optP (t_latest t)).
Proof. apply hoare_days_loop. apply optP_None. Qed.

Lemma hoare_range_loop n token startDate seen :
  forall currentStart currentEnd t, optP (t_latest t) ->
    hoare (range_loop E cfg n token startDate currentStart currentEnd seen t)
          (fun t' => optP (t_latest t')).
Proof.
  induction n as [|n IH]; intros currentStart currentEnd t Ht; cbn [range_loop];
    [apply hoare_ret; exact Ht|].
  destruct (currentEnd >? startDate); [|apply hoare_ret; exact Ht].
  hbind; [apply hoare_media_slice|]. intros r Hr.
  hbind with (fun t' => optP (t_latest t')).
  { destruct (hitLimit r).
    - hbind; [apply hoare_fetchMediaDailyInRange|]. intros d Hd.
      apply hoare_ret. apply add_counts_optP; assumption.
    - apply hoare_ret. apply add_slice_optP; eassumption. }
  intros t' Ht'. apply IH. exact Ht'.
Qed.

Lemma next_chunk_totals w : w_totals (fst (next_chunk cfg w)) = w_totals w.
Proof. reflexivity. Qed.

Lemma hoare_chunk_step token seen w :
  optP (t_latest (w_totals w)) ->
  hoare (chunk_step E cfg token seen w) (fun r => optP (t_latest (w_totals (fst r)))).
Proof.
  intros Hw. unfold chunk_step.
  hbind; [apply hoare_media_slice|]. intros r Hr.
  assert (H1 : optP (t_latest (add_slice (w_totals w) r)))
    by (apply add_slice_optP; assumption).
  destruct (totalFetched r =? 0).
  - destruct (_ >=? 10); apply hoare_ret; exact H1.
  - apply hoare_ret. rewrite next_chunk_totals.
    destruct (hitLimit r); cbn [w_totals]; [apply add_slice_optP|]; assumption.
Qed.

Lemma hoare_chunks_loop n token seen :
  forall w, optP (t_latest (w_totals w)) ->
    hoare (chunks_loop E cfg n token seen w) (fun w' => optP (t_latest (w_totals w'))).
Proof.
  induction n as [|n IH]; intros w Hw; cbn [chunks_loop]; [apply hoare_ret; exact Hw|].
  hbind; [apply hoare_chunk_step; exact Hw|].
  intros [w' more] Hw'. cbn [fst snd] in *.
  destruct more; [apply IH; exact Hw'|apply hoare_ret; exact Hw'].
Qed.

Lemma hoare_skipped_loop weeks token seen :
  forall t, optP (t_latest t) ->
    hoare (skipped_loop E cfg weeks token seen t) (fun t' => optP (t_latest t')).
Proof.
  induction weeks as [|[[startDate endDate] found] weeks IH]; intros t Ht;
    cbn [skipped_loop]; [apply hoare_ret; exact Ht|].
  hbind; [|intros t' Ht'; apply IH; exact Ht'].
  htry; [|intros e; apply hoare_ret; exact Ht].
  hbind; [apply hoare_fetchMediaDailyInRange|]. intros d Hd.
  apply hoare_ret. apply add_counts_optP; assumption.
Qed.

Lemma hoare_fetchMediaInDateChunks token seen :
  hoare (fetchMediaInDateChunks E cfg token seen) (fun r => optP (r_latest r)).
Proof.
  unfold fetchMediaInDateChunks.
  hbind; [apply hoare_now|]. intros n _.
  hbind; [apply hoare_chunks_loop, optP_None|]. intros w Hw.
  hbind; [apply hoare_skipped_loop; exact Hw|]. intros t Ht.
  hbind; [apply hoare_set_size|]. intros size _.
  apply hoare_ret. exact Ht.
Qed.

Lemma hoare_fetchMediaWithSmartPagination token baseFilter incremental :
  hoare (fetchMediaWithSmartPagination E cfg token baseFilter incremental)
        (fun r => optP (r_latest r)).
Proof.
  unfold fetchMediaWithSmartPagination.
  hbind; [apply hoare_new_Set|]. intros seen _.
  destruct incremental; cbn [negb]; [|apply hoare_fetchMediaInDateChunks].
  hbind; [apply hoare_run_slice|]. intros r Hr.
  hbind with (fun t => optP (t_latest t)).
  { destruct (hitLimit r); [|apply hoare_ret; exact Hr].
    hbind; [apply hoare_now|]. intros n _.
    hbind; [apply hoare_getSyncLog|]. intros lastSync _.
    destruct (_ >? _); [|apply hoare_ret; exact Hr].
    hbind; [apply hoare_range_loop, optP_None|]. intros d Hd.
    apply hoare_ret. apply add_counts_optP; assumption. }
  intros t Ht.
  hbind; [apply hoare_set_size|]. intros size _.
  apply hoare_ret. exact Ht.
Qed.

Lemma hoare_fetchMediaRecords incremental :
  hoare (fetchMediaRecords E cfg incremental) (fun r => optP (r_latest r)).
Proof.
  unfold fetchMediaRecords.
  destruct (IDX_TOKEN cfg) as [token|]; [|apply hoare_throw].
  destruct (String.eqb token ""); [apply hoare_throw|].
  hbind with (fun _ => True);
    [|intros fi _; apply hoare_fetchMediaWithSmartPagination].
  destruct incremental; [|apply hoare_ret; exact I].
  hbind; [apply hoare_getSyncLog|]. intros [t|] _; apply hoare_ret; exact I.
Qed.

Lemma hoare_older_loop n baseUrl token seen expectedRecords :
  forall o, optP (t_latest (o_totals o)) ->
    hoare (older_loop E cfg n baseUrl token seen expectedRecords o)
          (fun o' => optP (t_latest (o_totals o'))).
Proof.
  induction n as [|n IH]; intros o Ho; cbn [older_loop]; [apply hoare_ret; exact Ho|].
  hbind with (fun r => optP (t_latest (o_totals (fst r)))).
  - unfold older_step.
    hbind; [apply hoare_run_slice|]. intros r Hr.
    assert (H1 : optP (t_latest (add_slice (o_totals o) r)))
      by (apply add_slice_optP; assumption).
    destruct (totalFetched r =? 0); [apply hoare_ret; exact H1|].
    hbind; [apply hoare_set_size|]. intros size _.
    apply hoare_ret. exact H1.
  - intros [o' more] Ho'. cbn [fst snd] in *.
    destruct more; [apply IH; exact Ho'|apply hoare_ret; exact Ho'].
Qed.

Lemma hoare_fetchWithSmartPagination baseUrl token baseFilter expectedRecords :
  hoare (fetchWithSmartPagination E cfg baseUrl token baseFilter expectedRecords)
        (fun r => optP (r_latest r)).
Proof.
  unfold fetchWithSmartPagination.
  hbind; [apply hoare_new_Set|]. intros seen _.
  hbind; [apply hoare_run_slice|]. intros r Hr.
  hbind with (fun t => optP (t_latest t)).
  { destruct (_ || _); [|apply hoare_ret; exact Hr].
    hbind; [apply hoare_now|]. intros n _.
    hbind with (fun t => optP (t_latest t)).
    { unfold fetchOlderRecordsInChunks.
      hbind; [apply hoare_older_loop, optP_None|]. intros o Ho.
      apply hoare_ret. exact Ho. }
    intros d Hd. apply hoare_ret. apply add_counts_optP; assumption. }
  intros t Ht.
  hbind; [apply hoare_set_size|]. intros size _.
  apply hoare_ret. exact Ht.
Qed.

Lemma hoare_fetchProperties label tokenVar baseUrl expectedRecords incremental :
  hoare (fetchProperties E cfg label tokenVar baseUrl expectedRecords incremental)
        (fun r => optP (r_latest r)).
Proof.
  unfold fetchProperties.
  destruct (nonempty_token tokenVar) as [token|]; [|apply hoare_throw].
  hbind with (fun _ => True);
    [|intros f _; apply hoare_fetchWithSmartPagination].
  destruct incremental; [|apply hoare_ret; exact I].
  hbind; [apply hoare_getSyncLog|]. intros lastSync _.
  apply hoare_ret; exact I.
Qed.

(** *** The coordinator *)


End Hoare.

(** ** Enough fuel *)
Section Fuel.
Context {W : Type} (E : @env W) (cfg : config).

Lemma on_error_stops k f failOnLimit l error s l' s' :
  on_error E k f failOnLimit l error s = (Ok (l', true), s') -> False.
Proof.
  unfold on_error, throw, ret. destruct (includes _ _); [|discriminate].
  destruct k; [destruct failOnLimit|]; intros [=].
Qed.

Lemma advance_progress l n l' :
  0 < n -> advance cfg l n = (l', true) -> l_skip l < l_skip l' < apiLimit.
Proof.
  intros Hn. unfold advance. destruct (n <? BATCH_SIZE cfg); [discriminate|].
  destruct (l_skip l + n >=? apiLimit) eqn:Hc; [discriminate|].
  intros [= <-]. cbn. lia.
Qed.

Lemma len_pos {A} (l : list A) : (len l =? 0) = false -> 0 < len l.
Proof. unfold len. lia. Qed.

Lemma page_step_progress k baseUrl token f seen failOnLimit l s l' s' :
  page_step E cfg k baseUrl token f seen failOnLimit l s = (Ok (l', true), s') ->
  l_skip l < l_skip l' < apiLimit.
Proof.
  unfold page_step, bind, reify.
  destruct (fetch_page E _ s) as [[value|error] s1];
    [|intros H; exfalso; eapply on_error_stops; exact H].
  destruct (len value =? 0) eqn:Hlen; [unfold ret; intros [=]|].
  apply len_pos in Hlen. unfold read_set.
  destruct (dedupe k value _) as [[after uniqueRecords] dups].
  destruct (write_set seen after s1) as [[[]|e] s2] eqn:Hw; [|discriminate Hw].
  destruct (len uniqueRecords >? 0).
  - unfold now.
    destruct (upsertBatch E _ _ _ s2) as [[upsertedCount|error] s3];
      [|intros H; exfalso; eapply on_error_stops; exact H].
    unfold ret. intros [= Ha <-]. apply advance_progress in Ha; [exact Ha|exact Hlen].
  - unfold ret. intros [= Ha <-]. apply advance_progress in Ha; [exact Ha|exact Hlen].
Qed.

(** The page loop needs at most [apiLimit - skip + 1] turns: with that much
    fuel, more fuel changes nothing. *)
Lemma slice_loop_fuel k baseUrl token f seen failOnLimit :
  forall n m l s,
    (Z.to_nat (apiLimit - l_skip l) < n)%nat -> (n <= m)%nat ->
    slice_loop E cfg n k baseUrl token f seen failOnLimit l s =
    slice_loop E cfg m k baseUrl token f seen failOnLimit l s.
Proof.
  induction n as [|n IH]; intros m l s Hn Hm; [lia|].
  destruct m as [|m]; [lia|]. cbn [slice_loop].
  destruct (_ && _); [reflexivity|]. unfold bind.
  destruct (page_step E cfg k baseUrl token f seen failOnLimit l s)
    as [[[l' more]|e] s'] eqn:Hp; [|reflexivity].
  cbn [fst snd]. destruct more; [|reflexivity].
  apply page_step_progress in Hp. apply IH; lia.
Qed.

Lemma run_slice_fuel k baseUrl token f seen failOnLimit m s :
  (slice_fuel <= m)%nat ->
  slice_loop E cfg slice_fuel k baseUrl token f seen failOnLimit locals0 s =
  slice_loop E cfg m k baseUrl token f seen failOnLimit locals0 s.
Proof.
  intros Hm. apply slice_loop_fuel; [|exact Hm].
  unfold slice_fuel, apiLimit. cbn [l_skip locals0]. lia.
Qed.

(** The day loop of [fetchMediaDailyInRange] ends within [days_between]
    turns. *)
Lemma days_loop_fuel token rangeEnd seen :
  forall n m currentDate t s,
    (days_between currentDate rangeEnd <= n)%nat -> (n <= m)%nat ->
    days_loop E cfg n token currentDate rangeEnd seen t s =
    days_loop E cfg m token currentDate rangeEnd seen t s.
Proof.
  unfold days_between.
  induction n as [|n IH]; intros m currentDate t s Hn Hm.
  - assert (Hd : (rangeEnd - currentDate) / day + 1 <= 0) by lia.
    assert (Hlt : rangeEnd - currentDate < 0).
    { destruct (Z_lt_le_dec (rangeEnd - currentDate) 0) as [|Hge]; [assumption|].
      pose proof (Z.div_pos (rangeEnd - currentDate) day Hge ltac:(reflexivity)). lia. }
    destruct m as [|m]; [reflexivity|]. cbn [days_loop].
    destruct (currentDate <? rangeEnd) eqn:Hc; [lia|reflexivity].
  - destruct m as [|m]; [lia|]. cbn [days_loop].
    destruct (currentDate <? rangeEnd) eqn:Hc; [|reflexivity].
    unfold bind. destruct (media_slice E cfg token _ _ seen s) as [[r|e] s1]; [|reflexivity].
    match goal with
    | |- context [(if hitLimit r then ?a else ?b) s1] =>
        destruct ((if hitLimit r then a else b) s1) as [[t'|e] s2]; [|reflexivity]
    end.
    apply IH; [|lia]. unfold addDays.
    replace (rangeEnd - (currentDate + 1 * day)) with ((rangeEnd - currentDate) + (-1) * day)
      by ring.
    rewrite Z.div_add by (unfold day; lia).
    assert (0 <= (rangeEnd - currentDate) / day)
      by (apply Z.div_pos; [lia|reflexivity]).
    lia.
Qed.

End Fuel.

(** ** Duplicate suppression *)

Lemma record_key_has_key k r : record_key k r <> None <-> has_key k r = true.
Proof.
  unfold record_key, has_key. destruct k.
  - destruct (ListingKey r) as [s|]; cbn; [|split; congruence].
    destruct (negb (String.eqb s "")); split; congruence.
  - destruct (truthy_str (ResourceRecordKey r) && truthy_str (MediaKey r));
      split; congruence.
Qed.

Lemma record_key_keyless k r : has_key k r = false -> record_key k r = None.
Proof.
  intros H. destruct (record_key k r) eqn:Hk; [|reflexivity].
  assert (Hn : record_key k r <> None) by congruence.
  apply record_key_has_key in Hn. congruence.
Qed.

Lemma map_row_keyed k n r : has_key k r = true -> row_keyed (map_row k n r).
Proof.
  unfold has_key, map_row. destruct k; cbn; [auto|].
  intros H. apply andb_true_iff in H. exact H.
Qed.

Lemma dedupe_fold_seen k value :
  forall seen uniq dups,
    let '(after, uniq', dups') := fold_left (dedupe_step k) value (seen, uniq, dups) in
    exists added,
      uniq' = (uniq ++ added)%list /\
      after = seen ∪ list_to_set (omap (record_key k) added) /\
      dups + count_keyless k value <= dups' /\
      len added + dups' = dups + len value.
Proof.
  unfold count_keyless, len.
  induction value as [|r value IH]; intros seen uniq dups; cbn [fold_left].
  - exists []. rewrite app_nil_r. cbn. split; [reflexivity|].
    split; [set_solver|lia].
  - unfold dedupe_step at 2. destruct (record_key k r) as [key|] eqn:Hk.
    + assert (Hh : has_key k r = true) by (apply record_key_has_key; congruence).
      cbn [List.filter length]. rewrite Hh. cbn [negb].
      destruct (bool_decide (key ∈ seen)).
      * specialize (IH seen uniq (dups + 1)).
        destruct (fold_left _ value _) as [[after uniq'] dups'].
        destruct IH as (added & H0 & H1 & H2 & H3). exists added.
        repeat split; [exact H0|exact H1|lia|lia].
      * specialize (IH ({[key]} ∪ seen) (uniq ++ [r])%list dups).
        destruct (fold_left _ value _) as [[after uniq'] dups'].
        destruct IH as (added & H0 & H1 & H2 & H3). exists (r :: added).
        rewrite <- app_assoc in H0. cbn [omap list_omap length]. rewrite Hk.
        repeat split; [exact H0| |lia|lia].
        rewrite H1. cbn [list_to_set foldr]. set_solver.
    + assert (Hh : has_key k r = false).
      { destruct (has_key k r) eqn:Hh; [|reflexivity].
        apply record_key_has_key in Hh. congruence. }
      cbn [List.filter length]. rewrite Hh. cbn [negb length].
      specialize (IH seen uniq (dups + 1)).
      destruct (fold_left _ value _) as [[after uniq'] dups'].
      destruct IH as (added & H0 & H1 & H2 & H3). exists added.
      repeat split; [exact H0|exact H1|lia|lia].
Qed.

Section SliceFacts.
Context {W : Type} (E : @env W) (cfg : config).

Lemma during_grows {A} (c : M (@state W) A) s :
  grows c -> log (snd (c s)) = (log s ++ during c s)%list.
Proof.
  intros Gc. destruct (Gc s) as (tr & Htr). unfold during.
  rewrite Htr, drop_app_length. reflexivity.
Qed.

Lemma inv_of_hoare {A} (okev : event -> Prop) (Rec : raw -> Prop)
    (c : M (@state W) A) (Q : A -> Prop) s :
  grows c -> hoare okev Rec c Q ->
  Forall okev (log s) -> Forall (pageok Rec) (during c s) ->
  Forall okev (log (snd (c s))).
Proof.
  intros Gc Hc Hs Hok. pose proof (during_grows c s Gc) as Hlog.
  destruct (Hc s (during c s) Hlog Hok) as [He _].
  rewrite Hlog. apply Forall_app. auto.
Qed.

Lemma pageok_any (Rec : raw -> Prop) (l : list event) :
  (forall r, Rec r) -> Forall (pageok Rec) l.
Proof.
  intros HR. apply Forall_forall. intros [rq [recs|e]| |] _; cbn; auto.
  apply Forall_forall. auto.
Qed.


(** C9: a record whose conflict key has a missing or empty component
    ([ListingKey] for listings; [ResourceRecordKey] or [MediaKey] for
    media) leaves the dedup set and [uniqueRecords] as they are and adds one
    to the count of duplicates; so the set only ever grows by the keys of
    the records kept, every record kept has a complete key, and every row a
    slice hands to the upserter carries its key. *)
Theorem keyless_records_are_dropped (k : kind) :
  (forall seen uniqueRecords duplicatesInBatch record,
     has_key k record = false ->
     dedupe_step k (seen, uniqueRecords, duplicatesInBatch) record
       = (seen, uniqueRecords, duplicatesInBatch + 1)) /\
  (forall value seen,
     let '(after, uniqueRecords, duplicatesInBatch) := dedupe k value seen in
     Forall (fun r => has_key k r = true) uniqueRecords /\
     after = seen ∪ list_to_set (omap (record_key k) uniqueRecords) /\
     count_keyless k value <= duplicatesInBatch /\
     len uniqueRecords + duplicatesInBatch = len value) /\
  (forall baseUrl token f seen failOnLimit s,
     Forall upserts_keyed (log s) ->
     Forall upserts_keyed
       (log (snd (run_slice E cfg k baseUrl token f seen failOnLimit s)))).
Proof.
  split; [|split].
  - intros seen uniq dups r Hr. unfold dedupe_step.
    rewrite (record_key_keyless k r Hr). reflexivity.
  - intros value seen.
    pose proof (dedupe_fold_Forall k (fun r => has_key k r = true) value (seen, [], 0)) as HF.
    pose proof (dedupe_fold_seen k value seen [] 0) as HS. unfold dedupe.
    destruct (fold_left (dedupe_step k) value (seen, [], 0)) as [[after uniq] dups].
    destruct HS as (added & H0 & H1 & H2 & H3). cbn in H0. subst added.
    split; [|split; [exact H1|lia]].
    apply HF; [|constructor]. apply Forall_forall. intros r _ Hk.
    apply record_key_has_key. exact Hk.
  - intros baseUrl token f seen failOnLimit s Hs.
    eapply (inv_of_hoare upserts_keyed (fun _ => True));
      [apply grows_run_slice| |exact Hs|apply pageok_any; auto].
    eapply hoare_run_slice with (P := fun _ => True).
    + intros rq r. exact I.
    + intros k' f' r. exact I.
    + intros k' n uniq Hu. cbn. apply Forall_map.
      eapply Forall_impl; [exact Hu|]. intros r Hr. cbn.
      apply map_row_keyed, record_key_has_key. exact Hr.
    + auto.
    + auto.
Qed.

End SliceFacts.

(** A run of the scripted world: an incremental slice over [fresh_feed]
    hands the upserter the two complete records only. *)
Lemma keyless_records_are_dropped_witness :
  Forall upserts_keyed
    (log (snd (run_slice (Mock.E Scenario.fresh_feed) (Mock.cfg 5000 true) Media
                 "https://query.ampre.ca/odata/Media" "idx-token"
                 (Some (FilterGt media_field (Mock.jan1_2024 + 2 * day))) 0%nat false
                 (Mock.started Scenario.fresh_log)))) /\
  dedupe_step Media (∅, [], 0) (Mock.keyless "W200" (Mock.jan1_2024 + 4 * day))
    = (∅, [], 1).
Proof.
  pose proof (keyless_records_are_dropped (Mock.E Scenario.fresh_feed)
                (Mock.cfg 5000 true) Media) as (Hstep & _ & Hrun).
  split.
  - apply Hrun. constructor.
  - apply Hstep. reflexivity.
Defined.

(** ** Saturation inside a slice *)
Section CapFacts.
Context {W : Type} (E : @env W) (cfg : config).

(** C5, as the code has it: when a page fetch of a slice run with
    [failOnLimit = true] raises an error that carries the cap marker, no
    further page is asked for; the listing executor throws "API limit hit
    unexpectedly in date chunk", the media executor returns with
    [hitLimit = true] and throws nothing. *)
Theorem cap_error_with_failOnLimit fuel baseUrl token f seen l s error w' :
  (l_skip l + BATCH_SIZE cfg >? apiLimit) && (apiLimit - l_skip l <=? 0) = false ->
  odata_page E {| rq_baseUrl := baseUrl; rq_token := token; rq_top := BATCH_SIZE cfg;
                  rq_skip := l_skip l; rq_filter := f |} (world s) = (Throw error, w') ->
  includes (message error) cap_marker = true ->
  let s' := {| world := w'; supabase := supabase s; sets := sets s;
               log := (log s ++ [EvPage {| rq_baseUrl := baseUrl; rq_token := token;
                                           rq_top := BATCH_SIZE cfg; rq_skip := l_skip l;
                                           rq_filter := f |} (Throw error)])%list |} in
  slice_loop E cfg (S fuel) Listing baseUrl token f seen true l s =
    (Throw {| message := "API limit hit unexpectedly in date chunk: " +:+ filter_text E f;
              code := "" |}, s') /\
  slice_loop E cfg (S fuel) Media baseUrl token f seen true l s = (Ok (set_hit l), s') /\
  l_hit (set_hit l) = true.
Proof.
  intros Hpre Hpage Hcap s'. cbn [slice_loop]. rewrite Hpre.
  unfold bind, page_step, bind, reify, fetch_page. rewrite Hpage.
  unfold on_error. rewrite Hcap. cbn. auto.
Qed.

End CapFacts.

Lemma cap_error_with_failOnLimit_witness :
  fst Scenario.run_capped_listing =
    Throw {| message := "API limit hit unexpectedly in date chunk: null"; code := "" |} /\
  slice_loop (Mock.E Scenario.capped) (Mock.cfg 2 false) 1 Media
    "https://query.ampre.ca/odata/Media" "idx-token" None 0%nat true locals0
    (Mock.started ∅)
  = (Ok (set_hit locals0),
     {| world := ∅; supabase := true; sets := [∅];
        log := [EvPage {| rq_baseUrl := "https://query.ampre.ca/odata/Media";
                          rq_token := "idx-token"; rq_top := 2; rq_skip := 0;
                          rq_filter := None |} (Throw Mock.cap_error)] |}).
Proof.
  split; [reflexivity|].
  apply (cap_error_with_failOnLimit (Mock.E Scenario.capped) (Mock.cfg 2 false) 0
           "https://query.ampre.ca/odata/Media" "idx-token" None 0%nat locals0
           (Mock.started ∅) Mock.cap_error ∅); reflexivity.
Defined.

(** C5, as stated, fails for media: the first page of the slice is refused
    with the cap marker, [failOnLimit] is [true], and the executor returns
    normally. *)
Lemma media_slice_swallows_cap_error :
  fst (Mock.page Scenario.capped
         {| rq_baseUrl := "https://query.ampre.ca/odata/Media"; rq_token := "idx-token";
            rq_top := 2; rq_skip := 0; rq_filter := None |} ∅) = Throw Mock.cap_error /\
  includes (message Mock.cap_error) cap_marker = true /\
  fst Scenario.run_capped_media =
    Ok {| totalFetched := 0; totalUpserted := 0; totalUnique := 0;
          latestTimestamp := None; oldestTimestamp := None; hitLimit := true |}.
Proof. repeat split. Qed.

(** ** The checkpoint *)
Section CheckpointFacts.
Context {W : Type} (E : @env W) (cfg : config).



End CheckpointFacts.



(** ** The backward walk *)

(** C1 fails on the code: on the 9th of January 2024, floor the 1st, the
    walk asks for the one window from the 3rd to the 10th and stops; the
    interval from the floor to the 3rd is never asked for, and the record
    of the 2nd is not fetched. *)
Theorem walk_stops_short_of_floor :
  Mock.windows (log (snd Scenario.run_short))
    = [(Mock.jan1_2024 + 2 * day, Mock.jan1_2024 + 9 * day)] /\
  MEDIA_SYNC_START_DATE (Mock.cfg 5000 false) = Mock.jan1_2024 /\
  option_map instant (MediaModificationTimestamp Scenario.early_record)
    = Some (Mock.jan1_2024 + 1 * day) /\
  Mock.covered (Mock.jan1_2024 + 1 * day) (Mock.windows (log (snd Scenario.run_short)))
    = false /\
  Mock.returned (log (snd Scenario.run_short)) = [] /\
  fst Scenario.run_short
    = Ok {| r_fetched := 0; r_upserted := 0; r_unique := 0; r_latest := None |}.
Proof. vm_compute. repeat split; reflexivity. Qed.

(** C2 fails on the code: the week saturates after two records, its slice
    is counted twice, and the totals returned (5 fetched, 5 upserted)
    exceed the sums over the slices executed (3 and 3); three rows were
    sent to the database in all. *)
Theorem saturated_week_is_counted_twice :
  fst Scenario.run_hot
    = Ok {| r_fetched := 5; r_upserted := 5; r_unique := 3;
            r_latest := Some (Mock.jan1_2024 + 2 * day + hour_ms) |} /\
  map (fun r => (totalFetched r, totalUpserted r, hitLimit r))
      (Mock.slices (log (snd Scenario.run_hot)))
    = [(2, 2, true); (0, 0, false); (0, 0, false); (1, 1, false);
       (0, 0, false); (0, 0, false); (0, 0, false); (0, 0, false)] /\
  Mock.sumZ (map totalFetched (Mock.slices (log (snd Scenario.run_hot)))) = 3 /\
  Mock.sumZ (map totalUpserted (Mock.slices (log (snd Scenario.run_hot)))) = 3 /\
  length (Mock.rows_sent "media" (log (snd Scenario.run_hot))) = 3%nat.
Proof. vm_compute. repeat split; reflexivity. Qed.

(** C4 fails on the code: the same run completes successfully and returns
    more rows upserted (5) than unique records (3). *)
Theorem upserted_exceeds_unique :
  exists r, fst Scenario.run_hot = Ok r /\
            r_unique r = 3 /\ r_upserted r = 5 /\ r_fetched r = 5 /\
            ~ (r_upserted r <= r_unique r).
Proof.
  eexists. split; [vm_compute; reflexivity|]. cbn [r_unique r_upserted r_fetched].
  repeat split; lia.
Qed.

(** C6 fails on the code: the upstream answers the first window with one
    record, which lacks its [MediaKey]; the slice reports [totalFetched = 0]
    and the counter of empty chunks goes to 1.  After ten such windows the
    walk stops: ten records were returned, nothing was fetched by the
    count of the walk, and the complete record of the eleventh week is
    never asked for. *)
Theorem keyless_window_counts_as_empty :
  (exists w s, Scenario.first_chunk = (Ok (w, true), s) /\
               length (Mock.returned (log s)) = 1%nat /\
               w_emptyChunks w = 1) /\
  length (Mock.returned (log (snd Scenario.run_keyless))) = 10%nat /\
  map totalFetched (Mock.slices (log (snd Scenario.run_keyless)))
    = [0; 0; 0; 0; 0; 0; 0; 0; 0; 0] /\
  length (Mock.windows (log (snd Scenario.run_keyless))) = 10%nat /\
  In Scenario.eleventh (Mock.feed Scenario.keyless_weeks) /\
  Mock.covered (Scenario.clock_200 + day - 77 * day + day)
    (Mock.windows (log (snd Scenario.run_keyless))) = false /\
  fst Scenario.run_keyless
    = Ok {| r_fetched := 0; r_upserted := 0; r_unique := 0; r_latest := None |}.
Proof.
  split; [eexists; eexists; vm_compute; repeat split; reflexivity|].
  vm_compute. repeat split; try reflexivity. do 10 right. left. reflexivity.
Qed.

(** * Further properties of the code *)

(** ** Latest and oldest time stamps *)

Lemma latest_fold_spec fields records :
  forall acc,
    let res := fold_left (latest_step fields) records acc in
    (forall u, acc = Some u -> exists t, res = Some t /\ u <= t) /\
    Forall (fun rec => forall u, first_truthy fields rec = Some u ->
                                 exists t, res = Some t /\ u <= t) records /\
    (forall t, res = Some t ->
               acc = Some t \/ Exists (fun rec => first_truthy fields rec = Some t) records).
Proof.
  induction records as [|rec records IH]; intros acc; cbn [fold_left].
  - cbn. repeat split; [intros u ->; exists u; split; [reflexivity|lia]|constructor|auto].
  - specialize (IH (latest_step fields acc rec)). cbn zeta in IH.
    destruct IH as (IH1 & IH2 & IH3).
    set (res := fold_left (latest_step fields) records (latest_step fields acc rec)) in *.
    cbn zeta. repeat split.
    + intros u ->. unfold latest_step in IH1.
      destruct (first_truthy fields rec) as [t|]; [|apply IH1; reflexivity].
      destruct (t >? u) eqn:Hc.
      * destruct (IH1 t eq_refl) as (t' & Ht' & Hle). exists t'. split; [exact Ht'|lia].
      * apply IH1. reflexivity.
    + constructor; [|exact IH2]. intros u Hu. unfold latest_step in IH1. rewrite Hu in IH1.
      destruct acc as [l|].
      * destruct (u >? l) eqn:Hc.
        -- apply IH1. reflexivity.
        -- destruct (IH1 l eq_refl) as (t' & Ht' & Hle). exists t'. split; [exact Ht'|lia].
      * apply IH1. reflexivity.
    + intros t Ht. destruct (IH3 t Ht) as [Hacc|Hex]; [|right; right; exact Hex].
      unfold latest_step in Hacc.
      destruct (first_truthy fields rec) as [u|] eqn:Hu; [|left; exact Hacc].
      destruct acc as [l|].
      * destruct (u >? l).
        -- right. left. congruence.
        -- left. exact Hacc.
      * right. left. congruence.
Qed.

(** X1: [findLatestTimestamp] returns the greatest of the time stamps of
    the rows, each row counted by the first of the [timestampFields] it
    holds: the result is the stamp of one of the rows and no row has a later
    one; it is [null] exactly when no row holds any of the fields. *)
Theorem findLatestTimestamp_is_max (k : kind) (records : list row) :
  match findLatestTimestamp k records with
  | Some t =>
      Exists (fun rec => first_truthy (timestampFields k) rec = Some t) records /\
      Forall (fun rec => forall u, first_truthy (timestampFields k) rec = Some u -> u <= t)
             records
  | None => Forall (fun rec => first_truthy (timestampFields k) rec = None) records
  end.
Proof.
  unfold findLatestTimestamp.
  destruct (latest_fold_spec (timestampFields k) records None) as (_ & H2 & H3).
  cbn zeta in *. destruct (fold_left _ records None) as [t|].
  - split.
    + destruct (H3 t eq_refl) as [Hn|Hex]; [discriminate|exact Hex].
    + eapply Forall_impl; [exact H2|]. intros rec Hrec u Hu.
      destruct (Hrec u Hu) as (t' & [= <-] & Hle). exact Hle.
  - eapply Forall_impl; [exact H2|]. intros rec Hrec.
    destruct (first_truthy (timestampFields k) rec) as [u|] eqn:Hu; [|reflexivity].
    destruct (Hrec u Hu) as (t' & Ht' & _). discriminate.
Qed.

Lemma row_time_map k n r :
  first_truthy (timestampFields k) (map_row k n r) = Some (default n (stamp k r)).
Proof.
  destruct k; cbn.
  - destruct (ModificationTimestamp r); reflexivity.
  - destruct (MediaModificationTimestamp r); [reflexivity|].
    destruct (ModificationTimestamp r); reflexivity.
Qed.

(** X2: the latest time stamp of a mapped batch is never [null] when the
    batch is not empty, because the mapper stamps every row with
    [UpdatedAt = new Date()].  When every record carries its own time stamp
    the result is the greatest of them, whatever the clock reads; a record
    that carries none lifts the result to the clock reading or beyond. *)
Theorem batch_latest_timestamp (k : kind) (n : Z) (uniqueRecords : list raw) :
  uniqueRecords <> [] ->
  exists t,
    findLatestTimestamp k (map (map_row k n) uniqueRecords) = Some t /\
    Forall (fun r => default n (stamp k r) <= t) uniqueRecords /\
    Exists (fun r => default n (stamp k r) = t) uniqueRecords /\
    (Forall (fun r => stamp k r <> None) uniqueRecords ->
     Exists (fun r => stamp k r = Some t) uniqueRecords) /\
    (Exists (fun r => stamp k r = None) uniqueRecords -> n <= t).
Proof.
  intros Hne.
  pose proof (findLatestTimestamp_is_max k (map (map_row k n) uniqueRecords)) as H.
  destruct (findLatestTimestamp k (map (map_row k n) uniqueRecords)) as [t|].
  - destruct H as [Hex Hall]. exists t.
    rewrite Forall_map in Hall. rewrite Exists_map in Hex.
    assert (Hle : Forall (fun r => default n (stamp k r) <= t) uniqueRecords).
    { eapply Forall_impl; [exact Hall|]. intros r Hr. apply Hr, row_time_map. }
    assert (Hin : Exists (fun r => default n (stamp k r) = t) uniqueRecords).
    { eapply Exists_impl; [exact Hex|]. intros r Hr. cbn in Hr.
      rewrite row_time_map in Hr. congruence. }
    repeat split; [exact Hle|exact Hin| |].
    + intros Hall'. apply Exists_exists in Hin. destruct Hin as (r & Hr & Heq).
      apply Exists_exists. exists r. split; [exact Hr|].
      rewrite Forall_forall in Hall'. specialize (Hall' r Hr).
      destruct (stamp k r); [cbn in Heq; congruence|congruence].
    + intros Hnone. apply Exists_exists in Hnone. destruct Hnone as (r & Hr & Heq).
      rewrite Forall_forall in Hle. specialize (Hle r Hr). rewrite Heq in Hle. exact Hle.
  - destruct uniqueRecords as [|r rest]; [congruence|].
    inversion H as [|? ? Hr _]; subst. cbn in Hr. rewrite row_time_map in Hr. discriminate.
Qed.

Lemma string_ltb_trans a b c :
  String.ltb a b = true -> String.ltb b c = true -> String.ltb a c = true.
Proof.
  unfold String.ltb. intros H1 H2.
  destruct (String.compare a b) eqn:E1; try discriminate.
  destruct (String.compare b c) eqn:E2; try discriminate.
  apply String_as_OT.cmp_lt in E1, E2.
  pose proof (String_as_OT.lt_trans _ _ _ E1 E2) as H.
  apply String_as_OT.cmp_lt in H. unfold String_as_OT.cmp in H. rewrite H. reflexivity.
Qed.

Lemma string_ltb_le_trans a b c :
  String.ltb a b = true -> String.ltb c b = false -> String.ltb a c = true.
Proof.
  intros H1 H2. unfold String.ltb in H2.
  destruct (String.compare c b) eqn:E; try discriminate.
  - apply String.compare_eq_iff in E. subst c. exact H1.
  - apply string_ltb_trans with b; [exact H1|].
    unfold String.ltb. rewrite String.compare_antisym, E. reflexivity.
Qed.

Lemma string_ltb_irrefl a : String.ltb a a = false.
Proof.
  unfold String.ltb. pose proof (String.compare_antisym a a) as H.
  destruct (String.compare a a); cbn in H; try discriminate; reflexivity.
Qed.

Lemma oldest_fold_spec (k : kind) (value : list raw) :
  forall oldest,
    let res := fold_left (oldest_step k) value oldest in
    (forall t, res = Some t ->
               oldest = Some t \/ Exists (fun r => raw_timestamp k r = Some t) value) /\
    (forall o, oldest = Some o ->
               exists t, res = Some t /\ String.ltb (text o) (text t) = false) /\
    Forall (fun r => forall u, raw_timestamp k r = Some u ->
                               exists t, res = Some t /\
                                         String.ltb (text u) (text t) = false) value /\
    (res = None -> oldest = None /\ Forall (fun r => raw_timestamp k r = None) value).
Proof.
  induction value as [|r value IH]; intros oldest; cbn [fold_left].
  - cbn. repeat split; auto.
    intros o ->. exists o. split; [reflexivity|apply string_ltb_irrefl].
  - specialize (IH (oldest_step k oldest r)). cbn zeta in IH.
    set (res := fold_left (oldest_step k) value (oldest_step k oldest r)) in *.
    destruct IH as (IH1 & IH2 & IH3 & IH4). cbn zeta.
    assert (Hstep : forall u, raw_timestamp k r = Some u ->
              exists o', oldest_step k oldest r = Some o' /\
                         String.ltb (text u) (text o') = false /\
                         forall o, oldest = Some o -> String.ltb (text o) (text o') = false).
    { intros u Hu. unfold oldest_step. rewrite Hu. destruct oldest as [o|].
      - destruct (String.ltb (text u) (text o)) eqn:Hlt.
        + exists u. split; [reflexivity|]. split; [apply string_ltb_irrefl|].
          intros o' [= <-]. destruct (String.ltb (text o) (text u)) eqn:H2; [|reflexivity].
          pose proof (string_ltb_trans _ _ _ Hlt H2) as H3.
          rewrite string_ltb_irrefl in H3. discriminate.
        + exists o. split; [reflexivity|]. split; [exact Hlt|].
          intros o' [= <-]. apply string_ltb_irrefl.
      - exists u. split; [reflexivity|]. split; [apply string_ltb_irrefl|]. discriminate. }
    assert (Hle : forall a o' t, String.ltb (text a) (text o') = false ->
              String.ltb (text o') (text t) = false -> String.ltb (text a) (text t) = false).
    { intros a o' t H1 H2. destruct (String.ltb (text a) (text t)) eqn:H3; [|reflexivity].
      pose proof (string_ltb_le_trans _ _ _ H3 H2) as H4. congruence. }
    repeat split.
    + intros t Ht. destruct (IH1 t Ht) as [Hacc|Hex]; [|right; right; exact Hex].
      unfold oldest_step in Hacc.
      destruct (raw_timestamp k r) as [u|] eqn:Hu; [|left; exact Hacc].
      destruct oldest as [o|]; [|right; left; congruence].
      destruct (String.ltb (text u) (text o)); [right; left; congruence|left; exact Hacc].
    + intros o Ho. destruct (raw_timestamp k r) as [u|] eqn:Hu.
      * destruct (Hstep u eq_refl) as (o' & Ho' & _ & Hoo).
        destruct (IH2 o' Ho') as (t & Ht & Hlt). exists t. split; [exact Ht|].
        eapply Hle; [apply Hoo; exact Ho|exact Hlt].
      * apply IH2. unfold oldest_step. rewrite Hu. exact Ho.
    + constructor; [|exact IH3]. intros u Hu.
      destruct (Hstep u Hu) as (o' & Ho' & Huo & _).
      destruct (IH2 o' Ho') as (t & Ht & Hlt). exists t. split; [exact Ht|].
      eapply Hle; eassumption.
    + destruct (IH4 H) as [Hstep' _]. unfold oldest_step in Hstep'.
      destruct (raw_timestamp k r) as [u|]; [|exact Hstep'].
      destruct oldest as [o|]; [|discriminate].
      destruct (String.ltb (text u) (text o)); discriminate.
    + destruct (IH4 H) as [Hstep' Hrest]. constructor; [|exact Hrest].
      unfold oldest_step in Hstep'.
      destruct (raw_timestamp k r) as [u|]; [|reflexivity].
      destruct oldest as [o|]; [|discriminate].
      destruct (String.ltb (text u) (text o)); discriminate.
Qed.

(** X3: the oldest time stamp a slice tracks is the first, in the order of
    strings, of the stamps of the records received
    ([ModificationTimestamp || ModifiedOn] for a listing,
    [MediaModificationTimestamp || ModificationTimestamp] for media) and of
    the value it had before: it is one of them, none of them comes before it
    as a string, and it stays [null] only while no record carries a stamp.
    It is the earliest instant among them when on these stamps the order of
    the strings is the order of the instants, as for ISO strings of one
    precision; with a stamp written without milliseconds and a later one
    written with them, the later one is kept as the oldest. *)
Theorem oldest_is_first_in_string_order (k : kind) (value : list raw) :
  forall oldest,
    let res := fold_left (oldest_step k) value oldest in
    let stamps u := oldest = Some u \/ Exists (fun r => raw_timestamp k r = Some u) value in
    (forall t, res = Some t -> stamps t) /\
    (forall u, stamps u ->
               exists t, res = Some t /\ String.ltb (text u) (text t) = false) /\
    (res = None -> oldest = None /\ Forall (fun r => raw_timestamp k r = None) value) /\
    ((forall a b, stamps a -> stamps b ->
                  String.ltb (text a) (text b) = (instant a <? instant b)) ->
     forall u, stamps u -> exists t, res = Some t /\ instant t <= instant u) /\
    (forall r1 r2 a b,
       value = [r1; r2] -> oldest = None ->
       raw_timestamp k r1 = Some a -> raw_timestamp k r2 = Some b ->
       text a = "2024-01-01T00:00:00Z" -> text b = "2024-01-01T00:00:00.500Z" ->
       res = Some b).
Proof.
  intros oldest res stamps.
  destruct (oldest_fold_spec k value oldest) as (H1 & H2 & H3 & H4).
  fold res in H1, H2, H3, H4.
  assert (Hmin : forall u, stamps u ->
            exists t, res = Some t /\ String.ltb (text u) (text t) = false).
  { intros u [Hu|Hu]; [apply H2; exact Hu|].
    apply Exists_exists in Hu. destruct Hu as (r & Hr & Hu).
    rewrite Forall_forall in H3. exact (H3 r Hr u Hu). }
  split; [exact H1|]. split; [exact Hmin|]. split; [exact H4|]. split.
  - intros Hagree u Hu. destruct (Hmin u Hu) as (t & Ht & Hlt). exists t.
    split; [exact Ht|]. rewrite (Hagree u t Hu (H1 t Ht)) in Hlt. lia.
  - intros r1 r2 a b -> -> Ha Hb Ta Tb. unfold res. cbn [fold_left].
    unfold oldest_step. rewrite Ha, Hb, Ta, Tb. reflexivity.
Qed.

(** ** Combining slice results *)

Lemma merge_latest_comm a b : merge_latest a b = merge_latest b a.
Proof.
  destruct a as [x|], b as [y|]; cbn; try reflexivity.
  destruct (y >? x) eqn:H1, (x >? y) eqn:H2; try reflexivity; f_equal; lia.
Qed.

Lemma merge_latest_assoc a b c :
  merge_latest (merge_latest a b) c = merge_latest a (merge_latest b c).
Proof.
  destruct a as [x|], b as [y|], c as [z|]; cbn; try reflexivity.
  - destruct (y >? x) eqn:H1, (z >? y) eqn:H2; cbn; rewrite ?H1, ?H2;
      destruct (z >? x) eqn:H3; try reflexivity; try (f_equal; lia).
    all: try (destruct (y >? x) eqn:H4; try reflexivity; f_equal; lia).
  - destruct (y >? x); reflexivity.
Qed.

Lemma merge_latest_ge a b t :
  merge_latest a b = Some t ->
  (forall x, a = Some x -> x <= t) /\ (forall y, b = Some y -> y <= t) /\
  (a = Some t \/ b = Some t).
Proof.
  destruct a as [x|], b as [y|]; cbn; try discriminate.
  - destruct (y >? x) eqn:Hc; intros [= <-]; repeat split;
      try (intros ? [= <-]; lia); auto.
  - intros [= <-]. repeat split; try (intros ? [= <-]; lia); try discriminate; auto.
  - intros [= <-]. repeat split; try (intros ? [= <-]; lia); try discriminate; auto.
Qed.

Lemma add_slice_swap t a b : add_slice (add_slice t a) b = add_slice (add_slice t b) a.
Proof.
  unfold add_slice, add_counts. cbn. f_equal; [lia|lia|].
  rewrite !merge_latest_assoc. f_equal. apply merge_latest_comm.
Qed.

Lemma fold_add_slice_counts rs :
  forall t,
    t_fetched (fold_left add_slice rs t) = t_fetched t + Mock.sumZ (map totalFetched rs) /\
    t_upserted (fold_left add_slice rs t) = t_upserted t + Mock.sumZ (map totalUpserted rs) /\
    t_latest (fold_left add_slice rs t)
      = merge_latest (t_latest t) (latest_of (map latestTimestamp rs)).
Proof.
  unfold latest_of.
  assert (Hm : forall l a b, fold_left merge_latest l (merge_latest a b)
                             = merge_latest a (fold_left merge_latest l b)).
  { induction l as [|x l IH]; intros a b; cbn [fold_left]; [reflexivity|].
    rewrite merge_latest_assoc. apply IH. }
  unfold Mock.sumZ.
  induction rs as [|r rs IH]; intros t; cbn [fold_left map fold_right].
  - repeat split; try lia. destruct (t_latest t); reflexivity.
  - destruct (IH (add_slice t r)) as (H1 & H2 & H3). rewrite H1, H2, H3.
    cbn [add_slice add_counts t_fetched t_upserted t_latest].
    split; [lia|]. split; [lia|].
    rewrite merge_latest_assoc. f_equal.
    rewrite (merge_latest_comm None (latestTimestamp r)). rewrite Hm. reflexivity.
Qed.

Lemma fold_add_slice_perm rs rs' :
  Permutation rs rs' ->
  forall t, fold_left add_slice rs' t = fold_left add_slice rs t.
Proof.
  induction 1 as [|x l l' _ IH|x y l|l l' l'' _ IH1 _ IH2]; intros t; cbn [fold_left].
  - reflexivity.
  - apply IH.
  - rewrite add_slice_swap. reflexivity.
  - rewrite IH2. apply IH1.
Qed.

(** X4: the way the schedulers combine slice results ([totalFetched +=],
    [totalUpserted +=] and the [latestTimestamp] merge) yields the sums of
    the counts and the greatest of the latest time stamps, and does not
    depend on the order in which the slices ran. *)
Theorem totals_are_sums_and_max (rs : list slice_result) :
  t_fetched (fold_left add_slice rs no_totals) = Mock.sumZ (map totalFetched rs) /\
  t_upserted (fold_left add_slice rs no_totals) = Mock.sumZ (map totalUpserted rs) /\
  (forall t, t_latest (fold_left add_slice rs no_totals) = Some t ->
             Exists (fun r => latestTimestamp r = Some t) rs /\
             Forall (fun r => forall u, latestTimestamp r = Some u -> u <= t) rs) /\
  (t_latest (fold_left add_slice rs no_totals) = None ->
   Forall (fun r => latestTimestamp r = None) rs) /\
  (forall rs', Permutation rs rs' ->
               fold_left add_slice rs' no_totals = fold_left add_slice rs no_totals).
Proof.
  destruct (fold_add_slice_counts rs no_totals) as (H1 & H2 & H3).
  cbn in H1, H2, H3. split; [exact H1|]. split; [exact H2|].
  assert (Hspec : forall l acc,
            let res := fold_left merge_latest l acc in
            (forall t, res = Some t ->
               (acc = Some t \/ Exists (fun o => o = Some t) l) /\
               (forall x, acc = Some x -> x <= t) /\
               Forall (fun o => forall u, o = Some u -> u <= t) l) /\
            (res = None -> acc = None /\ Forall (fun o => o = None) l)).
  { induction l as [|o l IH]; intros acc; cbn [fold_left]; cbn zeta.
    - split.
      + intros t ->. repeat split; auto. intros x [= <-]. lia.
      + auto.
    - destruct (IH (merge_latest acc o)) as [IHs IHn]. cbn zeta in *. split.
      + intros t Ht. destruct (IHs t Ht) as (Hin & Hacc & Hall).
        assert (Hm : forall m, merge_latest acc o = Some m -> m <= t) by exact Hacc.
        destruct (merge_latest acc o) as [m|] eqn:Hmo.
        * destruct (merge_latest_ge _ _ _ Hmo) as (Ha & Ho & Hor).
          specialize (Hm m eq_refl). repeat split.
          -- destruct Hin as [[= ->]|Hex]; [|right; right; exact Hex].
             destruct Hor as [Hor|Hor]; [left; exact Hor|right; left; exact Hor].
          -- intros x Hx. specialize (Ha x Hx). lia.
          -- constructor; [|exact Hall]. intros u Hu. specialize (Ho u Hu). lia.
        * destruct acc, o; cbn in Hmo; try discriminate;
            try (destruct (_ >? _); discriminate).
          repeat split; [|discriminate|].
          -- destruct Hin as [Hin|Hin]; [discriminate|right; right; exact Hin].
          -- constructor; [discriminate|exact Hall].
      + intros Hn. destruct (IHn Hn) as [Hmo Hall].
        destruct acc as [x|], o as [y|]; cbn in Hmo; try discriminate;
          try (destruct (_ >? _); discriminate).
        split; [reflexivity|]. constructor; [reflexivity|exact Hall]. }
  unfold latest_of in H3. destruct (Hspec (map latestTimestamp rs) None) as [Hs Hn].
  cbn zeta in Hs, Hn. repeat split.
  - rewrite H3 in H. destruct (Hs t H) as ([Hd|Hex] & _ & _); [discriminate|].
    apply Exists_map in Hex. exact Hex.
  - rewrite H3 in H. destruct (Hs t H) as (_ & _ & Hall).
    apply Forall_map in Hall. exact Hall.
  - intros Hnone. rewrite H3 in Hnone. destruct (Hn Hnone) as [_ Hall].
    apply Forall_map in Hall. exact Hall.
  - intros rs' Hp. apply fold_add_slice_perm. exact Hp.
Qed.

(** ** What the dedup loop keeps *)

Lemma dedupe_fold_fresh k value :
  forall seen uniq dups,
    let '(after, uniq', dups') := fold_left (dedupe_step k) value (seen, uniq, dups) in
    exists added,
      uniq' = (uniq ++ added)%list /\
      NoDup (omap (record_key k) added) /\
      (forall key, key ∈ omap (record_key k) added -> key ∉ seen) /\
      Forall (fun r => record_key k r <> None) added /\
      added `sublist_of` value /\
      seen ⊆ after /\
      (forall r key, r ∈ value -> record_key k r = Some key -> key ∈ after).
Proof.
  induction value as [|r value IH]; intros seen uniq dups; cbn [fold_left].
  - exists []. rewrite app_nil_r. cbn. repeat split; try constructor; try set_solver.
  - unfold dedupe_step at 2. destruct (record_key k r) as [key|] eqn:Hk.
    + destruct (bool_decide (key ∈ seen)) eqn:Hb.
      * apply bool_decide_eq_true in Hb. specialize (IH seen uniq (dups + 1)).
        destruct (fold_left _ value _) as [[after uniq'] dups'].
        destruct IH as (added & H0 & H1 & H2 & H3 & H4 & H5 & H6). exists added.
        repeat split; try assumption; [apply sublist_cons; exact H4|].
        intros r' key' Hin Hk'. apply elem_of_cons in Hin. destruct Hin as [->|Hin].
        -- rewrite Hk in Hk'. injection Hk' as <-. set_solver.
        -- eapply H6; eauto.
      * apply bool_decide_eq_false in Hb.
        specialize (IH ({[key]} ∪ seen) (uniq ++ [r])%list dups).
        destruct (fold_left _ value _) as [[after uniq'] dups'].
        destruct IH as (added & H0 & H1 & H2 & H3 & H4 & H5 & H6). exists (r :: added).
        rewrite <- app_assoc in H0. cbn [omap list_omap]. rewrite Hk.
        repeat split.
        -- exact H0.
        -- constructor; [|exact H1]. intros Hin. specialize (H2 key Hin). set_solver.
        -- intros key' Hin. apply elem_of_cons in Hin. destruct Hin as [->|Hin];
             [exact Hb|]. specialize (H2 key' Hin). set_solver.
        -- constructor; [congruence|exact H3].
        -- apply sublist_skip. exact H4.
        -- set_solver.
        -- intros r' key' Hin Hk'. apply elem_of_cons in Hin. destruct Hin as [->|Hin].
           ++ rewrite Hk in Hk'. injection Hk' as <-. set_solver.
           ++ eapply H6; eauto.
    + specialize (IH seen uniq (dups + 1)).
      destruct (fold_left _ value _) as [[after uniq'] dups'].
      destruct IH as (added & H0 & H1 & H2 & H3 & H4 & H5 & H6). exists added.
      repeat split; try assumption; [apply sublist_cons; exact H4|].
      intros r' key' Hin Hk'. apply elem_of_cons in Hin. destruct Hin as [->|Hin].
      * congruence.
      * eapply H6; eauto.
Qed.

Lemma dedupe_all_seen k value (S : gset string) :
  (forall r key, r ∈ value -> record_key k r = Some key -> key ∈ S) ->
  forall uniq dups,
    fold_left (dedupe_step k) value (S, uniq, dups) = (S, uniq, dups + len value).
Proof.
  unfold len. induction value as [|r value IH]; intros Hall uniq dups; cbn [fold_left].
  - cbn. f_equal. lia.
  - replace (dedupe_step k (S, uniq, dups) r) with (S, uniq, dups + 1).
    + rewrite IH; [|intros r' key Hin; apply Hall; right; exact Hin].
      cbn [length]. f_equal. lia.
    + unfold dedupe_step. destruct (record_key k r) as [key|] eqn:Hk; [|reflexivity].
      rewrite bool_decide_eq_true_2; [reflexivity|].
      eapply Hall; [left|exact Hk].
Qed.

Lemma omap_keys_length k l :
  Forall (fun r => record_key k r <> None) l ->
  length (omap (record_key k) l) = length l.
Proof.
  induction 1 as [|r l Hr _ IH]; [reflexivity|]. cbn [omap list_omap].
  destruct (record_key k r); [cbn; congruence|congruence].
Qed.

Lemma dedupe_fold_first k value :
  forall seen uniq dups,
    let '(after, uniq', dups') := fold_left (dedupe_step k) value (seen, uniq, dups) in
    exists added,
      uniq' = (uniq ++ added)%list /\
      (forall pre r post key,
         value = (pre ++ r :: post)%list -> record_key k r = Some key -> key ∉ seen ->
         (forall r', r' ∈ pre -> record_key k r' <> Some key) ->
         r ∈ added) /\
      (forall r, r ∈ added ->
         exists pre post key,
           value = (pre ++ r :: post)%list /\ record_key k r = Some key /\ (key ∉ seen) /\
           (forall r', r' ∈ pre -> record_key k r' <> Some key)).
Proof.
  induction value as [|r0 value IH]; intros seen uniq dups; cbn [fold_left].
  - exists []. rewrite app_nil_r. split; [reflexivity|]. split.
    + intros [|p pre] r post key Heq; discriminate Heq.
    + intros r Hr. inversion Hr.
  - unfold dedupe_step at 2. destruct (record_key k r0) as [key0|] eqn:Hk0.
    + destruct (bool_decide (key0 ∈ seen)) eqn:Hb.
      * apply bool_decide_eq_true in Hb. specialize (IH seen uniq (dups + 1)).
        destruct (fold_left _ value _) as [[after uniq'] dups'].
        destruct IH as (added & H0 & H1 & H2). exists added.
        split; [exact H0|]. split.
        -- intros [|p pre] r post key Heq Hk Hfresh Hpre; cbn in Heq;
             injection Heq as -> Heq.
           ++ exfalso. rewrite Hk0 in Hk. injection Hk as ->. contradiction.
           ++ eapply H1; [exact Heq|exact Hk|exact Hfresh|].
              intros r' Hr'. apply Hpre. right. exact Hr'.
        -- intros r Hr. destruct (H2 r Hr) as (pre & post & key & Heq & Hk & Hfresh & Hpre).
           exists (r0 :: pre), post, key. split; [cbn; rewrite Heq; reflexivity|].
           split; [exact Hk|]. split; [exact Hfresh|].
           intros r' Hr'. apply elem_of_cons in Hr'. destruct Hr' as [->|Hr'];
             [|apply Hpre; exact Hr'].
           rewrite Hk0. intros [= ->]. contradiction.
      * apply bool_decide_eq_false in Hb.
        specialize (IH ({[key0]} ∪ seen) (uniq ++ [r0])%list dups).
        destruct (fold_left _ value _) as [[after uniq'] dups'].
        destruct IH as (added & H0 & H1 & H2). exists (r0 :: added).
        split; [rewrite H0, <- app_assoc; reflexivity|]. split.
        -- intros [|p pre] r post key Heq Hk Hfresh Hpre; cbn in Heq;
             injection Heq as -> Heq; [left|right].
           eapply H1; [exact Heq|exact Hk| |].
           ++ assert (key <> key0) as Hne.
              { intros ->. apply (Hpre p); [left|exact Hk0]. }
              set_solver.
           ++ intros r' Hr'. apply Hpre. right. exact Hr'.
        -- intros r Hr. apply elem_of_cons in Hr. destruct Hr as [->|Hr].
           ++ exists [], value, key0. split; [reflexivity|]. split; [exact Hk0|].
              split; [exact Hb|]. intros r' Hr'. inversion Hr'.
           ++ destruct (H2 r Hr) as (pre & post & key & Heq & Hk & Hfresh & Hpre).
              exists (r0 :: pre), post, key. split; [cbn; rewrite Heq; reflexivity|].
              split; [exact Hk|]. split; [set_solver|].
              intros r' Hr'. apply elem_of_cons in Hr'. destruct Hr' as [->|Hr'];
                [|apply Hpre; exact Hr'].
              rewrite Hk0. intros [= ->]. set_solver.
    + specialize (IH seen uniq (dups + 1)).
      destruct (fold_left _ value _) as [[after uniq'] dups'].
      destruct IH as (added & H0 & H1 & H2). exists added.
      split; [exact H0|]. split.
      * intros [|p pre] r post key Heq Hk Hfresh Hpre; cbn in Heq;
          injection Heq as -> Heq.
        -- congruence.
        -- eapply H1; [exact Heq|exact Hk|exact Hfresh|].
           intros r' Hr'. apply Hpre. right. exact Hr'.
      * intros r Hr. destruct (H2 r Hr) as (pre & post & key & Heq & Hk & Hfresh & Hpre).
        exists (r0 :: pre), post, key. split; [cbn; rewrite Heq; reflexivity|].
        split; [exact Hk|]. split; [exact Hfresh|].
        intros r' Hr'. apply elem_of_cons in Hr'. destruct Hr' as [->|Hr'];
          [|apply Hpre; exact Hr'].
        rewrite Hk0. discriminate.
Qed.

(** X5: the dedup loop keeps, in the order received, the first record of
    each identity that is not yet in the set, and nothing else: a record is
    kept exactly when it is keyed, its identity was not in the set before,
    and no record before it in the page has the same identity.  So the
    identities of the records kept are pairwise distinct and were not in the
    set before, the set grows by exactly the number of records kept, and
    afterwards it holds the identity of every keyed record of the page, so
    that the same page received again is all duplicates and gives the
    upserter nothing. *)
Theorem dedupe_keeps_first_of_each_identity (k : kind) (value : list raw)
    (seen : gset string) :
  let '(after, uniqueRecords, duplicatesInBatch) := dedupe k value seen in
  NoDup (omap (record_key k) uniqueRecords) /\
  (forall key, key ∈ omap (record_key k) uniqueRecords -> key ∉ seen) /\
  uniqueRecords `sublist_of` value /\
  size after = (size seen + length uniqueRecords)%nat /\
  (forall r key, r ∈ value -> record_key k r = Some key -> key ∈ after) /\
  dedupe k value after = (after, [], len value) /\
  (forall pre r post key,
     value = (pre ++ r :: post)%list -> record_key k r = Some key -> key ∉ seen ->
     (forall r', r' ∈ pre -> record_key k r' <> Some key) ->
     r ∈ uniqueRecords) /\
  (forall r, r ∈ uniqueRecords ->
     exists pre post key,
       value = (pre ++ r :: post)%list /\ record_key k r = Some key /\ (key ∉ seen) /\
       (forall r', r' ∈ pre -> record_key k r' <> Some key)).
Proof.
  pose proof (dedupe_fold_fresh k value seen [] 0) as HF.
  pose proof (dedupe_fold_seen k value seen [] 0) as HS.
  pose proof (dedupe_fold_first k value seen [] 0) as H1st. unfold dedupe.
  destruct (fold_left (dedupe_step k) value (seen, [], 0)) as [[after uniq] dups].
  destruct HF as (added & H0 & H1 & H2 & H3 & H4 & H5 & H6).
  destruct HS as (added' & H0' & Hafter & _).
  destruct H1st as (added'' & H0'' & Hin & Hout).
  cbn in H0, H0', H0''. subst added added' added''.
  repeat split; try assumption.
  - rewrite Hafter. rewrite size_union.
    + rewrite size_list_to_set by exact H1. rewrite omap_keys_length by exact H3.
      reflexivity.
    + intros x Hx Hin'. apply elem_of_list_to_set in Hin'. exact (H2 x Hin' Hx).
  - rewrite (dedupe_all_seen k value after H6). reflexivity.
Qed.

(** ** Identities of records *)

Lemma string_app_assoc (a b c : string) : (a +:+ b) +:+ c = a +:+ (b +:+ c).
Proof.
  induction a as [|x a IH]; [reflexivity|].
  change (String x ((a +:+ b) +:+ c) = String x (a +:+ (b +:+ c))). f_equal. exact IH.
Qed.

Lemma string_app_nil (a b : string) : a +:+ b = "" -> a = "" /\ b = "".
Proof. destruct a; cbn; [auto|discriminate]. Qed.

Lemma truthy_str_Some (s : string) : truthy_str (Some s) = true <-> s <> "".
Proof.
  cbn. destruct (String.eqb_spec s ""); cbn; split; congruence.
Qed.

Lemma no_underscore_cons c s :
  no_underscore (String c s) = true -> c <> "_"%char /\ no_underscore s = true.
Proof.
  unfold no_underscore. cbn [includes String.prefix].
  destruct (ascii_dec "_" c) as [<-|Hne]; cbn.
  - destruct s; cbn; discriminate.
  - intros H. split; [congruence|exact H].
Qed.

Lemma append_sep_inj (a a' b b' : string) :
  no_underscore a = true -> no_underscore a' = true ->
  a +:+ "_" +:+ b = a' +:+ "_" +:+ b' -> a = a' /\ b = b'.
Proof.
  revert a'. induction a as [|c a IH]; intros [|c' a'] Ha Ha' Heq.
  - change (String "_" b = String "_" b') in Heq. injection Heq as Heq. auto.
  - change (String "_" b = String c' (a' +:+ "_" +:+ b')) in Heq.
    injection Heq as Hc _. apply no_underscore_cons in Ha'. destruct Ha'. congruence.
  - change (String c (a +:+ "_" +:+ b) = String "_" b') in Heq.
    injection Heq as Hc _. apply no_underscore_cons in Ha. destruct Ha. congruence.
  - change (String c (a +:+ "_" +:+ b) = String c' (a' +:+ "_" +:+ b')) in Heq.
    injection Heq as Hc Heq. apply no_underscore_cons in Ha, Ha'.
    destruct (IH a' (proj2 Ha) (proj2 Ha') Heq) as [-> ->]. subst. auto.
Qed.

(** X6: the identity under which a record enters the dedup set.  For a
    listing it is [ListingKey] itself, so two listings share it only when
    their keys are equal.  For media it is the text
    [ResourceRecordKey_MediaKey]: two media records whose
    [ResourceRecordKey] holds no underscore share it only when both keys are
    equal, but with an underscore in the keys two different pairs can give
    the same text ([a_b] with [c], and [a] with [b_c]), and the second
    record is then dropped as a duplicate. *)
Theorem record_identity (seen : gset string) (uniq : list raw) (dups : Z) :
  (forall r r' key,
     record_key Listing r = Some key -> record_key Listing r' = Some key ->
     ListingKey r = ListingKey r') /\
  (forall r r' key,
     record_key Media r = Some key -> record_key Media r' = Some key ->
     no_underscore (default "" (ResourceRecordKey r)) = true ->
     no_underscore (default "" (ResourceRecordKey r')) = true ->
     ResourceRecordKey r = ResourceRecordKey r' /\ MediaKey r = MediaKey r') /\
  (forall r r' a b c,
     a <> "" -> c <> "" ->
     ResourceRecordKey r = Some (a +:+ "_" +:+ b) -> MediaKey r = Some c ->
     ResourceRecordKey r' = Some a -> MediaKey r' = Some (b +:+ "_" +:+ c) ->
     exists key,
       record_key Media r = Some key /\ record_key Media r' = Some key /\
       dedupe_step Media (dedupe_step Media (seen, uniq, dups) r) r'
         = (let '(s, u, d) := dedupe_step Media (seen, uniq, dups) r in (s, u, d + 1))).
Proof.
  split; [|split].
  - intros r r' key. unfold record_key.
    destruct (truthy_str (ListingKey r)); [|discriminate].
    destruct (truthy_str (ListingKey r')); [|discriminate]. congruence.
  - intros r r' key. unfold record_key.
    destruct (truthy_str (ResourceRecordKey r) && truthy_str (MediaKey r)) eqn:H1;
      [|discriminate].
    destruct (truthy_str (ResourceRecordKey r') && truthy_str (MediaKey r')) eqn:H2;
      [|discriminate].
    apply andb_true_iff in H1, H2. destruct H1 as [H1 H1'], H2 as [H2 H2'].
    destruct (ResourceRecordKey r) as [a|], (MediaKey r) as [b|],
             (ResourceRecordKey r') as [a'|], (MediaKey r') as [b'|];
      try discriminate.
    cbn [default]. intros [= <-] [= Heq] Ha Ha'.
    symmetry in Heq. destruct (append_sep_inj a a' b b' Ha Ha' Heq) as [-> ->]. auto.
  - intros r r' a b c Ha Hc Hr1 Hr2 Hr1' Hr2'.
    assert (Hk : record_key Media r = Some ((a +:+ "_" +:+ b) +:+ "_" +:+ c)).
    { unfold record_key. rewrite Hr1, Hr2. cbn [default].
      rewrite (proj2 (truthy_str_Some _)), (proj2 (truthy_str_Some c) Hc); [reflexivity|].
      intros H. apply string_app_nil in H. tauto. }
    assert (Hk' : record_key Media r' = Some ((a +:+ "_" +:+ b) +:+ "_" +:+ c)).
    { unfold record_key. rewrite Hr1', Hr2'. cbn [default].
      rewrite (proj2 (truthy_str_Some a) Ha), (proj2 (truthy_str_Some _)).
      - cbn [andb]. rewrite string_app_assoc. reflexivity.
      - intros H. apply string_app_nil in H. destruct H as [_ H]. discriminate. }
    eexists. split; [exact Hk|]. split; [exact Hk'|].
    unfold dedupe_step at 2 3. rewrite Hk.
    destruct (bool_decide (_ ∈ seen)) eqn:Hb.
    + unfold dedupe_step. rewrite Hk', Hb. reflexivity.
    + unfold dedupe_step. rewrite Hk'.
      rewrite bool_decide_eq_true_2 by set_solver. reflexivity.
Qed.

(** ** The batch upserter and the sync log *)
Section StoreFacts.
Context {W : Type} (E : @env W) (cfg : config).

Lemma len_cons_nonzero {A} (x : A) (l : list A) : (len (x :: l) =? 0) = false.
Proof. unfold len. cbn [length]. apply Z.eqb_neq. lia. Qed.

(** X7: [upsertBatch] on an empty batch returns 0 and touches nothing, even
    before the client is initialised; on a batch with rows it throws
    "Database not initialized" without a round trip when there is no
    client, and otherwise makes exactly one round trip: an error of the
    database is thrown as it is, and the count returned is never 0, being the
    number of rows the database answers with or, when it answers with none,
    the number of rows sent. *)
Theorem upsertBatch_contract (tableName : string) (records : list row)
    (conflictColumns : list string) (s : state) :
  (records = [] -> upsertBatch E tableName records conflictColumns s = (Ok 0, s)) /\
  (records <> [] -> supabase s = false ->
   upsertBatch E tableName records conflictColumns s = (Throw not_initialized, s)) /\
  (records <> [] -> supabase s = true ->
   let '(reply, w) := sb_upsert E tableName records conflictColumns (world s) in
   let s' := {| world := w; supabase := true; sets := sets s;
                log := (log s ++ [EvUpsert tableName records])%list |} in
   match sb_error reply with
   | Some error => upsertBatch E tableName records conflictColumns s = (Throw error, s')
   | None =>
       exists n,
         upsertBatch E tableName records conflictColumns s = (Ok n, s') /\
         1 <= n /\
         n = match sb_data reply with
             | Some ((_ :: _) as data) => len data
             | _ => len records
             end
   end).
Proof.
  split; [|split].
  - intros ->. reflexivity.
  - intros Hne Hs. unfold upsertBatch.
    destruct records as [|r records]; [congruence|].
    rewrite len_cons_nonzero. unfold bind, get. rewrite Hs. reflexivity.
  - intros Hne Hs. unfold upsertBatch.
    destruct records as [|r records]; [congruence|].
    rewrite len_cons_nonzero. unfold bind, get. rewrite Hs. cbn [negb].
    destruct (sb_upsert E tableName (r :: records) conflictColumns (world s)) as [reply w].
    rewrite ?Hs.
    destruct (sb_error reply) as [e|]; [reflexivity|].
    eexists. split; [reflexivity|].
    destruct (sb_data reply) as [[|x d]|]; rewrite ?len_cons_nonzero;
      change (len (@nil row) =? 0) with true; cbn [Z.eqb];
      (split; [unfold len; cbn [length]; lia|reflexivity]).
Qed.

(** X8: a run without a stored checkpoint is a full run.  When the sync
    log has no time stamp for the resource, [--incremental] changes nothing
    after the look-up: the media run takes the date-partitioned walk, and a
    listings run pages without a filter, exactly as without the flag. *)
Theorem incremental_without_checkpoint_is_full (s s1 : state) :
  (getSyncLog E "MEDIA" s = (Ok None, s1) ->
   IDX_TOKEN cfg <> None -> IDX_TOKEN cfg <> Some "" ->
   fetchMediaRecords E cfg true s = fetchMediaRecords E cfg false s1) /\
  (forall label tokenVar baseUrl expectedRecords,
     getSyncLog E label s = (Ok None, s1) ->
     nonempty_token tokenVar <> None ->
     fetchProperties E cfg label tokenVar baseUrl expectedRecords true s =
     fetchProperties E cfg label tokenVar baseUrl expectedRecords false s1).
Proof.
  split.
  - intros Hget Ht1 Ht2. unfold fetchMediaRecords.
    destruct (IDX_TOKEN cfg) as [token|]; [|congruence].
    destruct (String.eqb_spec token ""); [congruence|].
    unfold bind at 1 2. rewrite Hget. reflexivity.
  - intros label tokenVar baseUrl expectedRecords Hget Ht. unfold fetchProperties.
    destruct (nonempty_token tokenVar) as [token|]; [|congruence].
    unfold bind at 1 2. rewrite Hget. reflexivity.
Qed.

End StoreFacts.

(** ** The coordinator *)
Section CoordinatorFacts.
Context {W : Type} (E : @env W) (cfg : config).

(** X9: the coordinator keeps errors in.  Without [--fail-fast] a resource
    run never makes [processProperties] or [processMedia] throw; a run that
    returns makes them return whatever happens to the checkpoint write; and
    a run that throws is rethrown, as it is, under [--fail-fast] only. *)
Theorem process_contains_errors (label : string) (fetchFn : bool -> M (@state W) run_result)
    (s : state) :
  (flag_failFast cfg = false -> fst (process E cfg label fetchFn s) = Ok tt) /\
  (forall res s1, fetchFn (flag_incremental cfg) s = (Ok res, s1) ->
                  fst (process E cfg label fetchFn s) = Ok tt) /\
  (forall e s1, fetchFn (flag_incremental cfg) s = (Throw e, s1) ->
                process E cfg label fetchFn s =
                (if flag_failFast cfg then Throw e else Ok tt, s1)).
Proof.
  assert (Hok : forall res s1, fetchFn (flag_incremental cfg) s = (Ok res, s1) ->
                               fst (process E cfg label fetchFn s) = Ok tt).
  { intros res s1 Hf. unfold process, try_catch, bind. rewrite Hf.
    destruct (r_latest res) as [t|]; [|reflexivity].
    destruct (updateSyncLog E label (Some t) s1) as [[[]|e] s2]; reflexivity. }
  split; [|split; [exact Hok|]].
  - intros Hff. destruct (fetchFn (flag_incremental cfg) s) as [[res|e] s1] eqn:Hf.
    + eapply Hok; eauto.
    + unfold process, try_catch, bind. rewrite Hf, Hff. reflexivity.
  - intros e s1 Hf. unfold process, try_catch, bind. rewrite Hf.
    destruct (flag_failFast cfg); reflexivity.
Qed.

Lemma no_checkpoint_write_rows k n uniq :
  no_checkpoint_write (EvUpsert (table_of k) (map (map_row k n) uniq)).
Proof. cbn. destruct k; discriminate. Qed.

(** X10: the checkpoint is written by the coordinator alone, once, after
    the run.  No run of a resource (MEDIA, IDX or VOW, full or incremental)
    writes to [sync_log], whether it returns or throws; the coordinator adds
    to the log of the run one write carrying the run's latest time stamp
    when the run returned one and the client is initialised, and nothing
    when the run threw or returned no time stamp. *)
Theorem checkpoint_written_once_after_the_run (s : state) :
  Forall no_checkpoint_write (log s) ->
  (forall incremental,
     Forall no_checkpoint_write (log (snd (fetchMediaRecords E cfg incremental s))) /\
     Forall no_checkpoint_write (log (snd (fetchIDXProperties E cfg incremental s))) /\
     Forall no_checkpoint_write (log (snd (fetchVOWProperties E cfg incremental s)))) /\
  (forall label fetchFn,
     log (snd (process E cfg label fetchFn s)) =
     (log (snd (fetchFn (flag_incremental cfg) s)) ++
      match fst (fetchFn (flag_incremental cfg) s) with
      | Ok res =>
          match r_latest res with
          | Some t =>
              if supabase (snd (fetchFn (flag_incremental cfg) s))
              then [EvUpsert "sync_log"
                      [SyncLogRow {| resourcetype := label;
                                     lastprocessedtimestamp := Some t;
                                     updatedat :=
                                       clock E (world (snd (fetchFn (flag_incremental cfg) s))) |}]]
              else []
          | None => []
          end
      | Throw _ => []
      end)%list).
Proof.
  intros Hs. split.
  - intros incremental.
    assert (Hp : forall rq r, no_checkpoint_write (EvPage rq r)) by (intros; exact I).
    assert (Hsl : forall k f r, no_checkpoint_write (EvSlice k f r)) by (intros; exact I).
    assert (Hr : forall k n uniq, Forall (fun r => record_key k r <> None) uniq ->
                   no_checkpoint_write (EvUpsert (table_of k) (map (map_row k n) uniq)))
      by (intros; apply no_checkpoint_write_rows).
    repeat split;
      (eapply (inv_of_hoare no_checkpoint_write (fun _ => True));
       [|  |exact Hs|apply pageok_any; auto]).
    + apply grows_fetchMediaRecords.
    + eapply (hoare_fetchMediaRecords E cfg no_checkpoint_write (fun _ => True)
                (fun _ => True)); auto.
    + apply grows_fetchProperties.
    + eapply (hoare_fetchProperties E cfg no_checkpoint_write (fun _ => True)
                (fun _ => True)); auto.
    + apply grows_fetchProperties.
    + eapply (hoare_fetchProperties E cfg no_checkpoint_write (fun _ => True)
                (fun _ => True)); auto.
  - intros label fetchFn. unfold process, try_catch, bind.
    destruct (fetchFn (flag_incremental cfg) s) as [[res|e] s1]; cbn [fst snd].
    + destruct (r_latest res) as [t|]; [|cbn; rewrite app_nil_r; reflexivity].
      unfold updateSyncLog, bind, get, now.
      destruct (supabase s1); cbn; [|rewrite app_nil_r; reflexivity].
      destruct (sb_upsert E "sync_log" _ _ (world s1)) as [reply w].
      destruct (sb_error reply); reflexivity.
    + destruct (flag_failFast cfg); cbn; rewrite app_nil_r; reflexivity.
Qed.

(** X11: a deferred week whose drill-down fails does not stop the run.
    Processing the skipped weeks never throws; a week whose daily drill-down
    throws adds nothing to the totals and the next week is processed from
    the state the failure left. *)
Theorem skipped_weeks_never_abort (weeks : list (Z * Z * Z)) (token : string) (seen : nat) :
  (forall t s, exists t', fst (skipped_loop E cfg weeks token seen t s) = Ok t') /\
  (forall startDate endDate found t s e s1,
     fetchMediaDailyInRange E cfg token startDate endDate seen s = (Throw e, s1) ->
     skipped_loop E cfg ((startDate, endDate, found) :: weeks) token seen t s =
     skipped_loop E cfg weeks token seen t s1).
Proof.
  split.
  - induction weeks as [|[[startDate endDate] found] weeks IH]; intros t s;
      cbn [skipped_loop]; [eexists; reflexivity|].
    unfold bind at 1, try_catch, bind at 1.
    destruct (fetchMediaDailyInRange E cfg token startDate endDate seen s) as [[d|e] s1];
      cbn; apply IH.
  - intros startDate endDate found t s e s1 Hd. cbn [skipped_loop].
    unfold bind at 1, try_catch, bind at 1. rewrite Hd. reflexivity.
Qed.

End CoordinatorFacts.

(** ** The command line *)
Section MainFacts.
Context {W : Type} (E : @env W) (cfg : config).

Lemma initializeDatabase_log d (s : @state W) :
  log (snd (initializeDatabase d s)) = log s.
Proof.
  unfold initializeDatabase, bind, get, set_supabase, modify.
  destruct (supabase s).
  - cbn. destruct (connection_test d (world s)) as [[[e|]|e] w]; reflexivity.
  - destruct (nonempty_token (SUPABASE_URL d)); [|reflexivity].
    destruct (nonempty_token (SUPABASE_SERVICE_ROLE_KEY d)); [|reflexivity].
    cbn. destruct (connection_test d (world s)) as [[[e|]|e] w]; reflexivity.
Qed.

(** X12: [main] never throws, and it calls [process.exit(1)] under
    [--fail-fast] only; when [initializeDatabase] fails nothing is fetched.
    The three [-only] flags exclude each other's resources, so with two of
    them on the command line [main] initialises the database and syncs
    nothing at all, while [getMode] still announces the first of them in
    the order IDX, VOW, MEDIA: "IDX Only" when [--idx-only] is one of the
    two, "VOW Only" otherwise. *)
Theorem main_exit_and_flags (d : db_setup) (f : only_flags) (s : state) :
  (exists status, fst (main E cfg d f s) = Ok status /\
                  (flag_failFast cfg = false -> status = None)) /\
  (forall e s1, initializeDatabase d s = (Throw e, s1) ->
                main E cfg d f s =
                (Ok (if flag_failFast cfg then Some 1 else None), s1) /\
                log s1 = log s) /\
  ((idxOnly f && vowOnly f) || (idxOnly f && mediaOnly f) || (vowOnly f && mediaOnly f)
     = true ->
   log (snd (main E cfg d f s)) = log s /\
   getMode f = (if idxOnly f then "IDX Only" else "VOW Only")).
Proof.
  split; [|split].
  - unfold main, try_catch, bind, ret.
    destruct (initializeDatabase d s) as [[[]|e] s1];
      [|destruct (flag_failFast cfg); eexists; (split; [reflexivity|congruence])].
    do 3 (match goal with
          | |- context [(if ?b then ?a else ?c) ?st] =>
              destruct ((if b then a else c) st) as [[[]|?] ?];
              [|destruct (flag_failFast cfg); eexists; (split; [reflexivity|congruence])]
          end).
    eexists; split; reflexivity.
  - intros e s1 Hi. split.
    + unfold main, try_catch, bind. rewrite Hi. destruct (flag_failFast cfg); reflexivity.
    + pose proof (initializeDatabase_log d s) as Hl. rewrite Hi in Hl. exact Hl.
  - intros Hf. split.
    + pose proof (initializeDatabase_log d s) as Hl.
      unfold main, try_catch, bind.
      destruct (initializeDatabase d s) as [[[]|e] s1]; cbn [snd] in Hl.
      * destruct (idxOnly f), (vowOnly f), (mediaOnly f); try discriminate Hf; exact Hl.
      * destruct (flag_failFast cfg); exact Hl.
    + unfold getMode.
      destruct (idxOnly f), (vowOnly f), (mediaOnly f); try discriminate Hf; reflexivity.
Qed.

End MainFacts.

(** ** The HTTP client in general *)
Section ClientFacts.
Import FetchFeed.
Context {W : Type} (env : @net_env W).

Lemma retry_loop_schedule (c : ApiClient) url :
  forall n attempt lastError s,
    attempt + Z.of_nat n = retryAttempts c + 1 ->
    exists tr m,
      net_log (snd (retry_loop env c url n attempt lastError s)) = (net_log s ++ tr)%list /\
      requests tr = repeat {| req_url := url; req_headers := headers_of c |} m /\
      sleeps tr = map (fun i => retryDelay c * 2 ^ (attempt - 1 + Z.of_nat i))
                      (seq 0 (m - 1)) /\
      match fst (retry_loop env c url n attempt lastError s) with
      | Ok _ => (1 <= m <= n)%nat
      | Throw _ => m = n
      end.
Proof.
  induction n as [|n IH]; intros attempt lastError s Hn.
  - exists [], 0%nat. cbn. rewrite app_nil_r. auto.
  - cbn [retry_loop]. unfold bind, do_fetch.
    destruct (net_fetch env _ (net_world s)) as [o w1].
    destruct (settle url o) as [data|error].
    + exists [EvRequest {| req_url := url; req_headers := headers_of c |}], 1%nat.
      cbn. repeat split; lia.
    + destruct (attempt <? retryAttempts c) eqn:Hlt.
      * unfold sleep.
        match goal with |- context [retry_loop env c url n ?a ?l ?st] =>
          destruct (IH a l st) as (tr & m & Hlog & Hrq & Hsl & Hres); [lia|] end.
        assert (1 <= m)%nat as Hm.
        { destruct (fst _); [lia|]. subst m. apply Z.ltb_lt in Hlt. lia. }
        exists (EvRequest {| req_url := url; req_headers := headers_of c |}
                :: EvSleep (retryDelay c * 2 ^ (attempt - 1)) :: tr), (S m).
        split; [|split; [|split]].
        -- rewrite Hlog. cbn. rewrite <- !app_assoc. reflexivity.
        -- cbn. unfold requests in Hrq. rewrite Hrq. reflexivity.
        -- cbn [sleeps omap list_omap]. unfold sleeps in Hsl. cbn. rewrite Hsl.
           replace (m - 0)%nat with (S (m - 1)) by lia.
           cbn [seq map]. f_equal; [f_equal; f_equal; lia|].
           rewrite <- seq_shift, map_map. apply map_ext. intros i. f_equal. f_equal. lia.
        -- destruct (fst _); lia.
      * apply Z.ltb_ge in Hlt. assert (n = 0%nat) as -> by lia.
        exists [EvRequest {| req_url := url; req_headers := headers_of c |}], 1%nat.
        cbn. repeat split; lia.
Qed.

(** X13: the retry loop of [ApiClient] for any [retryAttempts] and
    [retryDelay].  A call makes [m] requests, all of them the same GET with
    the client's bearer token, and sleeps between consecutive ones only, for
    [retryDelay * 2^i] ms after the failure number [i + 1]; it resolves only
    after a request that succeeded ([1 <= m <= retryAttempts]) and rejects
    only after [retryAttempts] requests.  With [retryAttempts <= 0] it makes
    no request and rejects with [undefined]. *)
Theorem retry_schedule (c : ApiClient) (url : string) (s : net_state) :
  (exists tr m,
     net_log (snd (fetchWithRetry env c url s)) = (net_log s ++ tr)%list /\
     requests tr = repeat {| req_url := url; req_headers := headers_of c |} m /\
     sleeps tr = map (fun i => retryDelay c * 2 ^ Z.of_nat i) (seq 0 (m - 1)) /\
     match fst (fetchWithRetry env c url s) with
     | Ok _ => (1 <= m <= Z.to_nat (retryAttempts c))%nat
     | Throw _ => m = Z.to_nat (retryAttempts c)
     end) /\
  (retryAttempts c <= 0 ->
   fetchWithRetry env c url s = (Throw thrown_undefined, s)).
Proof.
  split.
  - unfold fetchWithRetry.
    destruct (Z.le_gt_cases (retryAttempts c) 0) as [Hle|Hgt].
    + replace (Z.to_nat (retryAttempts c)) with 0%nat by lia.
      exists [], 0%nat. cbn. rewrite app_nil_r. auto.
    + destruct (retry_loop_schedule c url (Z.to_nat (retryAttempts c)) 1 None s)
        as (tr & m & Hlog & Hrq & Hsl & Hres); [lia|].
      exists tr, m. repeat split; assumption.
  - intros Hle. unfold fetchWithRetry.
    replace (Z.to_nat (retryAttempts c)) with 0%nat by lia. reflexivity.
Qed.

End ClientFacts.

(** ** The cap answer, from the response body to the executor *)
Section CapAnswer.
Import FetchFeed.
Context {W : Type} (env : @net_env W).

Lemma includes_app_r (a b m : string) :
  includes b m = true -> includes (a +:+ b) m = true.
Proof.
  intros H. induction a as [|c a IH]; [exact H|].
  change (String c a +:+ b) with (String c (a +:+ b)).
  cbn [includes]. rewrite IH. apply orb_true_r.
Qed.

Lemma includes_nonempty (b m : string) :
  includes b m = true -> m <> "" -> b <> "".
Proof. intros H Hm ->. cbn in H. destruct m; [congruence|discriminate]. Qed.

Lemma cap_answer_fails url r b :
  response_ok r = false -> body_text r = Some b -> includes b cap_marker = true ->
  exists e, settle url (Responded r) = Throw e /\
            includes (message e) cap_marker = true.
Proof.
  intros Hok Hb Hin. unfold settle. rewrite Hok, Hb. cbn [from_option id].
  assert (b <> "") as Hne by (eapply includes_nonempty; [exact Hin|discriminate]).
  apply String.eqb_neq in Hne. rewrite Hne.
  eexists; split; [reflexivity|]. cbn [message].
  apply includes_app_r, includes_app_r. exact Hin.
Qed.

Lemma retry_loop_all_fail (P : js_error -> Prop) c url :
  (forall rq w, exists e, settle url (fst (net_fetch env rq w)) = Throw e /\ P e) ->
  forall n attempt lastError s,
    (n = 0%nat -> exists e, lastError = Some e /\ P e) ->
    exists e s', retry_loop env c url n attempt lastError s = (Throw e, s') /\ P e.
Proof.
  intros Hfail. induction n as [|n IH]; intros attempt lastError s Hlast.
  - destruct Hlast as (e & -> & He); [reflexivity|]. exists e, s. split; [reflexivity|exact He].
  - rewrite retry_loop_unfold. cbn zeta.
    destruct (Hfail {| req_url := url; req_headers := headers_of c |} (net_world s))
      as (e & He & HP).
    destruct (net_fetch env _ (net_world s)) as [o w]. cbn [fst] in He. rewrite He.
    apply IH. intros _. exists e. auto.
Qed.

(** X14: an answer outside 2xx whose body carries the cap marker is
    treated by the client like any other failure: the page fetch asks three
    times for the same URL, then throws an error whose message still holds
    the marker, which is all the executors look for. *)
Theorem cap_answer_is_retried_then_thrown enable_orderby debug a s :
  (forall rq w, exists r b,
      fst (net_fetch env rq w) = Responded r /\ response_ok r = false /\
      body_text r = Some b /\ includes b cap_marker = true) ->
  exists e s' tr,
    fetchODataPage env enable_orderby debug a s = (Throw e, s') /\
    includes (message e) cap_marker = true /\
    net_log s' = (net_log s ++ tr)%list /\
    requests tr = repeat (request_of (page_token a) (final_url enable_orderby a)) 3 /\
    sleeps tr = [500; 1000].
Proof.
  intros Hcap. unfold fetchODataPage, bind.
  set (c := new_ApiClient (page_token a)). set (url := final_url enable_orderby a).
  destruct (retry_loop_all_fail (fun e => includes (message e) cap_marker = true)
              c url) with (n := 3%nat) (attempt := 1) (lastError := @None js_error) (s := s)
    as (e & s' & Hrun & He).
  { intros rq w. destruct (Hcap rq w) as (r & b & -> & Hok & Hb & Hin).
    eapply cap_answer_fails; eassumption. }
  { discriminate. }
  destruct (retry_loop_schedule env c url 3 1 None s) as (tr & m & Hlog & Hrq & Hsl & Hres);
    [reflexivity|].
  rewrite Hrun in Hlog, Hres. cbn [fst snd] in Hlog, Hres. subst m.
  exists e, s', tr. unfold fetchWithRetry.
  change (Z.to_nat (retryAttempts c)) with 3%nat. rewrite Hrun.
  repeat split; assumption.
Qed.

End CapAnswer.

Lemma cap_answer_is_retried_then_thrown_witness :
  exists e s' tr,
    FetchFeed.fetchODataPage Scenario.always_over_cap true false Scenario.media_args
      Scenario.fresh = (Throw e, s') /\
    includes (message e) cap_marker = true /\
    FetchFeed.net_log s' = (FetchFeed.net_log Scenario.fresh ++ tr)%list /\
    FetchFeed.requests tr =
      repeat (FetchFeed.request_of (FetchFeed.page_token Scenario.media_args)
                (FetchFeed.final_url true Scenario.media_args)) 3 /\
    FetchFeed.sleeps tr = [500; 1000].
Proof.
  apply (cap_answer_is_retried_then_thrown Scenario.always_over_cap).
  intros rq w. exists Scenario.over_cap. eexists. repeat split.
Defined.

(** ** The pages of a slice *)
Section PagingFacts.
Context {W : Type} (E : @env W) (cfg : config).

Lemma on_error_pure k f failOnLimit l error (s : @state W) :
  snd (on_error E k f failOnLimit l error s) = s /\
  match fst (on_error E k f failOnLimit l error s) with
  | Ok (l', more) => more = false /\ l_hit l' = true
  | Throw _ => True
  end.
Proof.
  unfold on_error. destruct (includes _ _); [|split; [reflexivity|exact I]].
  destruct k; [destruct failOnLimit|]; cbn; auto.
Qed.

Lemma advance_spec l n :
  0 <= n ->
  match advance cfg l n with
  | (l', true) =>
      l_skip l <= l_skip l' /\ l_skip l + BATCH_SIZE cfg <= l_skip l' < apiLimit /\
      l_hit l' = l_hit l
  | (l', false) => l_hit l' = false -> l_hit l = false /\ n < BATCH_SIZE cfg
  end.
Proof.
  intros Hn0. unfold advance. destruct (n <? BATCH_SIZE cfg) eqn:Hn.
  - apply Z.ltb_lt in Hn. intros H. split; [exact H|lia].
  - apply Z.ltb_ge in Hn. destruct (l_skip l + n >=? apiLimit) eqn:Hc; cbn; [discriminate|].
    rewrite Z.geb_leb in Hc. apply Z.leb_gt in Hc. split; [lia|]. split; [lia|reflexivity].
Qed.

Lemma upsertBatch_events table rows conflict (s : @state W) :
  exists ups, log (snd (upsertBatch E table rows conflict s)) = (log s ++ ups)%list /\
              pages ups = [] /\ slice_returns ups = [].
Proof.
  unfold upsertBatch. destruct (len rows =? 0).
  { exists []. cbn. rewrite app_nil_r. auto. }
  unfold bind, get. destruct (negb (supabase s)).
  { exists []. cbn. rewrite app_nil_r. auto. }
  destruct (sb_upsert E table rows conflict (world s)) as [reply w].
  exists [EvUpsert table rows].
  destruct (sb_error reply); cbn; auto.
Qed.

Lemma page_step_events k baseUrl token f seen failOnLimit l (s : @state W) :
  let rq := {| rq_baseUrl := baseUrl; rq_token := token; rq_top := BATCH_SIZE cfg;
               rq_skip := l_skip l; rq_filter := f |} in
  exists reply ups,
    log (snd (page_step E cfg k baseUrl token f seen failOnLimit l s)) =
      (log s ++ EvPage rq reply :: ups)%list /\
    pages ups = [] /\ slice_returns ups = [] /\
    match fst (page_step E cfg k baseUrl token f seen failOnLimit l s) with
    | Ok (l', true) =>
        l_skip l <= l_skip l' /\ l_skip l + BATCH_SIZE cfg <= l_skip l' < apiLimit /\
        l_hit l' = l_hit l
    | Ok (l', false) =>
        l_hit l' = false ->
        l_hit l = false /\ exists value, reply = Ok value /\ len value < Z.max 1 (BATCH_SIZE cfg)
    | Throw _ => True
    end.
Proof.
  intros rq. unfold page_step, bind, reify, fetch_page. fold rq.
  destruct (odata_page E rq (world s)) as [[value|error] w].
  - destruct (len value =? 0) eqn:Hlen.
    { exists (Ok value), []. cbn. repeat split; try reflexivity; eauto.
      exists value. split; [reflexivity|]. apply Z.eqb_eq in Hlen. lia. }
    unfold read_set. destruct (dedupe k value _) as [[after uniqueRecords] dups].
    unfold write_set, modify. cbn [fst snd].
    destruct (len uniqueRecords >? 0).
    + unfold now.
      match goal with |- context [upsertBatch E ?t ?r ?c ?st] =>
        destruct (upsertBatch_events t r c st) as (ups & Hlog & Hp & Hs);
        destruct (upsertBatch E t r c st) as [[upsertedCount|error] s3] end;
        cbn [snd log] in Hlog.
      * exists (Ok value), ups. unfold ret. cbn [fst snd]. rewrite Hlog.
        split; [rewrite <- app_assoc; reflexivity|]. split; [exact Hp|]. split; [exact Hs|].
        match goal with |- context [advance cfg ?l1 ?n] =>
          pose proof (advance_spec l1 n ltac:(unfold len; lia)) as Ha; destruct (advance cfg l1 n) as [l' [|]] end;
          cbn in Ha; [exact Ha|].
        intros Hh. destruct (Ha Hh) as [H1 H2]. split; [exact H1|].
        exists value. split; [reflexivity|lia].
      * match goal with |- context [on_error E k f failOnLimit ?l1 error s3] =>
          destruct (on_error_pure k f failOnLimit l1 error s3) as [Hsame Hres];
          destruct (on_error E k f failOnLimit l1 error s3) as [[[l' more]|e] s4] end;
          cbn [fst snd] in *; subst s4; exists (Ok value), ups; rewrite Hlog;
          (split; [rewrite <- app_assoc; reflexivity|]); (split; [exact Hp|]);
          (split; [exact Hs|]); [|exact I].
        destruct Hres as [-> Hh]. intros Hf. congruence.
    + exists (Ok value), []. unfold ret. cbn [fst snd log].
      split; [reflexivity|]. split; [reflexivity|]. split; [reflexivity|].
      match goal with |- context [advance cfg ?l1 ?n] =>
        pose proof (advance_spec l1 n ltac:(unfold len; lia)) as Ha; destruct (advance cfg l1 n) as [l' [|]] end;
        cbn in Ha; [exact Ha|].
      intros Hh. destruct (Ha Hh) as [H1 H2]. split; [exact H1|].
      exists value. split; [reflexivity|lia].
  - match goal with |- context [on_error E k f failOnLimit l error ?st] =>
      destruct (on_error_pure k f failOnLimit l error st) as [Hsame Hres];
      destruct (on_error E k f failOnLimit l error st) as [[[l' more]|e] s4] end;
      cbn [fst snd] in *; subst s4; exists (Throw error), []; cbn [log];
      (split; [reflexivity|]); (split; [reflexivity|]); (split; [reflexivity|]); [|exact I].
    destruct Hres as [-> Hh]. intros Hf. congruence.
Qed.

Lemma page_requests_pages (l : list event) : page_requests l = map fst (pages l).
Proof.
  induction l as [|e l IH]; [reflexivity|].
  unfold page_requests, pages in *.
  destruct e; cbn [omap list_omap map fst]; congruence.
Qed.

Lemma stepped_bound B L : 1 <= B ->
  forall skips x, stepped B (x :: skips) -> Forall (fun y => y < L) (x :: skips) ->
                  x + len skips * B < L.
Proof.
  intros HB. unfold len. induction skips as [|y skips IH]; intros x Hs HL.
  - apply Forall_cons in HL. cbn. lia.
  - cbn [stepped] in Hs. destruct Hs as [Hxy Hs].
    apply Forall_cons in HL. destruct HL as [_ HL].
    specialize (IH y Hs HL). cbn [length]. nia.
Qed.

Lemma slice_loop_events k baseUrl token f seen failOnLimit :
  forall n l (s : @state W),
    l_skip l < apiLimit ->
    exists tr,
      log (snd (slice_loop E cfg n k baseUrl token f seen failOnLimit l s)) =
        (log s ++ tr)%list /\
      slice_returns tr = [] /\
      Forall (fun p => fst p = {| rq_baseUrl := baseUrl; rq_token := token;
                                  rq_top := BATCH_SIZE cfg; rq_skip := rq_skip (fst p);
                                  rq_filter := f |} /\
                       l_skip l <= rq_skip (fst p) < apiLimit) (pages tr) /\
      stepped (BATCH_SIZE cfg) (map (fun p => rq_skip (fst p)) (pages tr)) /\
      match pages tr with [] => n = 0%nat | p :: _ => rq_skip (fst p) = l_skip l end /\
      match fst (slice_loop E cfg n k baseUrl token f seen failOnLimit l s) with
      | Ok l' =>
          l_hit l' = false ->
          l_hit l = false /\
          exists rq value, last (pages tr) = Some (rq, Ok value) /\
                           len value < Z.max 1 (BATCH_SIZE cfg)
      | Throw _ => True
      end.
Proof.
  induction n as [|n IH]; intros l s Hl.
  - exists []. cbn. rewrite app_nil_r. repeat split; constructor.
  - cbn [slice_loop].
    replace (apiLimit - l_skip l <=? 0) with false by (symmetry; apply Z.leb_gt; lia).
    rewrite andb_false_r. unfold bind.
    destruct (page_step_events k baseUrl token f seen failOnLimit l s)
      as (reply & ups & Hlog & Hp & Hs & Hres).
    destruct (page_step E cfg k baseUrl token f seen failOnLimit l s) as [[[l1 more]|e] s1];
      cbn [fst snd] in *.
    + destruct more.
      * destruct Hres as (Hmono & Hstep & Hhit).
        destruct (IH l1 s1) as (tr & Hlog' & Hs' & Hall & Hst & Hhd & Hfin); [lia|].
        exists (EvPage {| rq_baseUrl := baseUrl; rq_token := token;
                          rq_top := BATCH_SIZE cfg; rq_skip := l_skip l; rq_filter := f |}
                       reply :: ups ++ tr)%list.
        split; [rewrite Hlog', Hlog, <- app_assoc; reflexivity|].
        split; [cbn [slice_returns omap list_omap]; unfold slice_returns in *;
                rewrite omap_app, Hs, Hs'; reflexivity|].
        assert (pages (EvPage {| rq_baseUrl := baseUrl; rq_token := token;
                                 rq_top := BATCH_SIZE cfg; rq_skip := l_skip l;
                                 rq_filter := f |} reply :: ups ++ tr) =
                ({| rq_baseUrl := baseUrl; rq_token := token;
                    rq_top := BATCH_SIZE cfg; rq_skip := l_skip l;
                    rq_filter := f |}, reply) :: pages tr) as ->.
        { cbn [pages omap list_omap]. unfold pages in *. rewrite omap_app, Hp. reflexivity. }
        split; [constructor; [cbn; split; [reflexivity|lia]|];
                eapply Forall_impl; [exact Hall|]; cbn; intros p [H1 H2]; split; [exact H1|lia]|].
        split; [cbn [map stepped]; split; [|exact Hst];
                destruct (pages tr) as [|p ps]; [exact I|cbn; rewrite Hhd; lia]|].
        split; [reflexivity|].
        destruct (fst (slice_loop E cfg n k baseUrl token f seen failOnLimit l1 s1));
          [|exact I].
        intros Hh. destruct (Hfin Hh) as (Hh1 & rq & value & Hlast & Hlen).
        split; [congruence|]. exists rq, value. split; [|exact Hlen].
        rewrite last_cons, Hlast. reflexivity.
      * exists (EvPage {| rq_baseUrl := baseUrl; rq_token := token;
                          rq_top := BATCH_SIZE cfg; rq_skip := l_skip l; rq_filter := f |}
                       reply :: ups)%list.
        split; [exact Hlog|]. split; [exact Hs|].
        assert (pages (EvPage {| rq_baseUrl := baseUrl; rq_token := token;
                                 rq_top := BATCH_SIZE cfg; rq_skip := l_skip l;
                                 rq_filter := f |} reply :: ups) =
                [({| rq_baseUrl := baseUrl; rq_token := token;
                     rq_top := BATCH_SIZE cfg; rq_skip := l_skip l;
                     rq_filter := f |}, reply)]) as ->.
        { cbn [pages omap list_omap]. unfold pages in *. rewrite Hp. reflexivity. }
        split; [constructor; [cbn; split; [reflexivity|lia]|constructor]|].
        split; [cbn; auto|]. split; [reflexivity|].
        cbn [ret fst]. intros Hh. destruct (Hres Hh) as (Hh1 & value & -> & Hlen).
        split; [exact Hh1|]. eexists _, value. split; [reflexivity|exact Hlen].
    + exists (EvPage {| rq_baseUrl := baseUrl; rq_token := token;
                        rq_top := BATCH_SIZE cfg; rq_skip := l_skip l; rq_filter := f |}
                     reply :: ups)%list.
      split; [exact Hlog|]. split; [exact Hs|].
      assert (pages (EvPage {| rq_baseUrl := baseUrl; rq_token := token;
                               rq_top := BATCH_SIZE cfg; rq_skip := l_skip l;
                               rq_filter := f |} reply :: ups) =
              [({| rq_baseUrl := baseUrl; rq_token := token;
                   rq_top := BATCH_SIZE cfg; rq_skip := l_skip l;
                   rq_filter := f |}, reply)]) as ->.
      { cbn [pages omap list_omap]. unfold pages in *. rewrite Hp. reflexivity. }
      split; [constructor; [cbn; split; [reflexivity|lia]|constructor]|].
      split; [cbn; auto|]. split; [reflexivity|exact I].
Qed.

Lemma run_slice_events k baseUrl token f seen failOnLimit (s : @state W) :
  exists tr,
    log (snd (run_slice E cfg k baseUrl token f seen failOnLimit s)) = (log s ++ tr)%list /\
    slice_returns tr =
      match fst (run_slice E cfg k baseUrl token f seen failOnLimit s) with
      | Ok r => [(k, f, r)]
      | Throw _ => []
      end /\
    Forall (fun p => fst p = {| rq_baseUrl := baseUrl; rq_token := token;
                                rq_top := BATCH_SIZE cfg; rq_skip := rq_skip (fst p);
                                rq_filter := f |} /\
                     0 <= rq_skip (fst p) < apiLimit) (pages tr) /\
    stepped (BATCH_SIZE cfg) (map (fun p => rq_skip (fst p)) (pages tr)) /\
    (exists p ps, pages tr = p :: ps /\ rq_skip (fst p) = 0) /\
    match fst (run_slice E cfg k baseUrl token f seen failOnLimit s) with
    | Ok r =>
        hitLimit r = false ->
        exists rq value, last (pages tr) = Some (rq, Ok value) /\
                         len value < Z.max 1 (BATCH_SIZE cfg)
    | Throw _ => True
    end.
Proof.
  unfold run_slice, bind.
  destruct (slice_loop_events k baseUrl token f seen failOnLimit slice_fuel locals0 s)
    as (tr & Hlog & Hs & Hall & Hst & Hhd & Hfin); [reflexivity|].
  assert (exists p ps, pages tr = p :: ps /\ rq_skip (fst p) = 0) as Hne.
  { destruct (pages tr) as [|p ps]; [discriminate Hhd|]. exists p, ps. auto. }
  destruct (slice_loop E cfg slice_fuel k baseUrl token f seen failOnLimit locals0 s)
    as [[l|e] s1]; cbn [fst snd] in *.
  - unfold set_size, emit, modify, ret. cbn [fst snd log].
    exists (tr ++ [EvSlice k f
                     {| totalFetched := l_fetched l; totalUpserted := l_upserted l;
                        totalUnique := Z.of_nat (size (set_of seen s1));
                        latestTimestamp := l_latest l; oldestTimestamp := l_oldest l;
                        hitLimit := l_hit l |}])%list.
    split; [rewrite Hlog, <- app_assoc; reflexivity|].
    split; [unfold slice_returns in *; rewrite omap_app, Hs; reflexivity|].
    assert (pages (tr ++ [EvSlice k f
                     {| totalFetched := l_fetched l; totalUpserted := l_upserted l;
                        totalUnique := Z.of_nat (size (set_of seen s1));
                        latestTimestamp := l_latest l; oldestTimestamp := l_oldest l;
                        hitLimit := l_hit l |}]) = pages tr) as ->.
    { unfold pages. rewrite omap_app. cbn. apply app_nil_r. }
    repeat split; try assumption.
    cbn [hitLimit]. intros Hh. destruct (Hfin Hh) as (_ & rq & value & H1 & H2). eauto.
  - exists tr. repeat split; assumption.
Qed.

(** X15: the pages of one slice ([fetchAndUpsertBatchesInternal],
    [fetchAndUpsertMediaBatchesInternal]).  A slice asks for at least one
    page; every request carries the slice's URL, token and filter and
    [$top = BATCH_SIZE]; the first has [$skip = 0], each later one skips at
    least [BATCH_SIZE] more than the one before, and no request has a
    [$skip] of 100,000 or more; so a slice makes at most
    [99,999 / BATCH_SIZE + 1] page requests. *)
Theorem slice_pages_stay_below_the_cap k baseUrl token f seen failOnLimit (s : @state W) :
  exists tr rest,
    log (snd (run_slice E cfg k baseUrl token f seen failOnLimit s)) = (log s ++ tr)%list /\
    Forall (fun rq => rq_baseUrl rq = baseUrl /\ rq_token rq = token /\
                      rq_top rq = BATCH_SIZE cfg /\ rq_filter rq = f /\
                      0 <= rq_skip rq < apiLimit) (page_requests tr) /\
    map rq_skip (page_requests tr) = 0 :: rest /\
    stepped (BATCH_SIZE cfg) (0 :: rest) /\
    (1 <= BATCH_SIZE cfg ->
     len (page_requests tr) <= (apiLimit - 1) / BATCH_SIZE cfg + 1).
Proof.
  destruct (run_slice_events k baseUrl token f seen failOnLimit s)
    as (tr & Hlog & _ & Hall & Hst & (p & ps & Hp & Hp0) & _).
  exists tr, (map (fun p => rq_skip (fst p)) ps).
  rewrite page_requests_pages, map_map.
  assert (map (fun p => rq_skip (fst p)) (pages tr) =
          0 :: map (fun p => rq_skip (fst p)) ps) as Hmap.
  { rewrite Hp. cbn [map]. rewrite Hp0. reflexivity. }
  split; [exact Hlog|]. split.
  { apply Forall_map. eapply Forall_impl; [exact Hall|]. cbn. intros q [Hq Hr].
    rewrite Hq. cbn. auto. }
  split; [exact Hmap|]. rewrite <- Hmap. split; [exact Hst|].
  intros HB. unfold len. rewrite length_map.
  assert (Forall (fun y => y < apiLimit) (map (fun p => rq_skip (fst p)) (pages tr))) as HL.
  { apply Forall_map. eapply Forall_impl; [exact Hall|]. cbn. intros q [_ Hr]. lia. }
  rewrite Hmap in Hst, HL.
  pose proof (stepped_bound (BATCH_SIZE cfg) apiLimit HB _ _ Hst HL) as Hb.
  unfold len in Hb. rewrite length_map in Hb. rewrite Hp. cbn [length].
  assert (Z.of_nat (length ps) <= (apiLimit - 1) / BATCH_SIZE cfg).
  { apply Z.div_le_lower_bound; lia. }
  lia.
Qed.

(** X16: a slice that returns with [hitLimit = false] has seen the end of
    its stream: the last page it asked for came back, empty or with fewer
    than [BATCH_SIZE] records. *)
Theorem unsaturated_slice_saw_the_last_page k baseUrl token f seen failOnLimit
    (s : @state W) r :
  fst (run_slice E cfg k baseUrl token f seen failOnLimit s) = Ok r ->
  hitLimit r = false ->
  exists tr rq value,
    log (snd (run_slice E cfg k baseUrl token f seen failOnLimit s)) = (log s ++ tr)%list /\
    last (pages tr) = Some (rq, Ok value) /\
    (value = [] \/ len value < BATCH_SIZE cfg).
Proof.
  intros Hrun Hh.
  destruct (run_slice_events k baseUrl token f seen failOnLimit s)
    as (tr & Hlog & _ & _ & _ & _ & Hfin).
  rewrite Hrun in Hfin. destruct (Hfin Hh) as (rq & value & Hlast & Hlen).
  exists tr, rq, value. split; [exact Hlog|]. split; [exact Hlast|].
  destruct value as [|x value]; [left; reflexivity|right].
  unfold len in *. cbn [length] in *. lia.
Qed.

End PagingFacts.

(** ** How the counters of a slice relate *)
Section GrowthFacts.
Context {W : Type} (E : @env W) (cfg : config).

(** The database answers an upsert with no more rows than it was sent, and
    none of its errors reads like the cap answer of the feed. *)
Hypothesis H_rows : forall table rows c w d,
  sb_data (fst (sb_upsert E table rows c w)) = Some d -> len d <= len rows.
Hypothesis H_err : forall table rows c w e,
  sb_error (fst (sb_upsert E table rows c w)) = Some e ->
  includes (message e) cap_marker = false.

Lemma upsertBatch_growth table rows c (s : @state W) :
  sets (snd (upsertBatch E table rows c s)) = sets s /\
  match fst (upsertBatch E table rows c s) with
  | Ok n => n <= len rows
  | Throw e => includes (message e) cap_marker = false
  end.
Proof.
  unfold upsertBatch. destruct (len rows =? 0) eqn:H0.
  { cbn. split; [reflexivity|]. unfold len. lia. }
  unfold bind, get. destruct (negb (supabase s)); [split; reflexivity|].
  pose proof (H_rows table rows c (world s)) as Hr.
  pose proof (H_err table rows c (world s)) as He.
  destruct (sb_upsert E table rows c (world s)) as [reply w]. cbn [fst] in Hr, He.
  destruct (sb_error reply) as [e|]; cbn; [split; [reflexivity|apply He; reflexivity]|].
  split; [reflexivity|].
  destruct (sb_data reply) as [d|]; [specialize (Hr d eq_refl)|]; cbn.
  - destruct (len d =? 0); lia.
  - lia.
Qed.

Lemma advance_counts l n :
  l_fetched (fst (advance cfg l n)) = l_fetched l /\
  l_upserted (fst (advance cfg l n)) = l_upserted l.
Proof.
  unfold advance. destruct (n <? BATCH_SIZE cfg); [auto|].
  destruct (_ >=? _); cbn; auto.
Qed.

Lemma on_error_counts k f failOnLimit l error (s : @state W) l' more s' :
  on_error E k f failOnLimit l error s = (Ok (l', more), s') ->
  s' = s /\ l_fetched l' = l_fetched l /\ l_upserted l' = l_upserted l /\
  includes (message error) cap_marker = true.
Proof.
  unfold on_error. destruct (includes _ _); [|discriminate].
  destruct k; [destruct failOnLimit|]; cbn; intros [= <- <- <-]; auto.
Qed.

Lemma dedupe_growth k value (seen : gset string) :
  let '(after, uniqueRecords, _) := dedupe k value seen in
  size after = (size seen + length uniqueRecords)%nat /\ seen ⊆ after /\
  (length uniqueRecords <= length value)%nat.
Proof.
  pose proof (dedupe_fold_fresh k value seen [] 0) as HF.
  pose proof (dedupe_fold_seen k value seen [] 0) as HS. unfold dedupe.
  destruct (fold_left (dedupe_step k) value (seen, [], 0)) as [[after uniq] dups].
  destruct HF as (added & H0 & H1 & H2 & H3 & H4 & H5 & H6).
  destruct HS as (added' & H0' & Hafter & _). cbn in H0, H0'. subst added added'.
  split; [|split; [exact H5|apply sublist_length; exact H4]].
  rewrite Hafter. rewrite size_union.
  - rewrite size_list_to_set by exact H1. rewrite omap_keys_length by exact H3.
    reflexivity.
  - intros x Hx Hin. apply elem_of_list_to_set in Hin. exact (H2 x Hin Hx).
Qed.

Lemma page_step_growth k baseUrl token f seen failOnLimit l (s : @state W) l' more s' :
  (seen < length (sets s))%nat ->
  page_step E cfg k baseUrl token f seen failOnLimit l s = (Ok (l', more), s') ->
  length (sets s') = length (sets s) /\
  set_of seen s ⊆ set_of seen s' /\
  l_upserted l' - l_upserted l <=
    Z.of_nat (size (set_of seen s')) - Z.of_nat (size (set_of seen s)) <=
    l_fetched l' - l_fetched l.
Proof.
  intros Hseen. unfold page_step, bind, reify, fetch_page.
  destruct (odata_page E _ (world s)) as [[value|error] w].
  - destruct (len value =? 0).
    { unfold ret. intros [= <- <- <-]. unfold set_of. cbn. split; [reflexivity|].
      split; [reflexivity|lia]. }
    unfold read_set. cbn [fst snd].
    pose proof (dedupe_growth k value
                  (set_of seen {| world := w; supabase := supabase s; sets := sets s;
                                  log := (log s ++ [EvPage
                                    {| rq_baseUrl := baseUrl; rq_token := token;
                                       rq_top := BATCH_SIZE cfg; rq_skip := l_skip l;
                                       rq_filter := f |} (Ok value)])%list |})) as HD.
    destruct (dedupe k value _) as [[after uniqueRecords] dups].
    destruct HD as (Hsize & Hsub & Hlen).
    change (set_of seen _) with (set_of seen s) in Hsize, Hsub.
    unfold write_set, modify. cbn [fst snd sets world supabase log].
    assert (forall (w' : W) lg sb,
              set_of seen {| world := w'; supabase := sb;
                             sets := <[seen := after]> (sets s); log := lg |} = after)
      as Hset.
    { intros. unfold set_of. cbn [sets]. rewrite list_lookup_insert_eq by exact Hseen.
      reflexivity. }
    destruct (len uniqueRecords >? 0) eqn:Hu.
    + unfold now.
      match goal with |- context [upsertBatch E ?t ?r ?c ?st] =>
        pose proof (upsertBatch_growth t r c st) as [Hsets Hn];
        destruct (upsertBatch E t r c st) as [[upsertedCount|error] s3] end;
        cbn [fst snd sets] in Hsets, Hn.
      * unfold ret. intros [= Ha <-].
        match type of Ha with advance cfg ?l1 ?n = _ =>
          pose proof (advance_counts l1 n) as [Hf Hp]; rewrite Ha in Hf, Hp end.
        cbn in Hf, Hp.
        assert (set_of seen s3 = after) as Hs3.
        { unfold set_of. rewrite Hsets, list_lookup_insert_eq by exact Hseen. reflexivity. }
        rewrite Hs3, Hsets, length_insert. split; [reflexivity|]. split; [exact Hsub|].
        unfold len in *. rewrite length_map in Hn. lia.
      * intros Hoe. apply on_error_counts in Hoe. destruct Hoe as (_ & _ & _ & Hc).
        congruence.
    + unfold ret. intros [= Ha <-].
      match type of Ha with advance cfg ?l1 ?n = _ =>
        pose proof (advance_counts l1 n) as [Hf Hp]; rewrite Ha in Hf, Hp end.
      cbn in Hf, Hp. rewrite Hset. cbn [sets]. rewrite length_insert.
      split; [reflexivity|]. split; [exact Hsub|].
      unfold len in Hu. assert (length uniqueRecords = 0%nat) by lia. lia.
  - intros Hoe. apply on_error_counts in Hoe. destruct Hoe as (-> & Hf & Hp & _).
    unfold set_of. cbn. split; [reflexivity|]. split; [reflexivity|lia].
Qed.

Lemma slice_loop_growth k baseUrl token f seen failOnLimit :
  forall n l (s : @state W) l' s',
    (seen < length (sets s))%nat ->
    slice_loop E cfg n k baseUrl token f seen failOnLimit l s = (Ok l', s') ->
    length (sets s') = length (sets s) /\
    set_of seen s ⊆ set_of seen s' /\
    l_upserted l' - l_upserted l <=
      Z.of_nat (size (set_of seen s')) - Z.of_nat (size (set_of seen s)) <=
      l_fetched l' - l_fetched l.
Proof.
  induction n as [|n IH]; intros l s l' s' Hseen; [discriminate|].
  cbn [slice_loop]. destruct (_ && _).
  { unfold ret. intros [= <- <-]. cbn. split; [reflexivity|]. split; [reflexivity|lia]. }
  unfold bind.
  destruct (page_step E cfg k baseUrl token f seen failOnLimit l s) as [[[l1 more]|e] s1]
    eqn:Hstep; [|discriminate].
  apply page_step_growth in Hstep; [|exact Hseen]. destruct Hstep as (Hlen & Hsub & Hineq).
  cbn [fst snd]. destruct more.
  - intros Hrest. apply IH in Hrest; [|lia]. destruct Hrest as (Hlen' & Hsub' & Hineq').
    split; [congruence|]. split; [set_solver|lia].
  - unfold ret. intros [= <- <-]. auto.
Qed.

Lemma run_slice_growth k baseUrl token f seen failOnLimit (s : @state W) r s' :
  (seen < length (sets s))%nat ->
  run_slice E cfg k baseUrl token f seen failOnLimit s = (Ok r, s') ->
  length (sets s') = length (sets s) /\
  set_of seen s ⊆ set_of seen s' /\
  totalUnique r = Z.of_nat (size (set_of seen s')) /\
  totalUpserted r <= totalUnique r - Z.of_nat (size (set_of seen s)) <= totalFetched r.
Proof.
  intros Hseen. unfold run_slice, bind.
  destruct (slice_loop E cfg slice_fuel k baseUrl token f seen failOnLimit locals0 s)
    as [[l|e] s1] eqn:Hloop; [|discriminate].
  apply slice_loop_growth in Hloop; [|exact Hseen]. destruct Hloop as (Hlen & Hsub & Hineq).
  unfold set_size, emit, modify, ret. cbn [fst snd]. intros [= <- <-].
  cbn in *. unfold set_of in *. cbn [sets]. repeat split; try assumption; lia.
Qed.

(** X17: the counters of a slice, under a database that answers an upsert
    with no more rows than it was sent and whose errors do not read like the
    cap answer.  The [Set] of identities only grows; [totalUnique] is its
    size when the slice returns, whatever it held before; and the slice
    counts as upserted no more rows than the identities it added, which are
    no more than the records it counts as fetched. *)
Theorem slice_counts_follow_the_set k baseUrl token f seen failOnLimit (s : @state W) r :
  (seen < length (sets s))%nat ->
  fst (run_slice E cfg k baseUrl token f seen failOnLimit s) = Ok r ->
  set_of seen s ⊆ set_of seen (snd (run_slice E cfg k baseUrl token f seen failOnLimit s)) /\
  totalUnique r =
    Z.of_nat (size (set_of seen (snd (run_slice E cfg k baseUrl token f seen failOnLimit s)))) /\
  totalUpserted r <= totalUnique r - Z.of_nat (size (set_of seen s)) <= totalFetched r.
Proof.
  intros Hseen Hrun.
  destruct (run_slice E cfg k baseUrl token f seen failOnLimit s) as [r' s'] eqn:Heq.
  cbn [fst snd] in *. subst r'.
  apply run_slice_growth in Heq; [|exact Hseen]. tauto.
Qed.

(** *** Listings *)

Lemma older_step_growth baseUrl token seen expectedRecords o (s : @state W) o' more s' :
  (seen < length (sets s))%nat ->
  older_step E cfg baseUrl token seen expectedRecords o s = (Ok (o', more), s') ->
  length (sets s') = length (sets s) /\
  set_of seen s ⊆ set_of seen s' /\
  t_upserted (o_totals o') - t_upserted (o_totals o) <=
    Z.of_nat (size (set_of seen s')) - Z.of_nat (size (set_of seen s)) <=
    t_fetched (o_totals o') - t_fetched (o_totals o).
Proof.
  intros Hseen. unfold older_step, bind, fetchAndUpsertBatchesInternal.
  destruct (run_slice E cfg Listing baseUrl token _ seen true s) as [[r|e] s1] eqn:Hrun;
    [|discriminate].
  apply run_slice_growth in Hrun; [|exact Hseen].
  destruct Hrun as (Hlen & Hsub & Hu & Hineq).
  destruct (totalFetched r =? 0); unfold set_size, ret; cbn [fst snd];
    intros [= <- <- <-]; cbn; (split; [exact Hlen|]); (split; [exact Hsub|]); lia.
Qed.

Lemma older_loop_growth baseUrl token seen expectedRecords :
  forall n o (s : @state W) o' s',
    (seen < length (sets s))%nat ->
    older_loop E cfg n baseUrl token seen expectedRecords o s = (Ok o', s') ->
    length (sets s') = length (sets s) /\
    set_of seen s ⊆ set_of seen s' /\
    t_upserted (o_totals o') - t_upserted (o_totals o) <=
      Z.of_nat (size (set_of seen s')) - Z.of_nat (size (set_of seen s)) <=
      t_fetched (o_totals o') - t_fetched (o_totals o).
Proof.
  induction n as [|n IH]; intros o s o' s' Hseen.
  { cbn. intros [= <- <-]. split; [reflexivity|]. split; [reflexivity|lia]. }
  cbn [older_loop]. unfold bind.
  destruct (older_step E cfg baseUrl token seen expectedRecords o s)
    as [[[o1 more]|e] s1] eqn:Hstep; [|discriminate].
  apply older_step_growth in Hstep; [|exact Hseen]. destruct Hstep as (Hlen & Hsub & Hineq).
  cbn [fst snd]. destruct more.
  - intros Hrest. apply IH in Hrest; [|lia]. destruct Hrest as (Hlen' & Hsub' & Hineq').
    split; [congruence|]. split; [set_solver|lia].
  - unfold ret. intros [= <- <-]. auto.
Qed.

Lemma fetchWithSmartPagination_growth baseUrl token baseFilter expectedRecords
    (s : @state W) res s' :
  fetchWithSmartPagination E cfg baseUrl token baseFilter expectedRecords s = (Ok res, s') ->
  r_upserted res <= r_unique res <= r_fetched res.
Proof.
  unfold fetchWithSmartPagination, bind, new_Set, fetchAndUpsertBatchesInternal.
  set (s0 := {| world := world s; supabase := supabase s;
                sets := (sets s ++ [∅])%list; log := log s |}).
  assert (length (sets s) < length (sets s0))%nat as Hseen.
  { cbn. rewrite length_app. cbn. lia. }
  assert (size (set_of (length (sets s)) s0) = 0%nat) as Hempty.
  { unfold set_of. cbn [sets s0]. rewrite list_lookup_middle by reflexivity. reflexivity. }
  cbn [fst snd].
  destruct (run_slice E cfg Listing baseUrl token baseFilter (length (sets s)) false s0)
    as [[r|e] s1] eqn:Hrun; [|discriminate].
  apply run_slice_growth in Hrun; [|exact Hseen].
  destruct Hrun as (Hlen & Hsub & Hu & Hineq). rewrite Hempty in Hineq.
  cbn [fst snd t_fetched].
  destruct (hitLimit r || (totalFetched r >=? 99000)).
  - unfold now, fetchOlderRecordsInChunks, bind. cbn [fst snd].
    match goal with |- context [older_loop E cfg 50 ?u ?t ?sn ?x ?o s1] =>
      destruct (older_loop E cfg 50 u t sn x o s1) as [[o'|e] s2] eqn:Hold end;
      [|discriminate].
    apply older_loop_growth in Hold; [|lia]. destruct Hold as (Hlen' & Hsub' & Hineq').
    unfold ret, set_size. cbn [fst snd]. intros [= <- <-]. cbn in *. lia.
  - unfold ret, set_size. cbn [fst snd]. intros [= <- <-]. cbn. lia.
Qed.

(** X18: a listing run ([fetchIDXProperties], [fetchVOWProperties]) that
    returns reports counters in order: [totalUpserted <= totalUnique <=
    totalFetched], under the same database. *)
Theorem listing_counters_are_ordered label tokenVar baseUrl expectedRecords incremental
    (s : @state W) res :
  fst (fetchProperties E cfg label tokenVar baseUrl expectedRecords incremental s) = Ok res ->
  r_upserted res <= r_unique res <= r_fetched res.
Proof.
  unfold fetchProperties. destruct (nonempty_token tokenVar) as [token|]; [|discriminate].
  unfold bind. destruct incremental.
  - destruct (getSyncLog E label s) as [[lastSync|e] s1]; [|discriminate].
    cbn [fst snd ret].
    destruct (fetchWithSmartPagination E cfg baseUrl token _ expectedRecords s1)
      as [r s2] eqn:Hrun.
    cbn [fst]. intros ->. eapply fetchWithSmartPagination_growth; exact Hrun.
  - cbn [fst snd ret].
    destruct (fetchWithSmartPagination E cfg baseUrl token None expectedRecords s)
      as [r s2] eqn:Hrun.
    cbn [fst]. intros ->. eapply fetchWithSmartPagination_growth; exact Hrun.
Qed.

End GrowthFacts.

(** ** The windows of the schedulers *)
Section ScheduleFacts.
Context {W : Type} (E : @env W) (cfg : config).

Lemma run_slice_returns k baseUrl token f seen failOnLimit (s : @state W) :
  slice_returns (log (snd (run_slice E cfg k baseUrl token f seen failOnLimit s))) =
  (slice_returns (log s) ++
   match fst (run_slice E cfg k baseUrl token f seen failOnLimit s) with
   | Ok r => [(k, f, r)]
   | Throw _ => []
   end)%list.
Proof.
  destruct (run_slice_events E cfg k baseUrl token f seen failOnLimit s)
    as (tr & Hlog & Hs & _).
  rewrite Hlog. unfold slice_returns in *. rewrite omap_app, Hs. reflexivity.
Qed.

(** *** Older listings *)

Lemma older_loop_chunks baseUrl token seen expectedRecords :
  forall n o (s : @state W) o' s',
    older_loop E cfg n baseUrl token seen expectedRecords o s = (Ok o', s') ->
    1 <= o_daysPerChunk o <= 90 ->
    day <= o_endDate o - o_startDate o <= 90 * day ->
    exists chunks : list (Z * Z * slice_result),
      slice_returns (log s') =
        (slice_returns (log s) ++
         map (fun c => (Listing, Some (FilterRange listing_field (fst (fst c)) (snd (fst c))),
                        snd c)) chunks)%list /\
      (length chunks <= n)%nat /\
      back_to_back (o_endDate o) (map fst chunks) /\
      Forall (fun w => day <= snd w - fst w <= 90 * day) (map fst chunks) /\
      o_totals o' = fold_left add_slice (map snd chunks) (o_totals o).
Proof.
  induction n as [|n IH]; intros o s o' s' Hrun Hd Hw.
  { cbn in Hrun. injection Hrun as <- <-. exists []. cbn. rewrite app_nil_r.
    repeat split; auto. }
  cbn [older_loop] in Hrun. unfold bind in Hrun.
  destruct (older_step E cfg baseUrl token seen expectedRecords o s)
    as [[[o1 more]|e] s1] eqn:Hstep; [|discriminate].
  unfold older_step, bind, fetchAndUpsertBatchesInternal in Hstep.
  pose proof (run_slice_returns Listing baseUrl token
                (Some (FilterRange listing_field (o_startDate o) (o_endDate o)))
                seen true s) as Hret.
  destruct (run_slice E cfg Listing baseUrl token _ seen true s) as [[r|e] s0];
    [|discriminate]. cbn [fst snd] in *.
  assert (log s1 = log s0 /\ o_endDate o1 = o_startDate o /\
          o_totals o1 = add_slice (o_totals o) r /\
          1 <= o_daysPerChunk o1 <= 90 /\
          day <= o_endDate o1 - o_startDate o1 <= 90 * day) as (Hlog & Hend & Htot & Hd1 & Hw1).
  { unfold day, addDays in *.
    assert (o_daysPerChunk o / 2 <= 90) by (apply Z.div_le_upper_bound; lia).
    destruct (totalFetched r =? 0); unfold set_size, ret in Hstep; cbn [fst snd] in Hstep;
      injection Hstep as <- <- <-; cbn; unfold addDays, day; destruct (hitLimit r);
      repeat split; try reflexivity; lia. }
  destruct more.
  - apply IH in Hrun; [|exact Hd1|exact Hw1].
    destruct Hrun as (chunks & Hsl & Hlen & Hbb & Hwd & Ht).
    exists ((o_startDate o, o_endDate o, r) :: chunks).
    split; [rewrite Hsl, Hlog, Hret, <- app_assoc; reflexivity|].
    split; [cbn; lia|]. cbn [map fst snd back_to_back].
    split; [rewrite <- Hend; split; [reflexivity|split; [unfold day in *; lia|exact Hbb]]|].
    split; [constructor; [cbn; lia|exact Hwd]|].
    cbn [fold_left]. rewrite <- Htot. exact Ht.
  - unfold ret in Hrun. cbn [fst] in Hrun. injection Hrun as <- <-.
    exists [(o_startDate o, o_endDate o, r)].
    split; [rewrite Hlog, Hret; reflexivity|].
    split; [cbn; lia|]. cbn [map fst snd back_to_back].
    split; [split; [reflexivity|split; [unfold day in *; lia|exact I]]|].
    split; [constructor; [cbn; lia|constructor]|].
    cbn [fold_left]. exact Htot.
Qed.

(** X19: the chunks of [fetchOlderRecordsInChunks].  When it returns it
    has run at most 50 listing slices; their windows go back in time from
    [beforeDate] without gap or overlap, each between one and ninety days
    wide; and the totals it returns count every one of these slices once. *)
Theorem older_chunks_tile_the_past baseUrl token beforeDate seen expectedRecords
    (s : @state W) t :
  fst (fetchOlderRecordsInChunks E cfg baseUrl token beforeDate seen expectedRecords s)
    = Ok t ->
  exists chunks : list (Z * Z * slice_result),
    slice_returns
      (log (snd (fetchOlderRecordsInChunks E cfg baseUrl token beforeDate seen
                   expectedRecords s))) =
      (slice_returns (log s) ++
       map (fun c => (Listing, Some (FilterRange listing_field (fst (fst c)) (snd (fst c))),
                      snd c)) chunks)%list /\
    (length chunks <= 50)%nat /\
    back_to_back beforeDate (map fst chunks) /\
    Forall (fun w => day <= snd w - fst w <= 90 * day) (map fst chunks) /\
    t = fold_left add_slice (map snd chunks) no_totals.
Proof.
  unfold fetchOlderRecordsInChunks, bind.
  match goal with |- context [older_loop E cfg 50 ?u ?tk ?sn ?x ?o s] =>
    destruct (older_loop E cfg 50 u tk sn x o s) as [[o'|e] s'] eqn:Hrun end;
    [|discriminate].
  cbn [fst snd ret]. intros [= <-].
  apply older_loop_chunks in Hrun.
  - exact Hrun.
  - cbn. destruct (expectedRecords >? 1000000); [lia|].
    destruct (expectedRecords >? 100000); lia.
  - cbn. unfold addDays, day.
    destruct (expectedRecords >? 1000000); [lia|].
    destruct (expectedRecords >? 100000); lia.
Qed.

(** *** The backward walk over the weeks *)

Lemma media_slice_returns token lo hi seen (s : @state W) :
  slice_returns (log (snd (media_slice E cfg token lo hi seen s))) =
  (slice_returns (log s) ++
   match fst (media_slice E cfg token lo hi seen s) with
   | Ok r => [slot lo hi r]
   | Throw _ => []
   end)%list.
Proof. apply run_slice_returns. Qed.

Lemma chunk_step_spec token seen w (s : @state W) w1 more s1 :
  chunk_step E cfg token seen w s = (Ok (w1, more), s1) ->
  exists r,
    slice_returns (log s1) =
      (slice_returns (log s) ++ [slot (w_startDate w) (w_endDate w) r])%list /\
    w_emptyChunks w1 = (if totalFetched r =? 0 then w_emptyChunks w + 1 else 0) /\
    (unsaturated r -> w_skippedWeeks w1 = w_skippedWeeks w) /\
    (more = true ->
     w_endDate w1 = w_startDate w /\ w_startDate w1 = w_startDate w - 7 * day /\
     MEDIA_SYNC_START_DATE cfg < w_startDate w1) /\
    (more = false ->
     10 <= w_emptyChunks w1 \/ w_startDate w - 7 * day <= MEDIA_SYNC_START_DATE cfg).
Proof.
  unfold chunk_step, bind.
  pose proof (media_slice_returns token (w_startDate w) (w_endDate w) seen s) as Hret.
  destruct (media_slice E cfg token (w_startDate w) (w_endDate w) seen s) as [[r|e] s0];
    [|discriminate]. cbn [fst snd] in *.
  intros Hstep. exists r.
  destruct (totalFetched r =? 0) eqn:Hf.
  - destruct (w_emptyChunks w + 1 >=? 10) eqn:He.
    + unfold ret in Hstep. injection Hstep as <- <- <-. cbn.
      split; [exact Hret|]. split; [reflexivity|]. split; [reflexivity|].
      split; [discriminate|]. intros _. left. rewrite Z.geb_leb in He.
      apply Z.leb_le in He. exact He.
    + unfold ret, next_chunk, addDays in Hstep. injection Hstep as <- <- <-. cbn.
      split; [exact Hret|]. split; [reflexivity|]. split; [reflexivity|].
      split; intros Hm.
      * apply negb_true_iff, Z.leb_gt in Hm. repeat split; lia.
      * apply negb_false_iff, Z.leb_le in Hm. right. lia.
  - unfold ret, next_chunk, addDays in Hstep. injection Hstep as <- <- <-.
    split; [exact Hret|].
    split; [destruct (hitLimit r); reflexivity|].
    split.
    { intros [H0|Hh]; [apply Z.eqb_neq in Hf; contradiction|]. rewrite Hh. reflexivity. }
    split; intros Hm.
    * apply negb_true_iff, Z.leb_gt in Hm. destruct (hitLimit r); cbn in *;
        repeat split; lia.
    * apply negb_false_iff, Z.leb_le in Hm. right. destruct (hitLimit r); cbn in *; lia.
Qed.

Lemma zip_with_slot_cons lo hi r ws rs :
  zip_with (fun w r => slot (fst w) (snd w) r) ((lo, hi) :: ws) (r :: rs) =
  slot lo hi r :: zip_with (fun w r => slot (fst w) (snd w) r) ws rs.
Proof. reflexivity. Qed.

Lemma chunks_loop_windows token seen :
  forall n w (s : @state W) w' s',
    chunks_loop E cfg n token seen w s = (Ok w', s') ->
    w_startDate w = w_endDate w - 7 * day ->
    exists rs,
      slice_returns (log s') =
        (slice_returns (log s) ++
         zip_with (fun w r => slot (fst w) (snd w) r)
                  (windows_back (length rs) (7 * day) (w_endDate w)) rs)%list /\
      (length rs <= n)%nat /\
      (n <> 0%nat -> rs <> []) /\
      (2 <= len rs -> MEDIA_SYNC_START_DATE cfg < w_endDate w - 7 * day * len rs) /\
      (length rs = n \/
       w_endDate w - 7 * day * (len rs + 1) <= MEDIA_SYNC_START_DATE cfg \/
       10 <= empty_run rs (w_emptyChunks w)) /\
      (Forall unsaturated rs -> w_skippedWeeks w' = w_skippedWeeks w).
Proof.
  induction n as [|n IH]; intros w s w' s' Hrun Hw.
  { cbn in Hrun. injection Hrun as <- <-. exists []. cbn. rewrite app_nil_r.
    repeat split; auto; try congruence. unfold len. cbn. lia. }
  cbn [chunks_loop] in Hrun. unfold bind in Hrun.
  destruct (chunk_step E cfg token seen w s) as [[[w1 more]|e] s1] eqn:Hstep;
    [|discriminate].
  apply chunk_step_spec in Hstep.
  destruct Hstep as (r & Hret & Hempty & Hskip & Hmore & Hstop).
  cbn [fst snd] in Hrun. destruct more.
  - destruct (Hmore eq_refl) as (Hend & Hstart & Hfloor). clear Hmore Hstop.
    apply IH in Hrun; [|lia].
    destruct Hrun as (rs & Hsl & Hlen & Hne & Hfl & Hwhy & Hsk).
    exists (r :: rs). cbn [length windows_back]. rewrite zip_with_slot_cons.
    split.
    { rewrite Hsl, Hret, <- app_assoc. cbn [app]. rewrite Hend, Hw. reflexivity. }
    split; [lia|]. split; [discriminate|].
    unfold len in *. cbn [length].
    split.
    { intros H2. destruct rs as [|r2 [|r3 rs]]; cbn [length] in *; try lia. }
    split.
    { destruct Hwhy as [H|[H|H]]; [left; lia|right; left; lia|right; right].
      cbn [empty_run fold_left]. unfold empty_run in H. rewrite <- Hempty. exact H. }
    intros Hall. apply Forall_cons in Hall. destruct Hall as [Hr Hall].
    rewrite (Hsk Hall). apply Hskip. exact Hr.
  - unfold ret in Hrun. injection Hrun as <- <-.
    exists [r]. cbn [length windows_back]. rewrite zip_with_slot_cons.
    split; [rewrite Hret, Hw; reflexivity|].
    split; [lia|]. split; [discriminate|]. unfold len. cbn [length].
    split; [lia|].
    split.
    { destruct (Hstop eq_refl) as [H|H]; [right; right|right; left; lia].
      cbn [empty_run fold_left]. rewrite <- Hempty. exact H. }
    intros Hall. apply Forall_cons in Hall. destruct Hall as [Hr _]. apply Hskip. exact Hr.
Qed.

(** X20: the weekly walk of a full media run.  When
    [fetchMediaInDateChunks] returns, the first slices it ran are [m]
    seven-day windows going back from tomorrow without gap or overlap, with
    [1 <= m <= 500]; every window after the first starts after
    [MEDIA_SYNC_START_DATE]; the walk ended because the next window would
    start at or before that date, or the last ten windows fetched nothing, or
    500 windows were done; and unless a week that fetched something hit the
    limit, no other slice is run. *)
Theorem weekly_walk_windows token seen (s : @state W) res :
  fst (fetchMediaInDateChunks E cfg token seen s) = Ok res ->
  let hi := addDays (clock E (world s)) 1 in
  exists rs extra,
    slice_returns (log (snd (fetchMediaInDateChunks E cfg token seen s))) =
      (slice_returns (log s) ++
       zip_with (fun w r => slot (fst w) (snd w) r)
                (windows_back (length rs) (7 * day) hi) rs ++ extra)%list /\
    1 <= len rs <= 500 /\
    (2 <= len rs -> MEDIA_SYNC_START_DATE cfg < hi - 7 * day * len rs) /\
    (len rs = 500 \/
     hi - 7 * day * (len rs + 1) <= MEDIA_SYNC_START_DATE cfg \/
     10 <= empty_run rs 0) /\
    (Forall unsaturated rs -> extra = []).
Proof.
  unfold fetchMediaInDateChunks, bind, now. cbn [fst snd].
  destruct (chunks_loop E cfg maxChunks token seen (walk0 (clock E (world s))) s)
    as [[w|e] s1] eqn:Hwalk; [|discriminate].
  apply chunks_loop_windows in Hwalk; [|cbn; unfold addDays; lia].
  destruct Hwalk as (rs & Hsl & Hlen & Hne & Hfl & Hwhy & Hsk).
  destruct (grows_skipped_loop E cfg token seen (w_skippedWeeks w) (w_totals w) s1)
    as (tr & Htr).
  pose proof (fun H => f_equal (fun l => skipped_loop E cfg l token seen (w_totals w) s1)
                               (Hsk H)) as Hnone.
  cbn beta in Hnone.
  destruct (skipped_loop E cfg (w_skippedWeeks w) token seen (w_totals w) s1)
    as [[t|e] s2]; [|discriminate].
  unfold set_size, ret. cbn [fst snd] in *. intros _.
  exists rs, (slice_returns tr). cbn [walk0 w_endDate w_emptyChunks w_skippedWeeks] in *.
  split.
  { rewrite Htr. unfold slice_returns at 1. rewrite omap_app. fold (slice_returns (log s1)).
    fold (slice_returns tr). rewrite Hsl, <- app_assoc. reflexivity. }
  assert (rs <> []) as Hrs by (apply Hne; discriminate).
  unfold len in *.
  split; [unfold maxChunks in Hlen; destruct rs; [congruence|]; cbn [length] in *; lia|].
  split; [exact Hfl|].
  split; [destruct Hwhy as [H|[H|H]]; [left; unfold maxChunks in H; lia|auto|auto]|].
  intros Hall. specialize (Hnone Hall). cbn in Hnone. injection Hnone as _ Hs2.
  rewrite Hs2 in Htr. rewrite <- (app_nil_r (log s1)) in Htr at 1.
  apply app_inv_head in Htr. subst tr. reflexivity.
Qed.

(** *** The daily and hourly drill-down *)

Lemma hours_loop_slots token dayStart seen :
  forall n hour t (s : @state W) t' s',
    hours_loop E cfg n token dayStart hour seen t s = (Ok t', s') ->
    exists hs,
      length hs = n /\
      slice_returns (log s') = (slice_returns (log s) ++ hour_slots dayStart hour hs)%list /\
      t' = fold_left add_slice hs t.
Proof.
  induction n as [|n IH]; intros hour t s t' s' Hrun.
  { cbn in Hrun. injection Hrun as <- <-. exists []. cbn. rewrite app_nil_r. auto. }
  cbn [hours_loop] in Hrun. unfold bind in Hrun.
  pose proof (media_slice_returns token (atHour dayStart hour) (atHour dayStart (hour + 1))
                seen s) as Hret.
  destruct (media_slice E cfg token _ _ seen s) as [[r|e] s1]; [|discriminate].
  cbn [fst snd] in *. apply IH in Hrun. destruct Hrun as (hs & Hlen & Hsl & Ht).
  exists (r :: hs). cbn [length hour_slots fold_left].
  split; [lia|]. split; [|exact Ht].
  rewrite Hsl, Hret, <- app_assoc. reflexivity.
Qed.

Lemma days_needed_step cur rangeEnd :
  cur < rangeEnd -> days_needed cur rangeEnd = days_needed (addDays cur 1) rangeEnd + 1.
Proof.
  intros Hlt. unfold days_needed, addDays.
  replace (cur <? rangeEnd) with true by (symmetry; apply Z.ltb_lt; exact Hlt).
  destruct (cur + 1 * day <? rangeEnd) eqn:Hn.
  - apply Z.ltb_lt in Hn.
    replace (rangeEnd - cur - 1) with (rangeEnd - (cur + 1 * day) - 1 + 1 * day) by lia.
    rewrite Z.div_add by (unfold day; lia). lia.
  - apply Z.ltb_ge in Hn. rewrite Z.div_small by (unfold day in *; lia). lia.
Qed.

Lemma days_needed_nonneg cur rangeEnd : 0 <= days_needed cur rangeEnd.
Proof.
  unfold days_needed. destruct (cur <? rangeEnd) eqn:H; [|lia].
  apply Z.ltb_lt in H.
  pose proof (Z.div_pos (rangeEnd - cur - 1) day ltac:(lia) ltac:(unfold day; lia)). lia.
Qed.

Lemma days_loop_slots token rangeEnd seen :
  forall n cur t (s : @state W) t' s',
    days_loop E cfg n token cur rangeEnd seen t s = (Ok t', s') ->
    days_needed cur rangeEnd <= Z.of_nat n ->
    exists ds : list (slice_result * list slice_result),
      slice_returns (log s') = (slice_returns (log s) ++ day_slots cur ds)%list /\
      Forall (fun d => length (snd d) = if hitLimit (fst d) then 24%nat else 0%nat) ds /\
      len ds = days_needed cur rangeEnd /\
      t' = fold_left add_slice (concat (map day_counted ds)) t.
Proof.
  induction n as [|n IH]; intros cur t s t' s' Hrun Hfuel.
  { cbn in Hrun. injection Hrun as <- <-. exists []. cbn. rewrite app_nil_r.
    pose proof (days_needed_nonneg cur rangeEnd). repeat split; auto. unfold len. cbn. lia. }
  cbn [days_loop] in Hrun. destruct (cur <? rangeEnd) eqn:Hlt.
  2:{ unfold ret in Hrun. injection Hrun as <- <-. exists []. cbn. rewrite app_nil_r.
      unfold days_needed. rewrite Hlt. repeat split; auto. }
  apply Z.ltb_lt in Hlt. pose proof (days_needed_step cur rangeEnd Hlt) as Hstep.
  unfold bind in Hrun.
  pose proof (media_slice_returns token cur (addDays cur 1) seen s) as Hret.
  destruct (media_slice E cfg token cur (addDays cur 1) seen s) as [[r|e] s1];
    [|discriminate].
  cbn [fst snd] in *. destruct (hitLimit r) eqn:Hhit.
  - destruct (hours_loop E cfg 24 token cur 0 seen t s1) as [[t1|e] s2] eqn:Hhours;
      [|discriminate].
    apply hours_loop_slots in Hhours. destruct Hhours as (hs & Hlen & Hsl & Ht).
    cbn [fst snd] in Hrun. apply IH in Hrun; [|lia].
    destruct Hrun as (ds & Hsl' & Hall & Hn & Ht').
    exists ((r, hs) :: ds). cbn [day_slots fst snd map concat].
    split; [rewrite Hsl', Hsl, Hret, <- !app_assoc; reflexivity|].
    split; [constructor; [cbn; rewrite Hhit; exact Hlen|exact Hall]|].
    split; [unfold len in *; cbn [length]; lia|].
    rewrite fold_left_app. change (day_counted (r, hs)) with (if hitLimit r then hs else [r]).
    rewrite Hhit, <- Ht. exact Ht'.
  - unfold ret in Hrun. cbn [fst snd] in Hrun. apply IH in Hrun; [|lia].
    destruct Hrun as (ds & Hsl' & Hall & Hn & Ht').
    exists ((r, []) :: ds). cbn [day_slots fst snd map concat hour_slots app].
    split; [rewrite Hsl', Hret, <- !app_assoc; reflexivity|].
    split; [constructor; [cbn; rewrite Hhit; reflexivity|exact Hall]|].
    split; [unfold len in *; cbn [length]; lia|].
    rewrite fold_left_app.
    change (day_counted (r, [])) with (if hitLimit r then [] else [r]).
    rewrite Hhit. exact Ht'.
Qed.

Lemma daily_slots_of token rangeStart rangeEnd seen (s : @state W) t :
  fst (fetchMediaDailyInRange E cfg token rangeStart rangeEnd seen s) = Ok t ->
  exists ds : list (slice_result * list slice_result),
    slice_returns (log (snd (fetchMediaDailyInRange E cfg token rangeStart rangeEnd seen s)))
      = (slice_returns (log s) ++ day_slots rangeStart ds)%list /\
    Forall (fun d => length (snd d) = if hitLimit (fst d) then 24%nat else 0%nat) ds /\
    len ds = days_needed rangeStart rangeEnd /\
    t = fold_left add_slice (concat (map day_counted ds)) no_totals.
Proof.
  unfold fetchMediaDailyInRange.
  destruct (days_loop E cfg (days_between rangeStart rangeEnd) token rangeStart rangeEnd
              seen no_totals s) as [[t'|e] s'] eqn:Hrun; [|discriminate].
  cbn [fst snd]. intros [= <-].
  apply days_loop_slots in Hrun; [exact Hrun|].
  unfold days_between, days_needed. destruct (rangeStart <? rangeEnd) eqn:Hlt.
  - apply Z.ltb_lt in Hlt.
    assert ((rangeEnd - rangeStart - 1) / day <= (rangeEnd - rangeStart) / day)
      by (apply Z.div_le_mono; unfold day; lia).
    pose proof (Z.div_pos (rangeEnd - rangeStart) day ltac:(lia) ltac:(unfold day; lia)).
    lia.
  - lia.
Qed.

(** X21: the days of [fetchMediaDailyInRange].  When it returns it has run
    one slice per day from [rangeStart], for as many days as it takes to
    reach [rangeEnd] (a started day is a whole window, which then ends after
    [rangeEnd]); a day whose slice hit the limit is followed by its 24 hourly
    slices; and the totals count the hourly slices of such a day in place of
    the day's own slice, and every other day's slice once. *)
Theorem daily_drill_down token rangeStart rangeEnd seen (s : @state W) t :
  fst (fetchMediaDailyInRange E cfg token rangeStart rangeEnd seen s) = Ok t ->
  exists ds : list (slice_result * list slice_result),
    slice_returns (log (snd (fetchMediaDailyInRange E cfg token rangeStart rangeEnd seen s)))
      = (slice_returns (log s) ++ day_slots rangeStart ds)%list /\
    Forall (fun d => length (snd d) = if hitLimit (fst d) then 24%nat else 0%nat) ds /\
    len ds = days_needed rangeStart rangeEnd /\
    t = fold_left add_slice (concat (map day_counted ds)) no_totals.
Proof. apply daily_slots_of. Qed.

(** X22: the hours of a saturated day.  The 24 hourly slices run from the
    UTC midnight at or before [dayStart], hour by hour, and are all added to
    the totals; they cover the day window [dayStart, dayStart + 1 day) only
    when [dayStart] is itself a midnight: otherwise they start before it and
    end before its end. *)
Theorem hourly_slices_cover_the_calendar_day token dayStart seen t (s : @state W) t' :
  fst (hours_loop E cfg 24 token dayStart 0 seen t s) = Ok t' ->
  let midnight := dayStart - dayStart mod day in
  exists hs,
    slice_returns (log (snd (hours_loop E cfg 24 token dayStart 0 seen t s))) =
      (slice_returns (log s) ++ hs)%list /\
    map (fun x => window_of (snd (fst x))) hs =
      map (fun h => Some (midnight + Z.of_nat h * hour_ms,
                          midnight + (Z.of_nat h + 1) * hour_ms)) (seq 0 24) /\
    t' = fold_left add_slice (map snd hs) t /\
    midnight <= dayStart < midnight + day /\
    midnight + 24 * hour_ms = midnight + day /\
    (midnight = dayStart <-> dayStart mod day = 0).
Proof.
  intros Hrun midnight.
  destruct (hours_loop E cfg 24 token dayStart 0 seen t s) as [[t1|e] s'] eqn:Hloop;
    [|discriminate].
  cbn [fst snd] in *. injection Hrun as ->.
  apply hours_loop_slots in Hloop. destruct Hloop as (hs & Hlen & Hsl & Ht).
  exists (hour_slots dayStart 0 hs).
  assert (forall h, atHour dayStart h = midnight + h * hour_ms) as Hat.
  { intros h. unfold atHour, midnight. rewrite Z.mod_eq by (unfold day; lia). lia. }
  split; [exact Hsl|].
  split.
  { do 24 (destruct hs as [|? hs]; [discriminate Hlen|]).
    destruct hs; [|discriminate Hlen].
    cbn [hour_slots map seq slot fst snd window_of]. rewrite !Hat.
    repeat (f_equal; [f_equal; f_equal; lia|]). reflexivity. }
  split.
  { rewrite Ht. f_equal. clear. generalize 0 at 1. induction hs as [|r hs IH]; intros h;
      [reflexivity|]. cbn. f_equal. apply IH. }
  pose proof (Z.mod_pos_bound dayStart day ltac:(unfold day; lia)) as Hmod.
  unfold midnight, hour_ms, day in *. repeat split; lia.
Qed.

End ScheduleFacts.

(** ** The weekly catch-up of an incremental media run *)
Section CatchUpFacts.
Context {W : Type} (E : @env W) (cfg : config).

Lemma add_counts_no_totals t :
  add_counts t (t_fetched no_totals) (t_upserted no_totals) (t_latest no_totals) = t.
Proof.
  destruct t as [f u l]. unfold add_counts. cbn. f_equal; try lia.
  destruct l; reflexivity.
Qed.

Lemma fold_add_slice_from xs :
  forall t d,
    fold_left add_slice xs (add_counts t (t_fetched d) (t_upserted d) (t_latest d)) =
    add_counts t (t_fetched (fold_left add_slice xs d))
               (t_upserted (fold_left add_slice xs d))
               (t_latest (fold_left add_slice xs d)).
Proof.
  induction xs as [|x xs IH]; intros t d; cbn [fold_left]; [reflexivity|].
  rewrite <- IH. f_equal. unfold add_slice, add_counts. cbn. f_equal; try lia.
  apply merge_latest_assoc.
Qed.

Lemma add_daily_totals t xs :
  add_counts t (t_fetched (fold_left add_slice xs no_totals))
             (t_upserted (fold_left add_slice xs no_totals))
             (t_latest (fold_left add_slice xs no_totals)) =
  fold_left add_slice xs t.
Proof. rewrite <- fold_add_slice_from, add_counts_no_totals. reflexivity. Qed.

Lemma range_loop_weeks token startDate seen :
  forall n currentStart currentEnd t (s : @state W) t' s',
    range_loop E cfg n token startDate currentStart currentEnd seen t s = (Ok t', s') ->
    currentStart < currentEnd <= currentStart + 7 * day ->
    exists ws,
      slice_returns (log s') = (slice_returns (log s) ++ week_slots ws)%list /\
      (length ws <= n)%nat /\
      back_to_back currentEnd (map (fun w => (wk_lo w, wk_hi w)) ws) /\
      Forall (fun w => startDate <= wk_lo w /\ wk_hi w - wk_lo w <= 7 * day) ws /\
      (currentEnd <= startDate -> ws = []) /\
      (startDate < currentEnd -> (length ws < n)%nat ->
       last (map wk_lo ws) = Some startDate) /\
      Forall week_ok ws /\
      t' = fold_left add_slice (concat (map week_counted ws)) t.
Proof.
  induction n as [|n IH]; intros cs ce t s t' s' Hrun Hinv.
  { cbn in Hrun. injection Hrun as <- <-. exists []. cbn. rewrite app_nil_r.
    repeat split; auto; lia. }
  cbn [range_loop] in Hrun. destruct (ce >? startDate) eqn:Hgt.
  2:{ unfold ret in Hrun. injection Hrun as <- <-. exists []. cbn. rewrite app_nil_r.
      assert (ce <= startDate) by lia. repeat split; auto; lia. }
  assert (startDate < ce) as Hlt by lia.
  set (lo := if cs <? startDate then startDate else cs) in *.
  assert (startDate <= lo /\ lo < ce /\ ce - lo <= 7 * day /\
          (lo <= startDate -> lo = startDate)) as (Hlo1 & Hlo2 & Hlo3 & Hlo4).
  { unfold lo. destruct (cs <? startDate) eqn:Hc; lia. }
  unfold bind in Hrun.
  pose proof (media_slice_returns E cfg token lo ce seen s) as Hret.
  destruct (media_slice E cfg token lo ce seen s) as [[r|e] s1]; [|discriminate].
  cbn [fst snd] in *.
  destruct (hitLimit r) eqn:Hhit.
  - pose proof (daily_slots_of E cfg token lo ce seen s1) as Hdaily.
    destruct (fetchMediaDailyInRange E cfg token lo ce seen s1) as [[d|e] s2];
      [|discriminate].
    destruct (Hdaily d eq_refl) as (ds & Hsl & Hall & Hn & Hd). clear Hdaily.
    cbn [fst snd ret] in *. apply IH in Hrun; [|unfold addDays; lia].
    destruct Hrun as (ws & Hsl' & Hlen & Hbb & Hin & Hnil & Hlast & Hok & Ht).
    exists ({| wk_lo := lo; wk_hi := ce; wk_result := r; wk_days := ds |} :: ws).
    cbn [week_slots map concat wk_lo wk_hi wk_result wk_days back_to_back fst snd length].
    split; [rewrite Hsl', Hsl, Hret, <- !app_assoc; reflexivity|].
    split; [lia|]. split; [auto|].
    split; [constructor; [cbn; lia|exact Hin]|].
    split; [lia|].
    split.
    { intros _ Hl. destruct (Z.le_gt_cases lo startDate) as [Hle|Hgt'].
      - rewrite (Hnil Hle). cbn. f_equal. auto.
      - rewrite last_cons, (Hlast ltac:(lia) ltac:(lia)). reflexivity. }
    split; [constructor; [unfold week_ok; cbn; rewrite Hhit; auto|exact Hok]|].
    rewrite fold_left_app.
    assert (week_counted {| wk_lo := lo; wk_hi := ce; wk_result := r; wk_days := ds |} =
            concat (map day_counted ds)) as ->
      by (unfold week_counted; cbn; rewrite Hhit; reflexivity).
    rewrite Ht, Hd, add_daily_totals. reflexivity.
  - cbn [fst snd ret] in *. apply IH in Hrun; [|unfold addDays; lia].
    destruct Hrun as (ws & Hsl' & Hlen & Hbb & Hin & Hnil & Hlast & Hok & Ht).
    exists ({| wk_lo := lo; wk_hi := ce; wk_result := r; wk_days := [] |} :: ws).
    cbn [week_slots map concat wk_lo wk_hi wk_result wk_days back_to_back fst snd length
         day_slots app].
    split; [rewrite Hsl', Hret, <- !app_assoc; reflexivity|].
    split; [lia|]. split; [auto|].
    split; [constructor; [cbn; lia|exact Hin]|].
    split; [lia|].
    split.
    { intros _ Hl. destruct (Z.le_gt_cases lo startDate) as [Hle|Hgt'].
      - rewrite (Hnil Hle). cbn. f_equal. auto.
      - rewrite last_cons, (Hlast ltac:(lia) ltac:(lia)). reflexivity. }
    split; [constructor; [unfold week_ok; cbn; rewrite Hhit; reflexivity|exact Hok]|].
    rewrite fold_left_app.
    assert (week_counted {| wk_lo := lo; wk_hi := ce; wk_result := r; wk_days := [] |} =
            [r]) as ->
      by (unfold week_counted; cbn; rewrite Hhit; reflexivity).
    rewrite Ht. reflexivity.
Qed.

(** X23: the weekly catch-up of an incremental run that hit the limit
    ([fetchMediaInDateRange]).  When it returns it has run at most 100
    weekly slices, whose windows go back from [endDate] without gap or
    overlap, none wider than seven days and none starting before
    [startDate]; with fewer than 100 of them the last one starts at
    [startDate], so that together they are exactly [startDate, endDate).  A
    week is drilled down day by day exactly when its slice hit the limit, and
    the totals then count the slices of the drill-down in place of the
    week's own. *)
Theorem weekly_catch_up_covers_the_range token startDate endDate seen (s : @state W) t :
  fst (fetchMediaInDateRange E cfg token startDate endDate seen s) = Ok t ->
  exists ws,
    slice_returns (log (snd (fetchMediaInDateRange E cfg token startDate endDate seen s))) =
      (slice_returns (log s) ++ week_slots ws)%list /\
    (length ws <= 100)%nat /\
    back_to_back endDate (map (fun w => (wk_lo w, wk_hi w)) ws) /\
    Forall (fun w => startDate <= wk_lo w /\ wk_hi w - wk_lo w <= 7 * day) ws /\
    (endDate <= startDate -> ws = []) /\
    (startDate < endDate -> (length ws < 100)%nat ->
     last (map wk_lo ws) = Some startDate) /\
    Forall week_ok ws /\
    t = fold_left add_slice (concat (map week_counted ws)) no_totals.
Proof.
  unfold fetchMediaInDateRange.
  destruct (range_loop E cfg 100 token startDate (addDays endDate (-7)) endDate seen
              no_totals s) as [[t'|e] s'] eqn:Hrun; [|discriminate].
  cbn [fst snd]. intros [= <-].
  apply range_loop_weeks in Hrun; [exact Hrun|]. unfold addDays, day. lia.
Qed.

End CatchUpFacts.

(** ** The properties above on the scripted upstream *)

Lemma mock_upsert_rows m table rows c (w : gmap string Z) d :
  sb_data (fst (sb_upsert (Mock.E m) table rows c w)) = Some d -> len d <= len rows.
Proof. cbn. intros [= <-]. lia. Qed.

Lemma mock_upsert_error m table rows c (w : gmap string Z) e :
  sb_error (fst (sb_upsert (Mock.E m) table rows c w)) = Some e ->
  includes (message e) cap_marker = false.
Proof. cbn. discriminate. Qed.

Lemma unsaturated_slice_saw_the_last_page_witness :
  exists tr rq value,
    log (snd Scenario.run_one_slice) = (log (Mock.started ∅) ++ tr)%list /\
    last (pages tr) = Some (rq, Ok value) /\
    (value = [] \/ len value < BATCH_SIZE (Mock.cfg 5000 false)).
Proof.
  eapply (unsaturated_slice_saw_the_last_page (Mock.E Scenario.short_feed)
            (Mock.cfg 5000 false) Media "https://query.ampre.ca/odata/Media" "idx-token"
            None 0%nat false (Mock.started ∅)).
  - vm_compute. reflexivity.
  - reflexivity.
Defined.

Lemma slice_counts_follow_the_set_witness :
  exists r,
    fst Scenario.run_one_slice = Ok r /\
    totalUnique r = Z.of_nat (size (set_of 0 (snd Scenario.run_one_slice))) /\
    totalUpserted r <= totalUnique r - Z.of_nat (size (set_of 0 (Mock.started ∅)))
      <= totalFetched r.
Proof.
  eexists. split; [vm_compute; reflexivity|].
  apply (slice_counts_follow_the_set (Mock.E Scenario.short_feed) (Mock.cfg 5000 false)
           (mock_upsert_rows Scenario.short_feed) (mock_upsert_error Scenario.short_feed)
           Media "https://query.ampre.ca/odata/Media" "idx-token" None 0%nat false
           (Mock.started ∅)).
  - cbn. lia.
  - vm_compute. reflexivity.
Defined.

Lemma listing_counters_are_ordered_witness :
  exists res,
    fst Scenario.run_listings = Ok res /\
    r_fetched res = 3 /\ r_unique res = 2 /\
    r_upserted res <= r_unique res <= r_fetched res.
Proof.
  eexists. split; [vm_compute; reflexivity|]. split; [reflexivity|]. split; [reflexivity|].
  apply (listing_counters_are_ordered (Mock.E Scenario.listings) (Mock.cfg 5000 false)
           (mock_upsert_rows Scenario.listings) (mock_upsert_error Scenario.listings)
           "IDX" (Some "idx-token") "https://query.ampre.ca/odata/Property" 100000 false
           (Mock.start ∅)).
  vm_compute. reflexivity.
Defined.

Lemma chunks_of_slices (chunks : list (Z * Z * slice_result)) :
  omap (fun x => option_map (fun w => (w, snd x)) (window_of (snd (fst x))))
       (map (fun c => (Listing, Some (FilterRange listing_field (fst (fst c)) (snd (fst c))),
                       snd c)) chunks) = chunks.
Proof.
  induction chunks as [|[[lo hi] r] chunks IH]; [reflexivity|].
  cbn. f_equal. exact IH.
Qed.

(** Three chunks of ninety days going back from [beforeDate]: two
    listings, one listing, none; the walk ends there, the next chunk
    starting before the year 2000. *)
Lemma older_chunks_tile_the_past_witness :
  exists chunks : list (Z * Z * slice_result),
    slice_returns (log (snd Scenario.run_older)) =
      (slice_returns (log (Mock.started ∅)) ++
       map (fun c => (Listing, Some (FilterRange listing_field (fst (fst c)) (snd (fst c))),
                      snd c)) chunks)%list /\
    map fst chunks = [(year2000 + 110 * day, year2000 + 200 * day);
                      (year2000 + 20 * day, year2000 + 110 * day);
                      (year2000 - 70 * day, year2000 + 20 * day)] /\
    map (fun c => totalFetched (snd c)) chunks = [2; 1; 0] /\
    back_to_back (year2000 + 200 * day) (map fst chunks) /\
    Forall (fun w => day <= snd w - fst w <= 90 * day) (map fst chunks) /\
    {| t_fetched := 3; t_upserted := 3; t_latest := Some (year2000 + 160 * day) |}
      = fold_left add_slice (map snd chunks) no_totals.
Proof.
  destruct (older_chunks_tile_the_past (Mock.E Scenario.old_listings) (Mock.cfg 5000 false)
              "https://query.ampre.ca/odata/Property" "idx-token" (year2000 + 200 * day)
              0%nat 100000 (Mock.started ∅)
              {| t_fetched := 3; t_upserted := 3;
                 t_latest := Some (year2000 + 160 * day) |})
    as (chunks & Hlog & _ & Hbb & Hw & Ht); [vm_compute; reflexivity|].
  exists chunks. split; [exact Hlog|].
  assert (chunks =
          omap (fun x => option_map (fun w => (w, snd x)) (window_of (snd (fst x))))
               (slice_returns (log (snd Scenario.run_older)))) as Hc.
  { unfold Scenario.run_older. rewrite Hlog.
    cbn [Mock.started log slice_returns omap list_omap app].
    symmetry. apply chunks_of_slices. }
  split; [rewrite Hc; vm_compute; reflexivity|].
  split; [rewrite Hc; vm_compute; reflexivity|].
  split; [exact Hbb|]. split; [exact Hw|exact Ht].
Defined.

Lemma zip_slots_results (rs : list slice_result) :
  forall width hi,
    map snd (zip_with (fun w r => slot (fst w) (snd w) r)
                      (windows_back (length rs) width hi) rs) = rs.
Proof.
  induction rs as [|r rs IH]; intros width hi; [reflexivity|].
  cbn. f_equal. apply IH.
Qed.

(** Three weeks with one record each, from the 22nd of January at noon
    back to the 1st at noon; the walk ends there, the next week starting
    before the floor, and no other slice is run. *)
Lemma weekly_walk_windows_witness :
  exists rs,
    slice_returns (log (snd Scenario.run_walk)) =
      zip_with (fun w r => slot (fst w) (snd w) r)
               (windows_back 3 (7 * day) (Mock.jan1_2024 + 21 * day + 12 * hour_ms)) rs /\
    map totalFetched rs = [1; 1; 1] /\
    Forall unsaturated rs /\
    Mock.jan1_2024 < Mock.jan1_2024 + 21 * day + 12 * hour_ms - 7 * day * 3 /\
    Mock.jan1_2024 + 21 * day + 12 * hour_ms - 7 * day * (3 + 1) <= Mock.jan1_2024.
Proof.
  destruct (weekly_walk_windows (Mock.E Scenario.three_weeks) (Mock.cfg 5000 false)
              "idx-token" 0%nat (Mock.started ∅)
              {| r_fetched := 3; r_upserted := 3; r_unique := 3;
                 r_latest := Some (Mock.jan1_2024 + 15 * day) |})
    as (rs & extra & Hlog & Hlen & Hfl & Hwhy & Hex); [vm_compute; reflexivity|].
  cbn [Mock.started log slice_returns omap list_omap app] in Hlog.
  pose proof (f_equal (map snd) Hlog) as Hres.
  rewrite map_app, zip_slots_results in Hres.
  assert (Forall unsaturated (map snd (slice_returns (log (snd Scenario.run_walk)))))
    as Hall by (vm_compute; repeat constructor).
  unfold Scenario.run_walk in Hall. rewrite Hres in Hall. apply Forall_app in Hall. destruct Hall as [Hall _].
  specialize (Hex Hall). subst extra. rewrite app_nil_r in Hlog, Hres.
  assert (length rs = 3%nat) as H3
    by (rewrite <- Hres; vm_compute; reflexivity).
  fold Scenario.run_walk in Hlog, Hres.
  exists rs. rewrite H3 in Hlog. unfold len in Hfl, Hwhy. rewrite H3 in Hfl, Hwhy.
  change (addDays (clock (Mock.E Scenario.three_weeks) (world (Mock.started ∅))) 1)
    with (Mock.jan1_2024 + 20 * day + 12 * hour_ms + 1 * day) in Hlog, Hfl, Hwhy.
  replace (Mock.jan1_2024 + 20 * day + 12 * hour_ms + 1 * day)
    with (Mock.jan1_2024 + 21 * day + 12 * hour_ms) in Hlog, Hfl, Hwhy
    by (unfold day; lia).
  split; [exact Hlog|].
  split; [rewrite <- Hres; vm_compute; reflexivity|].
  split; [exact Hall|]. split; [apply Hfl; lia|].
  unfold Mock.jan1_2024, day, hour_ms. lia.
Defined.

Lemma daily_drill_down_witness :
  exists ds : list (slice_result * list slice_result),
    slice_returns (log (snd Scenario.run_days)) =
      (slice_returns (log (Mock.started ∅)) ++ day_slots Mock.jan1_2024 ds)%list /\
    Forall (fun d => length (snd d) = if hitLimit (fst d) then 24%nat else 0%nat) ds /\
    len ds = 2 /\
    {| t_fetched := 2; t_upserted := 2; t_latest := Some (Mock.jan1_2024 + 1 * day + hour_ms) |}
      = fold_left add_slice (concat (map day_counted ds)) no_totals.
Proof.
  apply (daily_drill_down (Mock.E Scenario.hot_week) (Mock.cfg 2 false) "idx-token"
           Mock.jan1_2024 (Mock.jan1_2024 + 2 * day) 0%nat (Mock.started ∅)).
  vm_compute. reflexivity.
Defined.

Lemma hourly_slices_cover_the_calendar_day_witness :
  exists hs,
    slice_returns (log (snd Scenario.run_hours)) =
      (slice_returns (log (Mock.started ∅)) ++ hs)%list /\
    map (fun x => window_of (snd (fst x))) hs =
      map (fun h => Some (Mock.jan1_2024 + Z.of_nat h * hour_ms,
                          Mock.jan1_2024 + (Z.of_nat h + 1) * hour_ms)) (seq 0 24) /\
    length hs = 24%nat.
Proof.
  destruct (hourly_slices_cover_the_calendar_day (Mock.E Scenario.hot_week)
              (Mock.cfg 2 false) "idx-token" (Mock.jan1_2024 + hour_ms) 0%nat no_totals
              (Mock.started ∅)
              {| t_fetched := 1; t_upserted := 1;
                 t_latest := Some (Mock.jan1_2024 + hour_ms) |})
    as (hs & Hlog & Hwin & _); [vm_compute; reflexivity|].
  exists hs. split; [exact Hlog|]. split; [exact Hwin|].
  apply (f_equal (@length _)) in Hwin. rewrite !length_map in Hwin. exact Hwin.
Defined.

Lemma batch_latest_timestamp_witness :
  exists t,
    findLatestTimestamp Media
      (map (map_row Media (Mock.jan1_2024 + 8 * day)) [Scenario.early_record]) = Some t /\
    t = Mock.jan1_2024 + 1 * day.
Proof.
  destruct (batch_latest_timestamp Media (Mock.jan1_2024 + 8 * day) [Scenario.early_record])
    as (t & Ht & _ & Hex & _); [discriminate|].
  exists t. split; [exact Ht|].
  apply Exists_cons in Hex. destruct Hex as [Hex|Hex]; [|inversion Hex].
  symmetry. exact Hex.
Defined.

Lemma checkpoint_written_once_after_the_run_witness :
  Forall no_checkpoint_write
    (log (snd (fetchMediaRecords (Mock.E Scenario.fresh_feed) (Mock.cfg 5000 true) true
                 (Mock.start Scenario.fresh_log)))) /\
  checkpoint_writes
    (log (snd (processMedia (Mock.E Scenario.fresh_feed) (Mock.cfg 5000 true)
                 (Mock.start Scenario.fresh_log)))) =
    [[SyncLogRow {| resourcetype := "MEDIA";
                    lastprocessedtimestamp := Some (Mock.jan1_2024 + 5 * day);
                    updatedat := Mock.jan1_2024 + 6 * day |}]].
Proof.
  split; [|vm_compute; reflexivity].
  apply (checkpoint_written_once_after_the_run (Mock.E Scenario.fresh_feed)
           (Mock.cfg 5000 true) (Mock.start Scenario.fresh_log)).
  constructor.
Defined.

Lemma weekly_catch_up_covers_the_range_witness :
  exists ws,
    slice_returns (log (snd Scenario.run_catch_up)) =
      (slice_returns (log (Mock.started ∅)) ++ week_slots ws)%list /\
    back_to_back (Mock.jan1_2024 + 3 * day) (map (fun w => (wk_lo w, wk_hi w)) ws) /\
    Forall (fun w => Mock.jan1_2024 <= wk_lo w /\ wk_hi w - wk_lo w <= 7 * day) ws /\
    Forall week_ok ws /\
    {| t_fetched := 1; t_upserted := 1;
       t_latest := Some (Mock.jan1_2024 + 2 * day + hour_ms) |}
      = fold_left add_slice (concat (map week_counted ws)) no_totals.
Proof.
  destruct (weekly_catch_up_covers_the_range (Mock.E Scenario.hot_week) (Mock.cfg 2 false)
              "idx-token" Mock.jan1_2024 (Mock.jan1_2024 + 3 * day) 0%nat (Mock.started ∅)
              {| t_fetched := 1; t_upserted := 1;
                 t_latest := Some (Mock.jan1_2024 + 2 * day + hour_ms) |})
    as (ws & Hlog & _ & Hbb & Hin & _ & _ & Hok & Ht); [vm_compute; reflexivity|].
  exists ws. auto.
Defined.
